(** * Email warm-up: the orchestrator core and its transport adapters

    A shallow embedding of the backend of the email warm-up platform:
    - [Smtp]: [services/smtpService.ts] ([createTransporter], [sendEmail]);
    - [SessionRepo]: [db/sessionRepo.ts] over the [warmup_sessions] table of
      [supabase/schema.sql];
    - [Encryption]: [utils/encryption.ts] ([encrypt], [decrypt]) over the
      cipher of the platform;
    - [Imap]: the [ImapListener] class of [services/imapService.ts] as a
      transition system over the events of its connection and timers;
    - [Orchestrator]: [services/warmupOrchestrator.ts], written in a small
      state-and-exception monad over the process memory and the database.

    Conventions.  JavaScript numbers that hold integers are [Z]; [T | null]
    and optional members are [option T]; a thrown [Error] is its message.
    Values the program draws from outside (the clock, [uuidv4],
    [gen_random_uuid], [Math.random], the answers of the SMTP server and of
    the text generator) are arguments of the functions that use them. *)

From Stdlib Require Import ZArith Lia Ascii String.
From Stdlib Require Strings.Byte.
From stdpp Require Import base option list gmap strings fin_maps.

Local Open Scope string_scope.
Local Open Scope list_scope.

(** ** JavaScript string helpers *)

(** [s.split(sep)] for a one-character separator. *)
Fixpoint split (sep : ascii) (s : string) : list string :=
  match s with
  | EmptyString => [EmptyString]
  | String c s' =>
      if Ascii.eqb c sep then EmptyString :: split sep s'
      else match split sep s' with
           | [] => [String c EmptyString]
           | seg :: segs => String c seg :: segs
           end
  end.

(** Truthiness of an optional string: [undefined], [null] and [''] are falsy. *)
Definition truthy (o : option string) : bool :=
  match o with
  | Some s => negb (String.eqb s EmptyString)
  | None => false
  end.

(** [a || b] on optional strings. *)
Definition or_else (a b : option string) : option string :=
  if truthy a then a else b.

(** The double-quote character. *)
Definition dquote : string := String (ascii_of_nat 34) EmptyString.

(** A value interpolated in a template literal: [undefined] prints as such. *)
Definition interpolate (o : option string) : string :=
  match o with
  | Some s => s
  | None => "undefined"
  end.

(** [c] does not occur in [s]. *)
Fixpoint free_of (c : ascii) (s : string) : bool :=
  match s with
  | EmptyString => true
  | String c' s' => negb (Ascii.eqb c' c) && free_of c s'
  end.

(** The number of occurrences of [c] in [s]. *)
Fixpoint occurrences (c : ascii) (s : string) : nat :=
  match s with
  | EmptyString => 0
  | String c' s' => (if Ascii.eqb c' c then 1 else 0) + occurrences c s'
  end.

(** ** SMTP sending service *)

Module Smtp.

Record SmtpConfig := {
  host : string;
  port : Z;
  secure : bool;
  password : string;
  email : string;
  senderName : string;
}.

Record SendEmailParams := {
  to : string;
  subject : string;
  body : string;
  inReplyTo : option string;
  references : option string;
}.

Record SendEmailResult := {
  messageId : string;
  accepted : list string;
}.

(** [SMTPTransport.Options] as [createTransporter] fills them. *)
Record TransportOptions := {
  o_host : string;
  o_port : Z;
  o_secure : bool;
  o_auth_user : string;
  o_auth_pass : string;
  o_tls_rejectUnauthorized : bool;
  o_connectionTimeout : Z;
  o_greetingTimeout : Z;
  o_socketTimeout : Z;
}.

(** [nodemailer.SendMailOptions] as [sendEmail] fills them. *)
Record SendMailOptions := {
  m_from : string;
  m_to : string;
  m_subject : string;
  m_text : string;
  m_messageId : string;
  m_headers : gmap string string;
}.

Definition createTransporter (config : SmtpConfig) : TransportOptions :=
  {| o_host := host config;
     o_port := port config;
     o_secure := (port config =? 465)%Z;
     o_auth_user := email config;
     o_auth_pass := password config;
     o_tls_rejectUnauthorized := false;
     o_connectionTimeout := 30000;
     o_greetingTimeout := 15000;
     o_socketTimeout := 30000 |}.

(** The [messageId] constant of [sendEmail]; [uuid] is the value of
    [uuidv4()]. *)
Definition generateMessageId (smtpConfig : SmtpConfig) (uuid : string) : string :=
  let domain := split "@" (email smtpConfig) !! 1%nat in
  "<" +:+ uuid +:+ "@" +:+ interpolate domain +:+ ">".

(** The [mailOptions] constant of [sendEmail], after the threading
    headers were added. *)
Definition mailOptions (smtpConfig : SmtpConfig) (params : SendEmailParams)
    (uuid : string) : SendMailOptions :=
  {| m_from := dquote +:+ senderName smtpConfig +:+ dquote +:+ " <" +:+ email smtpConfig +:+ ">";
     m_to := to params;
     m_subject := subject params;
     m_text := body params;
     m_messageId := generateMessageId smtpConfig uuid;
     m_headers :=
       if truthy (inReplyTo params)
       then <["References" := default EmptyString (or_else (references params) (inReplyTo params))]>
              (<["In-Reply-To" := default EmptyString (inReplyTo params)]> ∅)
       else ∅ |}.

Section Transport.

(** [transporter.sendMail]: the server's answer for a connection opened
    with the given options, either an error message or the accepted
    recipients. *)
Variable sendMail : TransportOptions -> SendMailOptions -> string + list string.

Definition sendEmail (smtpConfig : SmtpConfig) (params : SendEmailParams)
    (uuid : string) : string + SendEmailResult :=
  let transporter := createTransporter smtpConfig in
  let messageId := generateMessageId smtpConfig uuid in
  match sendMail transporter (mailOptions smtpConfig params uuid) with
  | inr info_accepted =>
      inr {| messageId := messageId; accepted := info_accepted |}
  | inl error => inl error
  end.

(** [transporter.verify]: [None] when the server accepts the connection. *)
Variable verify : TransportOptions -> option string.

Definition testSmtpConnection (config : SmtpConfig) : string + bool :=
  let transporter := createTransporter config in
  match verify transporter with
  | None => inr true
  | Some error => inl ("SMTP connection failed: " +:+ error)
  end.

End Transport.

End Smtp.

(** ** Database entities ([types/index.ts], [supabase/schema.sql]) *)

(** Timestamps are milliseconds since the epoch, dates are days since the
    epoch; the server's time zone is taken to be UTC. *)
Definition CURRENT_DATE (now : Z) : Z := (now / 86400000)%Z.

Inductive SessionStatus :=
  pending | sending | waiting_reply | paused | completed | failed.

Inductive DomainStatus := idle | running | domain_paused.

Inductive Direction := sent | received | replied.

#[global] Instance SessionStatus_eq_dec : EqDecision SessionStatus.
Proof. solve_decision. Defined.
#[global] Instance DomainStatus_eq_dec : EqDecision DomainStatus.
Proof. solve_decision. Defined.
#[global] Instance Direction_eq_dec : EqDecision Direction.
Proof. solve_decision. Defined.

Module WarmupSession.
Record t := mk {
  id : string;
  domain_account_id : string;
  current_lead_index : Z;
  status : SessionStatus;
  last_message_id : option string;
  session_date : Z;
  started_at : option Z;
  completed_at : option Z;
  error_message : option string;
  created_at : Z;
  updated_at : Z;
}.
End WarmupSession.

#[global] Instance WarmupSession_eq_dec : EqDecision WarmupSession.t.
Proof. solve_decision. Defined.

Module MailLog.
Record t := mk {
  id : string;
  session_id : option string;
  from_email : string;
  to_email : string;
  subject : string;
  body : option string;
  message_id : option string;
  in_reply_to : option string;
  direction : Direction;
  lead_index : option Z;
  created_at : Z;
}.
End MailLog.

Module DomainAccount.
Record t := mk {
  id : string;
  sender_name : string;
  email : string;
  smtp_host : string;
  smtp_port : Z;
  smtp_secure : bool;
  smtp_password : string;
  imap_host : string;
  imap_port : Z;
  imap_secure : bool;
  imap_password : string;
  status : DomainStatus;
  created_at : Z;
  updated_at : Z;
}.
End DomainAccount.

Module LeadAccount.
Record t := mk {
  id : string;
  sender_name : string;
  email : string;
  smtp_host : string;
  smtp_port : Z;
  smtp_secure : bool;
  smtp_password : string;
  imap_host : string;
  imap_port : Z;
  imap_secure : bool;
  imap_password : string;
  created_at : Z;
  updated_at : Z;
}.
End LeadAccount.

(** [rows[0] || null] *)
Definition first_row {A} (rows : list A) : option A := head rows.

(** ** Session repository ([db/sessionRepo.ts]) *)

Module SessionRepo.
Import WarmupSession.

(** The optional argument [extras] of [updateStatus].  For
    [error_message] and [completed_at] the source tests the presence of
    the key, and the value may be [null]. *)
Record Extras := {
  x_current_lead_index : option Z;
  x_last_message_id : option string;
  x_error_message : option (option string);
  x_completed_at : option (option Z);
}.

Definition no_extras : Extras :=
  {| x_current_lead_index := None; x_last_message_id := None;
     x_error_message := None; x_completed_at := None |}.

Definition findById (session_id : string) (tbl : list t) : option t :=
  first_row (filter (λ r, id r = session_id) tbl).

(** [ORDER BY created_at DESC]: insertion into a list sorted by
    decreasing creation time. *)
Fixpoint insert_desc (r : t) (rows : list t) : list t :=
  match rows with
  | [] => [r]
  | r' :: rows' =>
      if (created_at r' <? created_at r)%Z then r :: rows
      else r' :: insert_desc r rows'
  end.

Definition order_by_created_at_desc (rows : list t) : list t :=
  foldr insert_desc [] rows.

Definition findActiveToday (now : Z) (domainAccountId : string) (tbl : list t)
    : option t :=
  first_row (order_by_created_at_desc
    (filter (λ r, domain_account_id r = domainAccountId
                  ∧ session_date r = CURRENT_DATE now
                  ∧ status r ≠ completed ∧ status r ≠ failed) tbl)).

Definition findCompletedToday (now : Z) (domainAccountId : string) (tbl : list t)
    : option t :=
  first_row (filter (λ r, domain_account_id r = domainAccountId
                          ∧ session_date r = CURRENT_DATE now
                          ∧ status r = completed) tbl).

(** The [SET] clause of the reset in [create]. *)
Definition reset (now : Z) (r : t) : t :=
  {| id := id r;
     domain_account_id := domain_account_id r;
     current_lead_index := 0;
     status := pending;
     last_message_id := None;
     session_date := session_date r;
     started_at := Some now;
     completed_at := None;
     error_message := None;
     created_at := created_at r;
     updated_at := now |}.

(** The row of the [INSERT] in [create], with the column defaults of the
    schema; [fresh] is the value of [gen_random_uuid()]. *)
Definition inserted (now : Z) (fresh domainAccountId : string) : t :=
  {| id := fresh;
     domain_account_id := domainAccountId;
     current_lead_index := 0;
     status := pending;
     last_message_id := None;
     session_date := CURRENT_DATE now;
     started_at := Some now;
     completed_at := None;
     error_message := None;
     created_at := now;
     updated_at := now |}.

(** [UPDATE warmup_sessions SET ... WHERE id = $1 RETURNING *]: the new
    table and the returned rows. *)
Definition update_where_id (session_id : string) (set : t → t) (tbl : list t)
    : list t * list t :=
  let tbl' := (λ r, if decide (id r = session_id) then set r else r) <$> tbl in
  (filter (λ r, id r = session_id) tbl', tbl').

Definition create (now : Z) (fresh domainAccountId : string) (tbl : list t)
    : option t * list t :=
  let existing :=
    filter (λ r, domain_account_id r = domainAccountId
                 ∧ session_date r = CURRENT_DATE now) tbl in
  match existing with
  | existing0 :: _ =>
      let '(rows, tbl') := update_where_id (id existing0) (reset now) tbl in
      (first_row rows, tbl')
  | [] =>
      let row := inserted now fresh domainAccountId in
      (Some row, tbl ++ [row])
  end.

(** The [SET] clause assembled by [updateStatus]; [updated_at] is set by
    the trigger of the schema. *)
Definition assign (now : Z) (new_status : SessionStatus) (extras : Extras) (r : t) : t :=
  {| id := id r;
     domain_account_id := domain_account_id r;
     current_lead_index := default (current_lead_index r) (x_current_lead_index extras);
     status := new_status;
     last_message_id :=
       match x_last_message_id extras with
       | Some m => Some m
       | None => last_message_id r
       end;
     session_date := session_date r;
     started_at := started_at r;
     completed_at := default (completed_at r) (x_completed_at extras);
     error_message := default (error_message r) (x_error_message extras);
     created_at := created_at r;
     updated_at := now |}.

Definition updateStatus (now : Z) (session_id : string) (new_status : SessionStatus)
    (extras : Extras) (tbl : list t) : option t * list t :=
  let '(rows, tbl') := update_where_id session_id (assign now new_status extras) tbl in
  (first_row rows, tbl').

End SessionRepo.

(** ** Errors

    One constructor for each [Error] the core throws, and [External] for
    the errors of its collaborators (decryption, text generator, SMTP). *)
Inductive Error :=
| AlreadyActive      (* Warm-up session already active for this domain account *)
| DomainNotFound     (* Domain account not found *)
| NoLeadAccounts     (* No lead accounts configured. Add at least one lead Gmail account. *)
| CompletedForToday (leads : nat) (completed_at : option Z)
                     (* All N warm-up emails completed for today ... *)
| SessionExists (st : SessionStatus)
                     (* Session already exists with status: S *)
| NoActiveSession    (* No active warm-up session found for this domain account *)
| TypeError          (* a property is read on null or undefined *)
| External (message : string).

(** The errors with which the control facade rejects a request before it
    changes anything. *)
Definition validation_error (e : Error) : bool :=
  match e with
  | AlreadyActive | DomainNotFound | NoLeadAccounts
  | CompletedForToday _ _ | SessionExists _ | NoActiveSession => true
  | TypeError | External _ => false
  end.

Definition status_name (st : SessionStatus) : string :=
  match st with
  | pending => "pending"
  | sending => "sending"
  | waiting_reply => "waiting_reply"
  | paused => "paused"
  | completed => "completed"
  | failed => "failed"
  end.

(** [error.message]; the count and the dates interpolated in the message of
    [CompletedForToday] are left out. *)
Definition message (e : Error) : string :=
  match e with
  | AlreadyActive => "Warm-up session already active for this domain account"
  | DomainNotFound => "Domain account not found"
  | NoLeadAccounts => "No lead accounts configured. Add at least one lead Gmail account."
  | CompletedForToday _ _ => "All warm-up emails completed for today"
  | SessionExists st => "Session already exists with status: " +:+ status_name st
  | NoActiveSession => "No active warm-up session found for this domain account"
  | TypeError => "Cannot read properties of null"
  | External m => m
  end.

(** [x || null] on optional strings, as in the parameters of the
    [INSERT] of the mail log. *)
Definition or_null (o : option string) : option string :=
  if truthy o then o else None.

(** ** Mail log repository ([db/mailLogRepo.ts]) *)

Module MailLogRepo.
Import MailLog.

(** The argument of [create]. *)
Record Data := {
  d_session_id : string;
  d_from_email : string;
  d_to_email : string;
  d_subject : string;
  d_body : option string;
  d_message_id : option string;
  d_in_reply_to : option string;
  d_direction : Direction;
  d_lead_index : option Z;
}.

Definition create (now : Z) (fresh : string) (data : Data) (tbl : list t)
    : t * list t :=
  let row :=
    {| id := fresh;
       session_id := Some (d_session_id data);
       from_email := d_from_email data;
       to_email := d_to_email data;
       subject := d_subject data;
       body := or_null (d_body data);
       message_id := or_null (d_message_id data);
       in_reply_to := or_null (d_in_reply_to data);
       direction := d_direction data;
       lead_index := d_lead_index data;
       created_at := now |} in
  (row, tbl ++ [row]).

Definition findBySession (sessionId : string) (tbl : list t) : list t :=
  filter (λ r, session_id r = Some sessionId) tbl.

End MailLogRepo.

(** ** Encryption of the stored credentials ([utils/encryption.ts]) *)

Module Encryption.

(** [buf.toString('hex')]: two lower-case digits for a byte. *)
Definition hex_digit (n : N) : ascii :=
  match n with
  | 0%N => "0" | 1%N => "1" | 2%N => "2" | 3%N => "3"
  | 4%N => "4" | 5%N => "5" | 6%N => "6" | 7%N => "7"
  | 8%N => "8" | 9%N => "9" | 10%N => "a" | 11%N => "b"
  | 12%N => "c" | 13%N => "d" | 14%N => "e" | _ => "f"
  end%char.

Fixpoint to_hex (bytes : list Byte.byte) : string :=
  match bytes with
  | [] => EmptyString
  | b :: bytes' =>
      String (hex_digit (Byte.to_N b / 16))
        (String (hex_digit (Byte.to_N b mod 16)) (to_hex bytes'))
  end.

(** The value of a hexadecimal digit, of either case. *)
Definition hex_value (c : ascii) : option N :=
  let n := N_of_ascii c in
  if (48 <=? n)%N && (n <=? 57)%N then Some (n - 48)%N
  else if (97 <=? n)%N && (n <=? 102)%N then Some (n - 87)%N
  else if (65 <=? n)%N && (n <=? 70)%N then Some (n - 55)%N
  else None.

(** [Buffer.from(s, 'hex')]: the bytes of the pairs of digits, up to the
    first pair that is not one and without a last single digit. *)
Fixpoint from_hex (s : string) : list Byte.byte :=
  match s with
  | String c1 (String c2 s') =>
      match hex_value c1, hex_value c2 with
      | Some h, Some l => default Byte.x00 (Byte.of_N (16 * h + l)) :: from_hex s'
      | _, _ => []
      end
  | _ => []
  end.

Section Cipher.

(** AES-256-GCM under the key [getKey()] derives from the configuration:
    [seal iv plaintext] is the authentication tag and the cipher text
    of the UTF-8 plain text, [open iv authTag ciphertext] the plain text or
    the message of the error [createDecipheriv], [setAuthTag] or [final]
    throws. *)
Variable seal : list Byte.byte → string → list Byte.byte * list Byte.byte.
Variable open : list Byte.byte → list Byte.byte → list Byte.byte → string + string.

(** [encrypt]; [iv] is what [crypto.randomBytes(IV_LENGTH)] gives. *)
Definition encrypt (iv : list Byte.byte) (plaintext : string) : string :=
  let '(authTag, encrypted) := seal iv plaintext in
  to_hex iv +:+ ":" +:+ to_hex authTag +:+ ":" +:+ to_hex encrypted.

Definition decrypt (encrypted : string) : string + string :=
  let parts := split ":" encrypted in
  if decide (length parts ≠ 3%nat) then inl "Invalid encrypted data format"
  else
    match parts with
    | [ivHex; authTagHex; ciphertext] =>
        open (from_hex ivHex) (from_hex authTagHex) (from_hex ciphertext)
    | _ => inl "Invalid encrypted data format"
    end.

End Cipher.

End Encryption.

(** ** Account repositories ([db/domainAccountRepo.ts], [db/leadAccountRepo.ts]) *)

Section Accounts.

(** [decrypt] of [utils/encryption.ts]: the plain text, or the message of
    the error it throws. *)
Variable decrypt : string → string + string.

Definition decryptDomainPasswords (account : DomainAccount.t)
    : Error + DomainAccount.t :=
  match decrypt (DomainAccount.smtp_password account) with
  | inl m => inl (External m)
  | inr smtp =>
      match decrypt (DomainAccount.imap_password account) with
      | inl m => inl (External m)
      | inr imap =>
          inr (DomainAccount.mk
                 (DomainAccount.id account) (DomainAccount.sender_name account)
                 (DomainAccount.email account)
                 (DomainAccount.smtp_host account) (DomainAccount.smtp_port account)
                 (DomainAccount.smtp_secure account) smtp
                 (DomainAccount.imap_host account) (DomainAccount.imap_port account)
                 (DomainAccount.imap_secure account) imap
                 (DomainAccount.status account)
                 (DomainAccount.created_at account) (DomainAccount.updated_at account))
      end
  end.

Definition decryptLeadPasswords (account : LeadAccount.t) : Error + LeadAccount.t :=
  match decrypt (LeadAccount.smtp_password account) with
  | inl m => inl (External m)
  | inr smtp =>
      match decrypt (LeadAccount.imap_password account) with
      | inl m => inl (External m)
      | inr imap =>
          inr (LeadAccount.mk
                 (LeadAccount.id account) (LeadAccount.sender_name account)
                 (LeadAccount.email account)
                 (LeadAccount.smtp_host account) (LeadAccount.smtp_port account)
                 (LeadAccount.smtp_secure account) smtp
                 (LeadAccount.imap_host account) (LeadAccount.imap_port account)
                 (LeadAccount.imap_secure account) imap
                 (LeadAccount.created_at account) (LeadAccount.updated_at account))
      end
  end.

(** [domainAccountRepo.findById] *)
Definition findDomainById (account_id : string) (tbl : list DomainAccount.t)
    : Error + option DomainAccount.t :=
  match filter (λ r, DomainAccount.id r = account_id) tbl with
  | [] => inr None
  | row :: _ =>
      match decryptDomainPasswords row with
      | inl e => inl e
      | inr account => inr (Some account)
      end
  end.

(** [ORDER BY created_at ASC] *)
Fixpoint insert_asc (r : LeadAccount.t) (rows : list LeadAccount.t)
    : list LeadAccount.t :=
  match rows with
  | [] => [r]
  | r' :: rows' =>
      if (LeadAccount.created_at r <? LeadAccount.created_at r')%Z then r :: rows
      else r' :: insert_asc r rows'
  end.

Definition order_by_created_at_asc (rows : list LeadAccount.t) : list LeadAccount.t :=
  foldr insert_asc [] rows.

(** [rows.map(decryptPasswords)] *)
Fixpoint map_decrypt (rows : list LeadAccount.t) : Error + list LeadAccount.t :=
  match rows with
  | [] => inr []
  | r :: rows' =>
      match decryptLeadPasswords r with
      | inl e => inl e
      | inr r' =>
          match map_decrypt rows' with
          | inl e => inl e
          | inr rs => inr (r' :: rs)
          end
      end
  end.

(** [leadAccountRepo.findAll] *)
Definition findAllLeads (tbl : list LeadAccount.t) : Error + list LeadAccount.t :=
  map_decrypt (order_by_created_at_asc tbl).

End Accounts.

(** [domainAccountRepo.updateStatus]; [updated_at] is set by the trigger. *)
Definition updateDomainStatus (now : Z) (account_id : string) (st : DomainStatus)
    (tbl : list DomainAccount.t) : list DomainAccount.t :=
  (λ r, if decide (DomainAccount.id r = account_id)
        then DomainAccount.mk
               (DomainAccount.id r) (DomainAccount.sender_name r) (DomainAccount.email r)
               (DomainAccount.smtp_host r) (DomainAccount.smtp_port r)
               (DomainAccount.smtp_secure r) (DomainAccount.smtp_password r)
               (DomainAccount.imap_host r) (DomainAccount.imap_port r)
               (DomainAccount.imap_secure r) (DomainAccount.imap_password r)
               st (DomainAccount.created_at r) now
        else r) <$> tbl.

(** ** IMAP listener ([services/imapService.ts])

    The class [ImapListener] as a transition system.  Its state is the
    private fields of the object together with the work it has handed to
    the event loop; an [Event] is one callback of the connection or of a
    timer, and a transition returns the notifications it passes to the
    callbacks [onEmail] and [onTimeout] given to the constructor.  Every
    handler of the class calls a callback as its last statement, so what
    the callback does to the listener comes after the transition. *)

Module Imap.

Record ImapConfig := {
  host : string;
  port : Z;
  secure : bool;
  password : string;
  email : string;
  filterFromEmail : option string;
}.

Record IncomingEmail := {
  messageId : string;
  from : string;
  to : string;
  subject : string;
  body : string;
  inReplyTo : option string;
  date : Z;
}.

(** What [parseMessage] reads in the result of [simpleParser]; [p_from]
    and [p_to] are the addresses the optional chains arrive at. *)
Record ParsedMail := {
  p_messageId : option string;
  p_from : option string;
  p_to : option string;
  p_subject : option string;
  p_text : option string;
  p_inReplyTo : option string;
  p_date : option Z;
}.

Record ImapListener := mk {
  config : ImapConfig;
  hasOnTimeout : bool;        (* an [onTimeout] callback was given *)
  isConnected : bool;
  isDestroyed : bool;
  pollTimer : bool;           (* the polling interval is set *)
  waitTimer : bool;           (* a wait timeout is pending *)
  reconnectAttempts : Z;
  opening : nat;              (* [openBox] calls awaiting their callback *)
  mailHandlers : nat;         (* handlers of [mail] registered so far *)
  initialChecks : nat;        (* pending 2 s timers of [openInbox] *)
  reconnectTimers : nat;      (* pending timers of [safeReconnect] *)
  searches : nat;             (* searches awaiting their callback *)
  parsing : list (option ParsedMail);
                              (* messages in [parseMessage]; [None] when
                                 [simpleParser] rejects *)
}.

Inductive Notification :=
| onEmail (e : IncomingEmail)
| onTimeout.

Inductive Event :=
| Ready                       (* [ready] *)
| Failure                     (* [error] *)
| End                         (* [end] *)
| Close                       (* [close] *)
| BoxOpened (ok : bool)       (* the callback of [openBox] *)
| Mail                        (* [mail] *)
| InitialCheck                (* the 2 s timer of [openInbox] *)
| PollTick                    (* the 30 s interval *)
| WaitTimeout                 (* the 10 min timer of [startWaitTimeout] *)
| ReconnectTimer (ok : bool)  (* the timer of [safeReconnect]; [ok] when
                                 [imap.connect()] does not throw *)
| SearchDone (found : option (list (option ParsedMail)))
                              (* the callback of [search]: an error, or the
                                 messages the fetch then yields *)
| ParseDone (i : nat).        (* [simpleParser] settles for the [i]-th
                                 message in flight *)

Definition MAX_RECONNECT_ATTEMPTS : Z := 5.
Definition WAIT_TIMEOUT_MS : Z := 10 * 60 * 1000.

Definition new (config : ImapConfig) (hasOnTimeout : bool) : ImapListener :=
  mk config hasOnTimeout false false false false 0 0 0 0 0 0 [].

Definition set_connection (connected destroyed : bool) (l : ImapListener) :=
  mk (config l) (hasOnTimeout l) connected destroyed (pollTimer l) (waitTimer l)
     (reconnectAttempts l) (opening l) (mailHandlers l) (initialChecks l)
     (reconnectTimers l) (searches l) (parsing l).

Definition set_timers (poll wait : bool) (l : ImapListener) :=
  mk (config l) (hasOnTimeout l) (isConnected l) (isDestroyed l) poll wait
     (reconnectAttempts l) (opening l) (mailHandlers l) (initialChecks l)
     (reconnectTimers l) (searches l) (parsing l).

Definition set_reconnect (attempts : Z) (timers : nat) (l : ImapListener) :=
  mk (config l) (hasOnTimeout l) (isConnected l) (isDestroyed l) (pollTimer l)
     (waitTimer l) attempts (opening l) (mailHandlers l) (initialChecks l)
     timers (searches l) (parsing l).

Definition set_inbox (opening mailHandlers initialChecks : nat) (l : ImapListener) :=
  mk (config l) (hasOnTimeout l) (isConnected l) (isDestroyed l) (pollTimer l)
     (waitTimer l) (reconnectAttempts l) opening mailHandlers initialChecks
     (reconnectTimers l) (searches l) (parsing l).

Definition set_fetch (searches : nat) (parsing : list (option ParsedMail))
    (l : ImapListener) :=
  mk (config l) (hasOnTimeout l) (isConnected l) (isDestroyed l) (pollTimer l)
     (waitTimer l) (reconnectAttempts l) (opening l) (mailHandlers l)
     (initialChecks l) (reconnectTimers l) searches parsing.

Definition clearWaitTimeout (l : ImapListener) := set_timers (pollTimer l) false l.
Definition stopPolling (l : ImapListener) := set_timers false (waitTimer l) l.
Definition startPolling (l : ImapListener) :=
  set_timers true (waitTimer (stopPolling l)) (stopPolling l).

Definition startWaitTimeout (l : ImapListener) :=
  let l := clearWaitTimeout l in
  if hasOnTimeout l then set_timers (pollTimer l) true l else l.

(** [fetchNewMessages] starts a search for [UNSEEN] (and [FROM] the
    filter address); the server's answer is the event [SearchDone]. *)
Definition fetchNewMessages (l : ImapListener) :=
  set_fetch (S (searches l)) (parsing l) l.

Definition openInbox (l : ImapListener) :=
  set_inbox (S (opening l)) (mailHandlers l) (initialChecks l) l.

Definition timeout_notification (l : ImapListener) : list Notification :=
  if hasOnTimeout l then [onTimeout] else [].

Definition safeReconnect (l : ImapListener) : ImapListener * list Notification :=
  if isDestroyed l then (l, [])
  else
    let l := set_reconnect (reconnectAttempts l + 1) (reconnectTimers l) l in
    if (MAX_RECONNECT_ATTEMPTS <? reconnectAttempts l)%Z
    then (l, timeout_notification l)
    else (set_reconnect (reconnectAttempts l) (S (reconnectTimers l)) l, []).

(** [connect]; [ok] when [imap.connect()] does not throw. *)
Definition connect (ok : bool) (l : ImapListener) : ImapListener * list Notification :=
  if isDestroyed l then (l, [])
  else if ok then (l, []) else safeReconnect l.

(** [disconnect]; when the connection is up it is asked to end, and
    reports this later by the events [End] and [Close]. *)
Definition disconnect (l : ImapListener) : ImapListener :=
  clearWaitTimeout (stopPolling (set_connection false true l)).

Definition parseMessage (now : Z) (rawEmail : option ParsedMail) : list Notification :=
  match rawEmail with
  | Some parsed =>
      [onEmail
         {| messageId := default EmptyString (or_null (p_messageId parsed));
            from := default EmptyString (or_null (p_from parsed));
            to := default EmptyString (or_null (p_to parsed));
            subject := default EmptyString (or_null (p_subject parsed));
            body := default EmptyString (or_null (p_text parsed));
            inReplyTo := or_null (p_inReplyTo parsed);
            date := default now (p_date parsed) |}]
  | None => []
  end.

Definition guarded_fetch (l : ImapListener) : ImapListener :=
  if negb (isDestroyed l) && isConnected l then fetchNewMessages l else l.

(** One callback of the connection or of a timer; an event whose timer
    or request is not pending changes nothing. *)
Definition step (now : Z) (ev : Event) (l : ImapListener)
    : ImapListener * list Notification :=
  match ev with
  | Ready =>
      (openInbox (set_reconnect 0 (reconnectTimers l)
                    (set_connection true (isDestroyed l) l)), [])
  | Failure =>
      if isDestroyed l then (l, []) else safeReconnect l
  | End | Close =>
      let l := set_connection false (isDestroyed l) l in
      if isDestroyed l then (l, []) else safeReconnect l
  | BoxOpened ok =>
      match opening l with
      | O => (l, [])
      | S n =>
          if ok
          then (startWaitTimeout (startPolling
                  (set_inbox n (S (mailHandlers l)) (S (initialChecks l)) l)), [])
          else (set_inbox n (mailHandlers l) (initialChecks l) l, [])
      end
  | Mail =>
      (Nat.iter (mailHandlers l) fetchNewMessages l, [])
  | InitialCheck =>
      match initialChecks l with
      | O => (l, [])
      | S n => (guarded_fetch (set_inbox (opening l) (mailHandlers l) n l), [])
      end
  | PollTick =>
      if pollTimer l then (guarded_fetch l, []) else (l, [])
  | WaitTimeout =>
      if waitTimer l
      then
        let l := set_timers (pollTimer l) false l in
        if isDestroyed l then (l, []) else (l, timeout_notification l)
      else (l, [])
  | ReconnectTimer ok =>
      match reconnectTimers l with
      | O => (l, [])
      | S n =>
          let l := set_reconnect (reconnectAttempts l) n l in
          if isDestroyed l then (l, []) else connect ok l
      end
  | SearchDone found =>
      match searches l with
      | O => (l, [])
      | S n =>
          match found with
          | None => (set_fetch n (parsing l) l, [])
          | Some msgs => (set_fetch n (parsing l ++ msgs) l, [])
          end
      end
  | ParseDone i =>
      match parsing l !! i with
      | None => (l, [])
      | Some rawEmail =>
          (set_fetch (searches l) (delete i (parsing l)) l, parseMessage now rawEmail)
      end
  end.

(** What the owner of a listener and its environment do to it. *)
Inductive Action :=
| Does (ev : Event)
| CallConnect (ok : bool)
| CallDisconnect.

Definition act (now : Z) (a : Action) (l : ImapListener)
    : ImapListener * list Notification :=
  match a with
  | Does ev => step now ev l
  | CallConnect ok => connect ok l
  | CallDisconnect => (disconnect l, [])
  end.

(** A run of the listener and the notifications it gave, in order. *)
Fixpoint run (now : Z) (acts : list Action) (l : ImapListener)
    : ImapListener * list Notification :=
  match acts with
  | [] => (l, [])
  | a :: acts' =>
      let '(l1, ns1) := act now a l in
      let '(l2, ns2) := run now acts' l1 in
      (l2, ns1 ++ ns2)
  end.

Definition is_timeout (n : Notification) : bool :=
  match n with onTimeout => true | onEmail _ => false end.

Definition timeouts (ns : list Notification) : nat :=
  length (filter (λ n, is_timeout n = true) ns).

(** A run in which the owner answers every [onTimeout] by disconnecting
    the listener at once, as [skipToNextLead] does. *)
Fixpoint run_skipping (now : Z) (evs : list Event) (l : ImapListener)
    : ImapListener * list Notification :=
  match evs with
  | [] => (l, [])
  | ev :: evs' =>
      let '(l1, ns1) := step now ev l in
      let l1 := if decide (timeouts ns1 = 0) then l1 else disconnect l1 in
      let '(l2, ns2) := run_skipping now evs' l1 in
      (l2, ns1 ++ ns2)
  end.

End Imap.

(** ** Address comparison

    [s.toLowerCase().replace(/[<>\s]/g, '')] on texts of ASCII characters:
    the letters A to Z are lowered, and the angle brackets, the space and
    the characters 9 to 13 are removed.  On other texts the source also
    lowers letters and removes blanks outside ASCII, which [normalize]
    leaves as they are; the statements that depend on two texts being
    told apart are made for [ascii_only] texts. *)

Definition lower (c : ascii) : ascii :=
  let n := nat_of_ascii c in
  if (65 <=? n)%nat && (n <=? 90)%nat then ascii_of_nat (n + 32) else c.

Definition stripped (c : ascii) : bool :=
  let n := nat_of_ascii c in
  (n =? 60)%nat || (n =? 62)%nat || (n =? 32)%nat || ((9 <=? n)%nat && (n <=? 13)%nat).

Fixpoint normalize (s : string) : string :=
  match s with
  | EmptyString => EmptyString
  | String c s' =>
      if stripped (lower c) then normalize s' else String (lower c) (normalize s')
  end.

Fixpoint ascii_only (s : string) : bool :=
  match s with
  | EmptyString => true
  | String c s' => (nat_of_ascii c <? 128)%nat && ascii_only s'
  end.

(** ** Warm-up orchestrator ([services/warmupOrchestrator.ts])

    The process memory holds the registry [activeSessions], the
    [ActiveSession] objects it and the closures refer to, the listeners
    and the pending timers; objects are referred to by address, so that a
    closure and the registry share the object they both hold.  Each
    function of the source is one computation in the monad [M]; it runs to
    completion, that is, the suspension points inside one call are not
    interleaved with other calls.  The database answers every query: a
    query that is rejected (a lost connection, say) is not part of the
    model, so that the errors of a computation are those the source
    throws itself and those of decryption, of the text generator and of
    the SMTP server. *)

Module Orchestrator.

Definition addr := nat.

Record GroqEmailResponse := {
  g_subject : string;
  g_body : string;
}.

Record ActiveSession := mkActive {
  session : option WarmupSession.t;
  domainAccount : DomainAccount.t;
  leads : list LeadAccount.t;
  domainImapListener : option addr;
  leadImapListener : option addr;
  isPaused : bool;
  timers : list nat;
}.

(** The closures given to [new ImapListener], with what they capture. *)
Inductive EmailCallback :=
| leadOnEmail (domainAccountId : string) (lead : LeadAccount.t)
    (originalEmail : GroqEmailResponse) (active : addr)
| domainOnEmail (domainAccountId : string) (expectedFromEmail : string)
    (active : addr).

Inductive TimeoutCallback :=
| leadOnTimeout (domainAccountId : string) (lead : LeadAccount.t) (active : addr)
| domainOnTimeout (domainAccountId : string) (expectedFromEmail : string)
    (active : addr).

Record Listener := mkListener {
  imap : Imap.ImapListener;
  emailCallback : EmailCallback;
  timeoutCallback : TimeoutCallback;
}.

(** The closures given to [setTimeout], and the flow that [startWarmup]
    starts without waiting for it.  The call [processNextLead] of that
    flow tests the registry and reads the session in the turn of
    [startWarmup], where the test passes; what follows its first
    suspension point is a turn of its own, [firstLead], for the object and
    the session read.  No object holds it in its [timers], so that no
    pause or stop clears it. *)
Inductive Task :=
| replyTimer (domainAccountId : string) (lead : LeadAccount.t)
    (incomingEmail : Imap.IncomingEmail) (originalEmail : GroqEmailResponse)
| nextLead (domainAccountId : string)
| firstLead (domainAccountId : string) (active : addr)
    (session : option WarmupSession.t).

Record World := mkWorld {
  activeSessions : gmap string addr;
  objects : gmap addr ActiveSession;
  imapListeners : gmap addr Listener;
  timeouts : gmap nat (Z * Task);      (* pending, with their delay *)
  warmup_sessions : list WarmupSession.t;
  mail_logs : list MailLog.t;
  domain_accounts : list DomainAccount.t;
  lead_accounts : list LeadAccount.t;
}.

(** What one call draws from outside. *)
Record Env := {
  now : Z;                    (* [NOW()], [new Date()] *)
  uuid : string;              (* [uuidv4()] *)
  session_uuid : string;      (* [gen_random_uuid()] of a session row *)
  log_uuid : string;          (* [gen_random_uuid()] of a mail log row *)
  generated : Error + GroqEmailResponse;   (* the text generator *)
  sendMail : Smtp.TransportOptions → Smtp.SendMailOptions → string + list string;
  drawn : Z;                  (* [Math.floor(Math.random() * span)] *)
  connects : bool;            (* [imap.connect()] does not throw *)
}.

Definition minDelayMs : Z := 3 * 60 * 1000.
Definition maxDelayMs : Z := 5 * 60 * 1000.

(** *** The monad: state, and exceptions that keep the state *)

Definition M (A : Type) : Type := World → (Error + A) * World.

Definition ret {A} (x : A) : M A := λ w, (inr x, w).

Definition bind {A B} (m : M A) (k : A → M B) : M B :=
  λ w, match m w with
       | (inr x, w') => k x w'
       | (inl e, w') => (inl e, w')
       end.

Definition throw {A} (e : Error) : M A := λ w, (inl e, w).

Definition catch {A} (m : M A) (handler : Error → M A) : M A :=
  λ w, match m w with
       | (inl e, w') => handler e w'
       | r => r
       end.

Definition gets {A} (f : World → A) : M A := λ w, (inr (f w), w).

Definition modify (f : World → World) : M unit := λ w, (inr tt, f w).

Definition lift {A} (r : Error + A) : M A := λ w, (r, w).

(** A property read on a value that may be null. *)
Definition deref {A} (o : option A) : M A :=
  match o with
  | Some x => ret x
  | None => throw TypeError
  end.

#[global] Instance M_ret : MRet M := @ret.
#[global] Instance M_bind : MBind M := λ A B k m, bind m k.

(** *** Memory *)

Definition on_activeSessions (f : gmap string addr → gmap string addr) (w : World) :=
  mkWorld (f (activeSessions w)) (objects w) (imapListeners w) (timeouts w)
    (warmup_sessions w) (mail_logs w) (domain_accounts w) (lead_accounts w).

Definition on_objects (f : gmap addr ActiveSession → gmap addr ActiveSession)
    (w : World) :=
  mkWorld (activeSessions w) (f (objects w)) (imapListeners w) (timeouts w)
    (warmup_sessions w) (mail_logs w) (domain_accounts w) (lead_accounts w).

Definition on_imapListeners (f : gmap addr Listener → gmap addr Listener)
    (w : World) :=
  mkWorld (activeSessions w) (objects w) (f (imapListeners w)) (timeouts w)
    (warmup_sessions w) (mail_logs w) (domain_accounts w) (lead_accounts w).

Definition on_timeouts (f : gmap nat (Z * Task) → gmap nat (Z * Task)) (w : World) :=
  mkWorld (activeSessions w) (objects w) (imapListeners w) (f (timeouts w))
    (warmup_sessions w) (mail_logs w) (domain_accounts w) (lead_accounts w).

Definition with_warmup_sessions (tbl : list WarmupSession.t) (w : World) :=
  mkWorld (activeSessions w) (objects w) (imapListeners w) (timeouts w)
    tbl (mail_logs w) (domain_accounts w) (lead_accounts w).

Definition with_mail_logs (tbl : list MailLog.t) (w : World) :=
  mkWorld (activeSessions w) (objects w) (imapListeners w) (timeouts w)
    (warmup_sessions w) tbl (domain_accounts w) (lead_accounts w).

Definition with_domain_accounts (tbl : list DomainAccount.t) (w : World) :=
  mkWorld (activeSessions w) (objects w) (imapListeners w) (timeouts w)
    (warmup_sessions w) (mail_logs w) tbl (lead_accounts w).

Definition with_session (s : option WarmupSession.t) (a : ActiveSession) :=
  mkActive s (domainAccount a) (leads a) (domainImapListener a)
    (leadImapListener a) (isPaused a) (timers a).

Definition with_domainImapListener (l : option addr) (a : ActiveSession) :=
  mkActive (session a) (domainAccount a) (leads a) l
    (leadImapListener a) (isPaused a) (timers a).

Definition with_leadImapListener (l : option addr) (a : ActiveSession) :=
  mkActive (session a) (domainAccount a) (leads a) (domainImapListener a)
    l (isPaused a) (timers a).

Definition with_isPaused (b : bool) (a : ActiveSession) :=
  mkActive (session a) (domainAccount a) (leads a) (domainImapListener a)
    (leadImapListener a) b (timers a).

Definition with_timers (ts : list nat) (a : ActiveSession) :=
  mkActive (session a) (domainAccount a) (leads a) (domainImapListener a)
    (leadImapListener a) (isPaused a) ts.

(** [activeSessions.get(domainAccountId)] *)
Definition registered (domainAccountId : string) : M (option addr) :=
  gets (λ w, activeSessions w !! domainAccountId).

(** The object at an address; every address the program holds is that
    of an object, so that the error is not met. *)
Definition read (a : addr) : M ActiveSession :=
  o ← gets (λ w, objects w !! a); deref o.

Definition update (a : addr) (f : ActiveSession → ActiveSession) : M unit :=
  modify (on_objects (alter f a)).

(** [new ImapListener(config, onEmail, onTimeout)] *)
Definition newImapListener (config : Imap.ImapConfig) (onEmail : EmailCallback)
    (onTimeout : TimeoutCallback) : M addr :=
  l ← gets (λ w, fresh (dom (imapListeners w)));
  modify (on_imapListeners
            (insert l (mkListener (Imap.new config true) onEmail onTimeout)));;
  ret l.

(** [listener.disconnect()] *)
Definition disconnect (l : addr) : M unit :=
  modify (on_imapListeners
            (alter (λ L, mkListener (Imap.disconnect (imap L))
                           (emailCallback L) (timeoutCallback L)) l)).

(** [listener.connect()]; the orchestrator calls it on a listener it has
    just made, which then gives no notification. *)
Definition connect (ok : bool) (l : addr) : M unit :=
  modify (on_imapListeners
            (alter (λ L, mkListener (fst (Imap.connect ok (imap L)))
                           (emailCallback L) (timeoutCallback L)) l)).

(** The timers the objects hold in their [timers] arrays, pending or
    not. *)
Definition held (w : World) : gset nat :=
  ⋃ ((λ o, list_to_set (timers o)) <$> (map_to_list (objects w)).*2).

(** [setTimeout] returns a timer of its own: none that is pending and none
    that an object still holds, so that [clearTimeout] on a timer an
    object holds never clears another. *)
Definition newTimer (w : World) : nat := fresh (dom (timeouts w) ∪ held w).

Definition setTimeout (task : Task) (delay : Z) : M nat :=
  t ← gets newTimer;
  modify (on_timeouts (insert t (delay, task)));;
  ret t.

Definition clearTimeout (t : nat) : M unit :=
  modify (on_timeouts (delete t)).

(** [for (const timer of timers) clearTimeout(timer)] *)
Fixpoint clearTimeouts (ts : list nat) : M unit :=
  match ts with
  | [] => ret tt
  | t :: ts' => clearTimeout t;; clearTimeouts ts'
  end.

(** *** Database *)

Definition sessionRepo_updateStatus (env : Env) (session_id : string)
    (st : SessionStatus) (extras : SessionRepo.Extras)
    : M (option WarmupSession.t) :=
  λ w, let '(row, tbl) :=
         SessionRepo.updateStatus (now env) session_id st extras (warmup_sessions w) in
       (inr row, with_warmup_sessions tbl w).

Definition sessionRepo_create (env : Env) (domainAccountId : string)
    : M (option WarmupSession.t) :=
  λ w, let '(row, tbl) :=
         SessionRepo.create (now env) (session_uuid env) domainAccountId
           (warmup_sessions w) in
       (inr row, with_warmup_sessions tbl w).

Definition mailLogRepo_create (env : Env) (data : MailLogRepo.Data) : M MailLog.t :=
  λ w, let '(row, tbl) :=
         MailLogRepo.create (now env) (log_uuid env) data (mail_logs w) in
       (inr row, with_mail_logs tbl w).

Definition domainAccountRepo_updateStatus (env : Env) (account_id : string)
    (st : DomainStatus) : M unit :=
  modify (λ w, with_domain_accounts
                 (updateDomainStatus (now env) account_id st (domain_accounts w)) w).

(** [sendEmail] of the SMTP service; its error is rethrown. *)
Definition sendEmail (env : Env) (smtpConfig : Smtp.SmtpConfig)
    (params : Smtp.SendEmailParams) : M Smtp.SendEmailResult :=
  match Smtp.sendEmail (sendMail env) smtpConfig params (uuid env) with
  | inl m => throw (External m)
  | inr result => ret result
  end.

(** [array[i]] for a JavaScript number that holds an integer. *)
Definition item {A} (l : list A) (i : Z) : option A :=
  if (i <? 0)%Z then None else l !! Z.to_nat i.

(** *** The flow *)

Definition smtpOfDomain (a : DomainAccount.t) : Smtp.SmtpConfig :=
  {| Smtp.host := DomainAccount.smtp_host a;
     Smtp.port := DomainAccount.smtp_port a;
     Smtp.secure := DomainAccount.smtp_secure a;
     Smtp.password := DomainAccount.smtp_password a;
     Smtp.email := DomainAccount.email a;
     Smtp.senderName := DomainAccount.sender_name a |}.

Definition smtpOfLead (a : LeadAccount.t) : Smtp.SmtpConfig :=
  {| Smtp.host := LeadAccount.smtp_host a;
     Smtp.port := LeadAccount.smtp_port a;
     Smtp.secure := LeadAccount.smtp_secure a;
     Smtp.password := LeadAccount.smtp_password a;
     Smtp.email := LeadAccount.email a;
     Smtp.senderName := LeadAccount.sender_name a |}.

(** [if (active.leadImapListener) { disconnect(); = null }] *)
Definition dropLeadListener (a : addr) : M unit :=
  active ← read a;
  match leadImapListener active with
  | Some l => disconnect l;; update a (with_leadImapListener None)
  | None => ret tt
  end.

Definition dropDomainListener (a : addr) : M unit :=
  active ← read a;
  match domainImapListener active with
  | Some l => disconnect l;; update a (with_domainImapListener None)
  | None => ret tt
  end.

Definition cleanupSession (domainAccountId : string) : M unit :=
  r ← registered domainAccountId;
  match r with
  | None => ret tt
  | Some a =>
      active ← read a;
      match leadImapListener active with
      | Some l => disconnect l
      | None => ret tt
      end;;
      match domainImapListener active with
      | Some l => disconnect l
      | None => ret tt
      end;;
      clearTimeouts (timers active);;
      modify (on_activeSessions (delete domainAccountId))
  end.

Definition completeSession (env : Env) (domainAccountId : string) : M unit :=
  r ← registered domainAccountId;
  match r with
  | None => ret tt
  | Some a =>
      active ← read a;
      session ← deref (session active);
      sessionRepo_updateStatus env (WarmupSession.id session) completed
        {| SessionRepo.x_current_lead_index := None;
           SessionRepo.x_last_message_id := None;
           SessionRepo.x_error_message := None;
           SessionRepo.x_completed_at := Some (Some (now env)) |};;
      domainAccountRepo_updateStatus env domainAccountId idle;;
      cleanupSession domainAccountId
  end.

Definition failSession (env : Env) (domainAccountId errorMessage : string) : M unit :=
  r ← registered domainAccountId;
  match r with
  | None => ret tt
  | Some a =>
      active ← read a;
      session ← deref (session active);
      sessionRepo_updateStatus env (WarmupSession.id session) failed
        {| SessionRepo.x_current_lead_index := None;
           SessionRepo.x_last_message_id := None;
           SessionRepo.x_error_message := Some (Some errorMessage);
           SessionRepo.x_completed_at := None |};;
      domainAccountRepo_updateStatus env domainAccountId idle;;
      cleanupSession domainAccountId
  end.

Definition setupLeadAutoReply (env : Env) (domainAccountId : string)
    (lead : LeadAccount.t) (originalMessageId : string)
    (originalEmail : GroqEmailResponse) : M unit :=
  r ← registered domainAccountId;
  match r with
  | None => ret tt
  | Some a =>
      dropLeadListener a;;
      active ← read a;
      leadListener ← newImapListener
        {| Imap.host := LeadAccount.imap_host lead;
           Imap.port := LeadAccount.imap_port lead;
           Imap.secure := LeadAccount.imap_secure lead;
           Imap.password := LeadAccount.imap_password lead;
           Imap.email := LeadAccount.email lead;
           Imap.filterFromEmail := Some (DomainAccount.email (domainAccount active)) |}
        (leadOnEmail domainAccountId lead originalEmail a)
        (leadOnTimeout domainAccountId lead a);
      update a (with_leadImapListener (Some leadListener));;
      connect (connects env) leadListener
  end.

Definition setupDomainReplyListener (env : Env) (domainAccountId : string)
    (expectedFromEmail expectedInReplyTo : string) : M unit :=
  r ← registered domainAccountId;
  match r with
  | None => ret tt
  | Some a =>
      dropDomainListener a;;
      active ← read a;
      domainListener ← newImapListener
        {| Imap.host := DomainAccount.imap_host (domainAccount active);
           Imap.port := DomainAccount.imap_port (domainAccount active);
           Imap.secure := DomainAccount.imap_secure (domainAccount active);
           Imap.password := DomainAccount.imap_password (domainAccount active);
           Imap.email := DomainAccount.email (domainAccount active);
           Imap.filterFromEmail := Some expectedFromEmail |}
        (domainOnEmail domainAccountId expectedFromEmail a)
        (domainOnTimeout domainAccountId expectedFromEmail a);
      update a (with_domainImapListener (Some domainListener));;
      connect (connects env) domainListener
  end.

(** [processNextLead] after its test of the registry, for the object at
    [a] as it was read there. *)
Definition processLead (env : Env) (domainAccountId : string) (a : addr)
    (active : ActiveSession) : M unit :=
  session ← deref (session active);
  let leadIndex := WarmupSession.current_lead_index session in
  if (Z.of_nat (length (leads active)) <=? leadIndex)%Z
  then completeSession env domainAccountId
  else
    currentLead ← deref (item (leads active) leadIndex);
    emailContent ← lift (generated env);
    sendResult ← sendEmail env (smtpOfDomain (domainAccount active))
      {| Smtp.to := LeadAccount.email currentLead;
         Smtp.subject := g_subject emailContent;
         Smtp.body := g_body emailContent;
         Smtp.inReplyTo := None;
         Smtp.references := None |};
    mailLogRepo_create env
      {| MailLogRepo.d_session_id := WarmupSession.id session;
         MailLogRepo.d_from_email := DomainAccount.email (domainAccount active);
         MailLogRepo.d_to_email := LeadAccount.email currentLead;
         MailLogRepo.d_subject := g_subject emailContent;
         MailLogRepo.d_body := Some (g_body emailContent);
         MailLogRepo.d_message_id := Some (Smtp.messageId sendResult);
         MailLogRepo.d_in_reply_to := None;
         MailLogRepo.d_direction := sent;
         MailLogRepo.d_lead_index := Some leadIndex |};;
    updated ← sessionRepo_updateStatus env (WarmupSession.id session) waiting_reply
      {| SessionRepo.x_current_lead_index := Some leadIndex;
         SessionRepo.x_last_message_id := Some (Smtp.messageId sendResult);
         SessionRepo.x_error_message := None;
         SessionRepo.x_completed_at := None |};
    update a (with_session updated);;
    setupLeadAutoReply env domainAccountId currentLead
      (Smtp.messageId sendResult) emailContent.

Definition processNextLead (env : Env) (domainAccountId : string) : M unit :=
  r ← registered domainAccountId;
  match r with
  | None => ret tt
  | Some a =>
      active ← read a;
      if isPaused active then ret tt
      else processLead env domainAccountId a active
  end.

Definition sendLeadReply (env : Env) (domainAccountId : string)
    (lead : LeadAccount.t) (incomingEmail : Imap.IncomingEmail)
    (originalEmail : GroqEmailResponse) : M unit :=
  r ← registered domainAccountId;
  match r with
  | None => ret tt
  | Some a =>
      active ← read a;
      if isPaused active then ret tt
      else
        replyContent ← lift (generated env);
        sendResult ← sendEmail env (smtpOfLead lead)
          {| Smtp.to := DomainAccount.email (domainAccount active);
             Smtp.subject := g_subject replyContent;
             Smtp.body := g_body replyContent;
             Smtp.inReplyTo := Some (Imap.messageId incomingEmail);
             Smtp.references := Some (Imap.messageId incomingEmail) |};
        session ← deref (session active);
        mailLogRepo_create env
          {| MailLogRepo.d_session_id := WarmupSession.id session;
             MailLogRepo.d_from_email := LeadAccount.email lead;
             MailLogRepo.d_to_email := DomainAccount.email (domainAccount active);
             MailLogRepo.d_subject := g_subject replyContent;
             MailLogRepo.d_body := Some (g_body replyContent);
             MailLogRepo.d_message_id := Some (Smtp.messageId sendResult);
             MailLogRepo.d_in_reply_to := Some (Imap.messageId incomingEmail);
             MailLogRepo.d_direction := replied;
             MailLogRepo.d_lead_index := Some (WarmupSession.current_lead_index session) |};;
        setupDomainReplyListener env domainAccountId (LeadAccount.email lead)
          (Smtp.messageId sendResult)
  end.

Definition only_index (i : Z) : SessionRepo.Extras :=
  {| SessionRepo.x_current_lead_index := Some i;
     SessionRepo.x_last_message_id := None;
     SessionRepo.x_error_message := None;
     SessionRepo.x_completed_at := None |}.

Definition skipToNextLead (env : Env) (domainAccountId reason : string) : M unit :=
  r ← registered domainAccountId;
  match r with
  | None => ret tt
  | Some a =>
      active ← read a;
      if isPaused active then ret tt
      else
        dropLeadListener a;;
        dropDomainListener a;;
        session ← deref (session active);
        let nextIndex := (WarmupSession.current_lead_index session + 1)%Z in
        updated ← sessionRepo_updateStatus env (WarmupSession.id session) sending
          (only_index nextIndex);
        update a (with_session updated);;
        if (Z.of_nat (length (leads active)) <=? nextIndex)%Z
        then completeSession env domainAccountId
        else
          let delay := 10000%Z in
          timer ← setTimeout (nextLead domainAccountId) delay;
          update a (λ o, with_timers (timers o ++ [timer]) o)
  end.

(** The callback [onEmail] of the listener on the lead's mailbox. *)
Definition leadOnEmail_run (env : Env) (domainAccountId : string)
    (lead : LeadAccount.t) (originalEmail : GroqEmailResponse) (a : addr)
    (incomingEmail : Imap.IncomingEmail) : M unit :=
  catch
    (active ← read a;
     let fromAddr := normalize (Imap.from incomingEmail) in
     let domainAddr := normalize (DomainAccount.email (domainAccount active)) in
     if negb (String.eqb fromAddr domainAddr) then ret tt
     else
       session ← deref (session active);
       mailLogRepo_create env
         {| MailLogRepo.d_session_id := WarmupSession.id session;
            MailLogRepo.d_from_email := Imap.from incomingEmail;
            MailLogRepo.d_to_email := LeadAccount.email lead;
            MailLogRepo.d_subject := Imap.subject incomingEmail;
            MailLogRepo.d_body := Some (Imap.body incomingEmail);
            MailLogRepo.d_message_id := Some (Imap.messageId incomingEmail);
            MailLogRepo.d_in_reply_to := None;
            MailLogRepo.d_direction := received;
            MailLogRepo.d_lead_index := Some (WarmupSession.current_lead_index session) |};;
       dropLeadListener a;;
       let replyDelay := (drawn env + 180000)%Z in
       replyTimer ← setTimeout
         (replyTimer domainAccountId lead incomingEmail originalEmail) replyDelay;
       update a (λ o, with_timers (timers o ++ [replyTimer]) o))
    (λ _, ret tt).

(** The callback [onEmail] of the listener on the domain's mailbox. *)
Definition domainOnEmail_run (env : Env) (domainAccountId expectedFromEmail : string)
    (a : addr) (incomingEmail : Imap.IncomingEmail) : M unit :=
  catch
    (active ← read a;
     let fromAddr := normalize (Imap.from incomingEmail) in
     let expectedAddr := normalize expectedFromEmail in
     if negb (String.eqb fromAddr expectedAddr) then ret tt
     else
       session ← deref (session active);
       mailLogRepo_create env
         {| MailLogRepo.d_session_id := WarmupSession.id session;
            MailLogRepo.d_from_email := Imap.from incomingEmail;
            MailLogRepo.d_to_email := DomainAccount.email (domainAccount active);
            MailLogRepo.d_subject := Imap.subject incomingEmail;
            MailLogRepo.d_body := Some (Imap.body incomingEmail);
            MailLogRepo.d_message_id := Some (Imap.messageId incomingEmail);
            MailLogRepo.d_in_reply_to := or_null (Imap.inReplyTo incomingEmail);
            MailLogRepo.d_direction := received;
            MailLogRepo.d_lead_index := Some (WarmupSession.current_lead_index session) |};;
       dropDomainListener a;;
       let nextIndex := (WarmupSession.current_lead_index session + 1)%Z in
       updated ← sessionRepo_updateStatus env (WarmupSession.id session) sending
         (only_index nextIndex);
       update a (with_session updated);;
       if (Z.of_nat (length (leads active)) <=? nextIndex)%Z
       then completeSession env domainAccountId
       else
         let delay := (drawn env + minDelayMs)%Z in
         timer ← setTimeout (nextLead domainAccountId) delay;
         update a (λ o, with_timers (timers o ++ [timer]) o))
    (λ _, ret tt).

(** The callbacks [onTimeout]: they read the session of the object they
    captured for the log, then skip. *)
Definition onTimeout_run (env : Env) (cb : TimeoutCallback) : M unit :=
  match cb with
  | leadOnTimeout domainAccountId lead a =>
      active ← read a;
      deref (session active);;
      skipToNextLead env domainAccountId
        ("Email not delivered to " +:+ LeadAccount.email lead +:+ " within 10 minutes")
  | domainOnTimeout domainAccountId expectedFromEmail a =>
      active ← read a;
      deref (session active);;
      skipToNextLead env domainAccountId
        ("Reply from " +:+ expectedFromEmail +:+ " not received within 10 minutes")
  end.

Definition onEmail_run (env : Env) (cb : EmailCallback)
    (incomingEmail : Imap.IncomingEmail) : M unit :=
  match cb with
  | leadOnEmail domainAccountId lead originalEmail a =>
      leadOnEmail_run env domainAccountId lead originalEmail a incomingEmail
  | domainOnEmail domainAccountId expectedFromEmail a =>
      domainOnEmail_run env domainAccountId expectedFromEmail a incomingEmail
  end.

(** The body of a timer. *)
Definition task_run (env : Env) (task : Task) : M unit :=
  match task with
  | replyTimer domainAccountId lead incomingEmail originalEmail =>
      r ← registered domainAccountId;
      match r with
      | None => ret tt
      | Some a =>
          currentActive ← read a;
          if isPaused currentActive then ret tt
          else sendLeadReply env domainAccountId lead incomingEmail originalEmail
      end
  | nextLead domainAccountId =>
      catch (processNextLead env domainAccountId)
            (λ error, failSession env domainAccountId (message error))
  | firstLead domainAccountId a session =>
      catch (active ← read a;
             processLead env domainAccountId a (with_session session active))
            (λ error, failSession env domainAccountId (message error))
  end.

(** *** The control facade *)

Definition pauseWarmup (env : Env) (domainAccountId : string)
    : M (option WarmupSession.t) :=
  r ← registered domainAccountId;
  match r with
  | None => throw NoActiveSession
  | Some a =>
      update a (with_isPaused true);;
      dropLeadListener a;;
      dropDomainListener a;;
      active ← read a;
      clearTimeouts (timers active);;
      update a (with_timers []);;
      current ← deref (session active);
      session ← sessionRepo_updateStatus env (WarmupSession.id current) paused
        SessionRepo.no_extras;
      domainAccountRepo_updateStatus env domainAccountId domain_paused;;
      modify (on_activeSessions (delete domainAccountId));;
      ret session
  end.

Definition stopWarmup (env : Env) (domainAccountId : string) : M unit :=
  r ← registered domainAccountId;
  match r with
  | None =>
      session ← gets (λ w, SessionRepo.findActiveToday (now env) domainAccountId
                             (warmup_sessions w));
      match session with
      | Some session =>
          sessionRepo_updateStatus env (WarmupSession.id session) failed
            {| SessionRepo.x_current_lead_index := None;
               SessionRepo.x_last_message_id := None;
               SessionRepo.x_error_message := Some (Some "Manually stopped by user");
               SessionRepo.x_completed_at := None |};;
          domainAccountRepo_updateStatus env domainAccountId idle
      | None => ret tt
      end
  | Some _ => failSession env domainAccountId "Manually stopped by user"
  end.

Section Facade.

Variable decrypt : string → string + string.

(** Steps 6 to 8 of [startWarmup], and the same statements of its
    branch for a session completed today. *)
Definition launch (env : Env) (domainAccountId : string)
    (session : option WarmupSession.t) (domainAccount : DomainAccount.t)
    (leads : list LeadAccount.t) : M (option WarmupSession.t) :=
  domainAccountRepo_updateStatus env domainAccountId running;;
  a ← gets (λ w, fresh (dom (objects w)));
  modify (on_objects
            (insert a (mkActive session domainAccount leads None None false [])));;
  modify (on_activeSessions (insert domainAccountId a));;
  setTimeout (firstLead domainAccountId a session) 0;;
  ret session.

Definition startWarmup (env : Env) (domainAccountId : string)
    : M (option WarmupSession.t) :=
  r ← registered domainAccountId;
  if r is Some _ then throw AlreadyActive
  else
    found ← gets (λ w, findDomainById decrypt domainAccountId (domain_accounts w));
    domainAccount ← lift found;
    match domainAccount with
    | None => throw DomainNotFound
    | Some domainAccount =>
        found ← gets (λ w, findAllLeads decrypt (lead_accounts w));
        leads ← lift found;
        if decide (length leads = 0%nat) then throw NoLeadAccounts
        else
          completedToday ← gets (λ w, SessionRepo.findCompletedToday (now env)
                                        domainAccountId (warmup_sessions w));
          match completedToday with
          | Some completedToday =>
              let completedLeadCount :=
                WarmupSession.current_lead_index completedToday in
              if (completedLeadCount <? Z.of_nat (length leads))%Z
              then
                session ← sessionRepo_updateStatus env
                  (WarmupSession.id completedToday) sending
                  {| SessionRepo.x_current_lead_index := Some completedLeadCount;
                     SessionRepo.x_last_message_id := None;
                     SessionRepo.x_error_message := Some None;
                     SessionRepo.x_completed_at := Some None |};
                launch env domainAccountId session domainAccount leads
              else
                throw (CompletedForToday (length leads)
                         (WarmupSession.completed_at completedToday))
          | None =>
              session ← gets (λ w, SessionRepo.findActiveToday (now env)
                                     domainAccountId (warmup_sessions w));
              session ←
                match session with
                | Some session =>
                    if decide (WarmupSession.status session = paused)
                    then
                      session ← sessionRepo_updateStatus env
                        (WarmupSession.id session) sending SessionRepo.no_extras;
                      deref session
                    else throw (SessionExists (WarmupSession.status session))
                | None =>
                    session ← sessionRepo_create env domainAccountId;
                    deref session
                end;
              launch env domainAccountId (Some session) domainAccount leads
          end
    end.

Definition resumeWarmup (env : Env) (domainAccountId : string)
    : M (option WarmupSession.t) :=
  startWarmup env domainAccountId.

End Facade.

(** *** The event loop

  What happens to the process: a request to the control facade, a
  callback of the connection or of a timer of one listener, or one of
  the orchestrator's own timers.  A rejected promise nobody handles
  leaves the memory as it is. *)

Inductive Request :=
| Start (domainAccountId : string)
| Pause (domainAccountId : string)
| Resume (domainAccountId : string)
| Stop (domainAccountId : string).

Inductive Happening :=
| request (r : Request)
| imapEvent (l : addr) (ev : Imap.Event)
| timerFires (t : nat).

Definition notify (env : Env) (L : Listener) (n : Imap.Notification) : M unit :=
  match n with
  | Imap.onEmail e => onEmail_run env (emailCallback L) e
  | Imap.onTimeout => onTimeout_run env (timeoutCallback L)
  end.

Fixpoint notify_all (env : Env) (L : Listener) (ns : list Imap.Notification)
    : M unit :=
  match ns with
  | [] => ret tt
  | n :: ns' => catch (notify env L n) (λ _, ret tt);; notify_all env L ns'
  end.

Definition imap_happens (env : Env) (l : addr) (ev : Imap.Event) : M unit :=
  found ← gets (λ w, imapListeners w !! l);
  match found with
  | None => ret tt
  | Some L =>
      let '(state, ns) := Imap.step (now env) ev (imap L) in
      modify (on_imapListeners
                (insert l (mkListener state (emailCallback L) (timeoutCallback L))));;
      notify_all env L ns
  end.

Definition timer_fires (env : Env) (t : nat) : M unit :=
  found ← gets (λ w, timeouts w !! t);
  match found with
  | None => ret tt
  | Some (_, task) => clearTimeout t;; task_run env task
  end.

Section Loop.

Variable decrypt : string → string + string.

Definition serve (env : Env) (r : Request) : M unit :=
  match r with
  | Start d => startWarmup decrypt env d;; ret tt
  | Pause d => pauseWarmup env d;; ret tt
  | Resume d => resumeWarmup decrypt env d;; ret tt
  | Stop d => stopWarmup env d
  end.

Definition happen (env : Env) (h : Happening) (w : World) : World :=
  snd (match h with
       | request r => serve env r
       | imapEvent l ev => imap_happens env l ev
       | timerFires t => timer_fires env t
       end w).

(** A history: what happens, each with what it draws from outside. *)
Fixpoint history (hs : list (Env * Happening)) (w : World) : World :=
  match hs with
  | [] => w
  | (env, h) :: hs' => history hs' (happen env h w)
  end.

End Loop.

(** The session row with a given id, and a listener being disconnected. *)
Definition stored (session_id : string) (w : World) : option WarmupSession.t :=
  SessionRepo.findById session_id (warmup_sessions w).

Definition destroyed (l : addr) (w : World) : Prop :=
  ∃ L, imapListeners w !! l = Some L ∧ Imap.isDestroyed (imap L) = true.

Definition initial : World := mkWorld ∅ ∅ ∅ ∅ [] [] [] [].

End Orchestrator.

(** ** Specifications

    The vocabulary of the statements about the orchestrator. *)

Module Spec.
Import Orchestrator.

(** The outcome of a computation started in [w]: [Q] on its value and
    final memory, or [E] on the memory an exception leaves. *)
Definition wp {A} (m : M A) (Q : A → World → Prop) (E : World → Prop) (w : World)
    : Prop :=
  match m w with
  | (inr x, w') => Q x w'
  | (inl _, w') => E w'
  end.

(** Every run of [m] relates the memory it starts in to the memory it
    leaves, whether it returns or throws. *)
Definition keeps {A} (R : World → World → Prop) (m : M A) : Prop :=
  ∀ w, R w (snd (m w)).

(** A change of the memory that touches neither the sessions nor the mail
    log and adds no reply timer. *)
Definition harmless (w w' : World) : Prop :=
  warmup_sessions w' = warmup_sessions w
  ∧ mail_logs w' = mail_logs w
  ∧ ∀ t delay d lead inc orig,
      timeouts w' !! t = Some (delay, replyTimer d lead inc orig) →
      timeouts w !! t = Some (delay, replyTimer d lead inc orig).

Record Frame (R : World → World → Prop) : Prop := {
  frame_refl : ∀ w, R w w;
  frame_trans : ∀ w1 w2 w3, R w1 w2 → R w2 w3 → R w1 w3;
  frame_harmless : ∀ w w', harmless w w' → R w w';
}.

(** [R] allows a log entry that is not a reply, and an update of a
    session that leaves its lead index. *)
Definition allows_log (R : World → World → Prop) : Prop :=
  ∀ env data w,
    MailLogRepo.d_direction data ≠ replied → R w (snd (mailLogRepo_create env data w)).

Definition allows_status (R : World → World → Prop) : Prop :=
  ∀ env session_id st extras w,
    SessionRepo.x_current_lead_index extras = None →
    R w (snd (sessionRepo_updateStatus env session_id st extras w)).

(** *** Lead index *)

(** Every row of [tbl] is in [tbl'], as a row of its account, with a lead
    index that is not smaller. *)
Definition steady (tbl tbl' : list WarmupSession.t) : Prop :=
  ∀ session_id r,
    SessionRepo.findById session_id tbl = Some r →
    ∃ r', SessionRepo.findById session_id tbl' = Some r'
          ∧ WarmupSession.domain_account_id r' = WarmupSession.domain_account_id r
          ∧ (WarmupSession.current_lead_index r ≤ WarmupSession.current_lead_index r')%Z.

Definition index_grows (w w' : World) : Prop :=
  steady (warmup_sessions w) (warmup_sessions w').

(** *** Threading of replies *)

(** Among the first [n] entries of the log there is an entry for a
    received message with Message-ID [mid]. *)
Definition received_before (n : nat) (mid : option string) (w : World) : Prop :=
  ∃ j e, (j < n)%nat ∧ mail_logs w !! j = Some e
         ∧ MailLog.direction e = received ∧ MailLog.message_id e = mid.

(** Every reply in the log answers a received message logged before it. *)
Definition answered (w : World) : Prop :=
  ∀ i r, mail_logs w !! i = Some r → MailLog.direction r = replied →
         received_before i (MailLog.in_reply_to r) w.

(** Every pending reply timer holds a message that was logged as received. *)
Definition awaited (w : World) : Prop :=
  ∀ t delay d lead inc orig,
    timeouts w !! t = Some (delay, replyTimer d lead inc orig) →
    received_before (length (mail_logs w)) (or_null (Some (Imap.messageId inc))) w.

Definition threaded (w : World) : Prop := answered w ∧ awaited w.

Definition threads (w w' : World) : Prop :=
  mail_logs w `prefix_of` mail_logs w' ∧ (threaded w → threaded w').

(** *** Skipping a lead *)

(** The memory after [disconnect] was called on the listener an object
    refers to, if it refers to one. *)
Definition disconnected (l : option addr) (w : World) : World :=
  match l with
  | Some l => snd (disconnect l w)
  | None => w
  end.

(** The timers left when those of a list were cleared. *)
Definition cleared (ts : list nat) (pending : gmap nat (Z * Task)) : gmap nat (Z * Task) :=
  foldl (λ m t, delete t m) pending ts.

(** *** A start that succeeds

    The three ways of [startWarmup] to its session row, with the table
    each leaves: it continues the session completed today because leads
    were added, it resumes the paused session of today, or it creates or
    resets the row of today. *)

Definition continues (env : Env) (d : string) (n : nat) (w : World)
    (row : WarmupSession.t) (tbl : list WarmupSession.t) : Prop :=
  ∃ c, SessionRepo.findCompletedToday (now env) d (warmup_sessions w) = Some c
       ∧ (WarmupSession.current_lead_index c < Z.of_nat n)%Z
       ∧ SessionRepo.updateStatus (now env) (WarmupSession.id c) sending
           {| SessionRepo.x_current_lead_index := Some (WarmupSession.current_lead_index c);
              SessionRepo.x_last_message_id := None;
              SessionRepo.x_error_message := Some None;
              SessionRepo.x_completed_at := Some None |} (warmup_sessions w)
         = (Some row, tbl).

Definition resumes (env : Env) (d : string) (w : World)
    (row : WarmupSession.t) (tbl : list WarmupSession.t) : Prop :=
  ∃ s, SessionRepo.findCompletedToday (now env) d (warmup_sessions w) = None
       ∧ SessionRepo.findActiveToday (now env) d (warmup_sessions w) = Some s
       ∧ WarmupSession.status s = paused
       ∧ SessionRepo.updateStatus (now env) (WarmupSession.id s) sending
           SessionRepo.no_extras (warmup_sessions w)
         = (Some row, tbl).

Definition creates (env : Env) (d : string) (w : World)
    (row : WarmupSession.t) (tbl : list WarmupSession.t) : Prop :=
  SessionRepo.findCompletedToday (now env) d (warmup_sessions w) = None
  ∧ SessionRepo.findActiveToday (now env) d (warmup_sessions w) = None
  ∧ SessionRepo.create (now env) (session_uuid env) d (warmup_sessions w)
    = (Some row, tbl).

(** *** Records that stay *)

(** The mail log only grows at its end. *)
Definition log_grows (w w' : World) : Prop :=
  mail_logs w `prefix_of` mail_logs w'.

(** The columns of a session row that identify it. *)
Definition same_identity (r r' : WarmupSession.t) : Prop :=
  WarmupSession.id r' = WarmupSession.id r
  ∧ WarmupSession.domain_account_id r' = WarmupSession.domain_account_id r
  ∧ WarmupSession.session_date r' = WarmupSession.session_date r
  ∧ WarmupSession.created_at r' = WarmupSession.created_at r.

(** Every row of [tbl] is still in [tbl'], at its place, as the same
    session. *)
Definition persists (tbl tbl' : list WarmupSession.t) : Prop :=
  ∀ i r, tbl !! i = Some r → ∃ r', tbl' !! i = Some r' ∧ same_identity r r'.

Definition sessions_persist (w w' : World) : Prop :=
  persists (warmup_sessions w) (warmup_sessions w').

(** The constraint [UNIQUE(domain_account_id, session_date)] of the
    schema on [warmup_sessions]. *)
Definition day_key (r : WarmupSession.t) : string * Z :=
  (WarmupSession.domain_account_id r, WarmupSession.session_date r).

Definition one_per_day (tbl : list WarmupSession.t) : Prop :=
  NoDup (day_key <$> tbl).

(** What every run of the orchestrator keeps of the two tables it
    writes. *)
Definition lasting (w w' : World) : Prop :=
  log_grows w w'
  ∧ sessions_persist w w'
  ∧ (one_per_day (warmup_sessions w) → one_per_day (warmup_sessions w')).

(** *** The lead index over the life of the process *)

(** The process as it starts: nothing registered, no object, listener or
    timer. *)
Definition booted (w : World) : Prop :=
  activeSessions w = ∅ ∧ objects w = ∅ ∧ imapListeners w = ∅ ∧ timeouts w = ∅.

(** A request that goes through [startWarmup], and one that does so for
    the account [d]. *)
Definition begins (h : Happening) : bool :=
  match h with
  | request (Start _) | request (Resume _) => true
  | _ => false
  end.

Definition starts (d : string) (h : Happening) : bool :=
  match h with
  | request (Start d') | request (Resume d') => bool_decide (d' = d)
  | _ => false
  end.

(** The message notified is from the sender a reply callback expects. *)
Definition from_expected (expected : string) (n : Imap.Notification) : bool :=
  match n with
  | Imap.onEmail e => String.eqb (normalize (Imap.from e)) (normalize expected)
  | Imap.onTimeout => false
  end.

(** The happening hands a message of the expected sender to the reply
    callback of an orchestrator that is not, or no longer, the one
    registered for its account; or it continues the first flow of such an
    orchestrator, or of one that does not hold the session the flow has
    read. *)
Definition outdated (env : Env) (h : Happening) (w : World) : bool :=
  match h with
  | imapEvent l ev =>
      match imapListeners w !! l with
      | Some L =>
          match emailCallback L with
          | domainOnEmail d expected a =>
              negb (bool_decide (activeSessions w !! d = Some a))
              && existsb (from_expected expected) (snd (Imap.step (now env) ev (imap L)))
          | leadOnEmail _ _ _ _ => false
          end
      | None => false
      end
  | timerFires t =>
      match timeouts w !! t with
      | Some (_, firstLead d a s) =>
          negb (bool_decide (activeSessions w !! d = Some a
                             ∧ session <$> objects w !! a = Some s))
      | _ => false
      end
  | request _ => false
  end.

(** A history in which no happening is [outdated] and [gen_random_uuid()]
    gives every start an id that no session row has. *)
Fixpoint orderly (decrypt : string → string + string)
    (hs : list (Env * Happening)) (w : World) : bool :=
  match hs with
  | [] => true
  | (env, h) :: hs' =>
      negb (outdated env h w)
      && (negb (begins h)
          || bool_decide (session_uuid env ∉ (WarmupSession.id <$> warmup_sessions w)))
      && orderly decrypt hs' (happen decrypt env h w)
  end.

(** No happening of the history is a start for the account [d]. *)
Definition without_start (d : string) (hs : list (Env * Happening)) : bool :=
  forallb (λ eh, negb (starts d eh.2)) hs.

(** The table satisfies its primary key, and every registered
    orchestrator holds, as its session, a row of its account that is
    stored and whose stored lead index is not ahead of the one it holds. *)
Definition tidy (w : World) : Prop :=
  NoDup (WarmupSession.id <$> warmup_sessions w)
  ∧ ∀ d a, activeSessions w !! d = Some a →
      ∃ o s r, objects w !! a = Some o
               ∧ session o = Some s
               ∧ stored (WarmupSession.id s) w = Some r
               ∧ WarmupSession.domain_account_id r = d
               ∧ (WarmupSession.current_lead_index r
                  ≤ WarmupSession.current_lead_index s)%Z.

(** A change of the memory that leaves the registry, the session rows and
    the session every object holds. *)
Definition still (w w' : World) : Prop :=
  activeSessions w' = activeSessions w
  ∧ warmup_sessions w' = warmup_sessions w
  ∧ ∀ a, session <$> objects w' !! a = session <$> objects w !! a.

(** A relation between memories that such a change keeps. *)
Record Calm (R : World → World → Prop) : Prop := {
  calm_refl : ∀ w, R w w;
  calm_trans : ∀ w1 w2 w3, R w1 w2 → R w2 w3 → R w1 w3;
  calm_still : ∀ w w', still w w' → R w w';
}.

(** The columns of a row that a run leaves when it writes no lead
    index. *)
Definition same_key (r r' : WarmupSession.t) : Prop :=
  WarmupSession.id r' = WarmupSession.id r
  ∧ WarmupSession.domain_account_id r' = WarmupSession.domain_account_id r
  ∧ WarmupSession.current_lead_index r' = WarmupSession.current_lead_index r.

(** What a run keeps when it registers nothing, writes no lead index and
    leaves every object its session: orchestrators may be removed and the
    other columns of the rows may change. *)
Definition settles (w w' : World) : Prop :=
  activeSessions w' ⊆ activeSessions w
  ∧ (∀ a o, objects w !! a = Some o →
            ∃ o', objects w' !! a = Some o' ∧ session o' = session o)
  ∧ Forall2 same_key (warmup_sessions w) (warmup_sessions w').

(** A run that leaves a tidy memory tidy and lowers no lead index. *)
Definition grows (w w' : World) : Prop :=
  tidy w → tidy w' ∧ index_grows w w'.

End Spec.

(** ** Sample data *)

Module Sample.

Definition smtp_config : Smtp.SmtpConfig :=
  {| Smtp.host := "smtp.corp.io"; Smtp.port := 587; Smtp.secure := true;
     Smtp.password := "secret"; Smtp.email := "me@corp.io";
     Smtp.senderName := "Dom" |}.

Definition reply_params (inReplyTo references : option string) : Smtp.SendEmailParams :=
  {| Smtp.to := "lea@gmail.com"; Smtp.subject := "Re: Hi"; Smtp.body := "Hello";
     Smtp.inReplyTo := inReplyTo; Smtp.references := references |}.

(** A server that accepts every recipient. *)
Definition accepting (_ : Smtp.TransportOptions) (m : Smtp.SendMailOptions)
    : string + list string :=
  inr [Smtp.m_to m].

Definition lead_inbox : Imap.ImapConfig :=
  {| Imap.host := "imap.gmail.com"; Imap.port := 993; Imap.secure := true;
     Imap.password := "secret"; Imap.email := "lea@gmail.com";
     Imap.filterFromEmail := Some "me@corp.io" |}.

(** A message as [simpleParser] returns it. *)
Definition parsed (messageId from : string) : option Imap.ParsedMail :=
  Some {| Imap.p_messageId := Some messageId; Imap.p_from := Some from;
          Imap.p_to := Some "lea@gmail.com"; Imap.p_subject := Some "Hi";
          Imap.p_text := Some "Hello"; Imap.p_inReplyTo := None;
          Imap.p_date := Some 5%Z |}.

(** Every attempt to connect fails, and the last failure is followed by
    the close of the socket. *)
Definition unreachable : list Imap.Action :=
  [Imap.CallConnect true;
   Imap.Does Imap.Failure; Imap.Does (Imap.ReconnectTimer true);
   Imap.Does Imap.Failure; Imap.Does (Imap.ReconnectTimer true);
   Imap.Does Imap.Failure; Imap.Does (Imap.ReconnectTimer true);
   Imap.Does Imap.Failure; Imap.Does (Imap.ReconnectTimer true);
   Imap.Does Imap.Failure; Imap.Does (Imap.ReconnectTimer true);
   Imap.Does Imap.Failure; Imap.Does Imap.Close].

(** The wait timeout passes, then a poll finds a message. *)
Definition late_mail : list Imap.Action :=
  [Imap.CallConnect true; Imap.Does Imap.Ready; Imap.Does (Imap.BoxOpened true);
   Imap.Does Imap.WaitTimeout; Imap.Does Imap.PollTick;
   Imap.Does (Imap.SearchDone (Some [parsed "<u1@corp.io>" "me@corp.io"]));
   Imap.Does (Imap.ParseDone 0)].

Definition sessions : list WarmupSession.t :=
  [WarmupSession.mk "s1" "d1" 2 failed (Some "<u1@corp.io>") 0 (Some 10%Z) None
     (Some "Manually stopped by user") 10 500].

Definition domain : DomainAccount.t :=
  DomainAccount.mk "d1" "Dom" "me@corp.io" "smtp.corp.io" 587 true "secret"
    "imap.corp.io" 993 true "secret" idle 0 0.

Definition lea : LeadAccount.t :=
  LeadAccount.mk "l1" "Lea" "lea@gmail.com" "smtp.gmail.com" 587 true "secret"
    "imap.gmail.com" 993 true "secret" 1 1.

Definition leo : LeadAccount.t :=
  LeadAccount.mk "l2" "Leo" "leo@gmail.com" "smtp.gmail.com" 587 true "secret"
    "imap.gmail.com" 993 true "secret" 2 2.

(** Passwords stored in the clear. *)
Definition plain (s : string) : string + string := inr s.

(** What a call draws at time [now]; [tag] makes its identifiers. *)
Definition env (now : Z) (tag : string) : Orchestrator.Env :=
  {| Orchestrator.now := now;
     Orchestrator.uuid := tag;
     Orchestrator.session_uuid := "s-" +:+ tag;
     Orchestrator.log_uuid := "m-" +:+ tag;
     Orchestrator.generated :=
       inr {| Orchestrator.g_subject := "Hi"; Orchestrator.g_body := "Hello" |};
     Orchestrator.sendMail := accepting;
     Orchestrator.drawn := 0;
     Orchestrator.connects := true |}.

(** One domain account and two leads, nothing started. *)
Definition fresh_world : Orchestrator.World :=
  Orchestrator.mkWorld ∅ ∅ ∅ ∅ [] [] [domain] [leo; lea].

(** The same accounts after a session of today was stopped at lead 2. *)
Definition stopped : Orchestrator.World :=
  Orchestrator.mkWorld ∅ ∅ ∅ ∅ sessions [] [domain] [leo; lea].

(** Started, the first message sent to the first lead. *)
Definition running : Orchestrator.World :=
  Orchestrator.history plain
    [(env 10 "u1", Orchestrator.request (Orchestrator.Start "d1"));
     (env 11 "u2", Orchestrator.timerFires 0)]
    fresh_world.

(** The listener on the lead's mailbox is connected, its inbox open. *)
Definition waiting : Orchestrator.World :=
  Orchestrator.history plain
    [(env 12 "u3", Orchestrator.imapEvent 0 Imap.Ready);
     (env 13 "u4", Orchestrator.imapEvent 0 (Imap.BoxOpened true))]
    running.

(** A new message makes the server announce it and the poll look for it;
    both searches find it before either fetch has marked it seen. *)
Definition fetched_twice : Orchestrator.World :=
  Orchestrator.history plain
    [(env 14 "u5", Orchestrator.imapEvent 0 Imap.Mail);
     (env 15 "u5", Orchestrator.imapEvent 0 Imap.PollTick);
     (env 16 "u5", Orchestrator.imapEvent 0
                     (Imap.SearchDone (Some [parsed "<u2@corp.io>" "me@corp.io"])));
     (env 17 "u5", Orchestrator.imapEvent 0
                     (Imap.SearchDone (Some [parsed "<u2@corp.io>" "me@corp.io"])))]
    waiting.

(** A start, the first message sent, and the lead's mailbox receiving
    from the domain address a message whose Message-ID is [messageId] (or
    that has none); the lead then replies. *)
Definition reply_history (messageId : option string)
    : list (Orchestrator.Env * Orchestrator.Happening) :=
  [(env 10 "u1", Orchestrator.request (Orchestrator.Start "d1"));
   (env 11 "u2", Orchestrator.timerFires 0);
   (env 12 "u3", Orchestrator.imapEvent 0 Imap.Ready);
   (env 13 "u4", Orchestrator.imapEvent 0 (Imap.BoxOpened true));
   (env 14 "u5", Orchestrator.imapEvent 0 Imap.PollTick);
   (env 15 "u6", Orchestrator.imapEvent 0
      (Imap.SearchDone
         (Some [Some {| Imap.p_messageId := messageId;
                        Imap.p_from := Some "me@corp.io";
                        Imap.p_to := Some "lea@gmail.com";
                        Imap.p_subject := Some "Hi";
                        Imap.p_text := Some "Hello";
                        Imap.p_inReplyTo := None;
                        Imap.p_date := Some 14%Z |}])));
   (env 16 "u7", Orchestrator.imapEvent 0 (Imap.ParseDone 0));
   (env 200000 "u8", Orchestrator.timerFires 0)].

Definition replied_world (messageId : option string) : Orchestrator.World :=
  Orchestrator.history plain (reply_history messageId) fresh_world.

(** One lead only: started, the message sent, the lead's inbox open. *)
Definition last_lead_waiting : Orchestrator.World :=
  Orchestrator.history plain
    [(env 10 "u1", Orchestrator.request (Orchestrator.Start "d1"));
     (env 11 "u2", Orchestrator.timerFires 0);
     (env 12 "u3", Orchestrator.imapEvent 0 Imap.Ready);
     (env 13 "u4", Orchestrator.imapEvent 0 (Imap.BoxOpened true))]
    (Orchestrator.mkWorld ∅ ∅ ∅ ∅ [] [] [domain] [lea]).

(** A start, a pause and a resume: the message is sent again, by the
    new orchestrator, and the lead's inbox is open. *)
Definition resumed_history : list (Orchestrator.Env * Orchestrator.Happening) :=
  [(env 10 "u1", Orchestrator.request (Orchestrator.Start "d1"));
   (env 11 "u2", Orchestrator.timerFires 0);
   (env 12 "u3", Orchestrator.request (Orchestrator.Pause "d1"));
   (env 13 "u4", Orchestrator.request (Orchestrator.Resume "d1"));
   (env 14 "u5", Orchestrator.timerFires 0);
   (env 15 "u6", Orchestrator.imapEvent 1 Imap.Ready);
   (env 16 "u7", Orchestrator.imapEvent 1 (Imap.BoxOpened true))].

(** The reply of the lead as [simpleParser] returns it. *)
Definition lead_reply : option Imap.ParsedMail :=
  Some {| Imap.p_messageId := Some "<u8@gmail.com>";
          Imap.p_from := Some "lea@gmail.com";
          Imap.p_to := Some "me@corp.io";
          Imap.p_subject := Some "Re: Hi";
          Imap.p_text := Some "Hello";
          Imap.p_inReplyTo := Some "<u2@corp.io>";
          Imap.p_date := Some 200001%Z |}.

(** The reply of the lead is being parsed when the session is paused;
    resumed, the session runs to its end, both leads skipped. *)
Definition overtaken_reply : list (Orchestrator.Env * Orchestrator.Happening) :=
  reply_history (Some "<u2@corp.io>") ++
  [(env 200010 "u9", Orchestrator.imapEvent 1 Imap.Ready);
   (env 200011 "u10", Orchestrator.imapEvent 1 (Imap.BoxOpened true));
   (env 200012 "u11", Orchestrator.imapEvent 1 Imap.PollTick);
   (env 200013 "u12", Orchestrator.imapEvent 1 (Imap.SearchDone (Some [lead_reply])));
   (env 200014 "u13", Orchestrator.request (Orchestrator.Pause "d1"));
   (env 200015 "u14", Orchestrator.request (Orchestrator.Resume "d1"));
   (env 200016 "u15", Orchestrator.timerFires 0);
   (env 200017 "u16", Orchestrator.imapEvent 2 Imap.Ready);
   (env 200018 "u17", Orchestrator.imapEvent 2 (Imap.BoxOpened true));
   (env 800019 "u18", Orchestrator.imapEvent 2 Imap.WaitTimeout);
   (env 810020 "u19", Orchestrator.timerFires 0);
   (env 810021 "u20", Orchestrator.imapEvent 3 Imap.Ready);
   (env 810022 "u21", Orchestrator.imapEvent 3 (Imap.BoxOpened true));
   (env 1410023 "u22", Orchestrator.imapEvent 3 Imap.WaitTimeout)].

(** The session is paused before the first flow of its start goes on;
    resumed, it runs to its end, both leads skipped. *)
Definition overtaken_flow : list (Orchestrator.Env * Orchestrator.Happening) :=
  [(env 10 "u1", Orchestrator.request (Orchestrator.Start "d1"));
   (env 11 "u2", Orchestrator.request (Orchestrator.Pause "d1"));
   (env 12 "u3", Orchestrator.request (Orchestrator.Resume "d1"));
   (env 13 "u4", Orchestrator.timerFires 1);
   (env 14 "u5", Orchestrator.imapEvent 0 Imap.Ready);
   (env 15 "u6", Orchestrator.imapEvent 0 (Imap.BoxOpened true));
   (env 600016 "u7", Orchestrator.imapEvent 0 Imap.WaitTimeout);
   (env 610017 "u8", Orchestrator.timerFires 1);
   (env 610018 "u9", Orchestrator.imapEvent 1 Imap.Ready);
   (env 610019 "u10", Orchestrator.imapEvent 1 (Imap.BoxOpened true));
   (env 1210020 "u11", Orchestrator.imapEvent 1 Imap.WaitTimeout)].

End Sample.

(** * Properties *)

(** ** SMTP *)

Lemma split_free_of c s : free_of c s = true → split c s = [s].
Proof.
  induction s as [|c' s IH]; simpl; [done|].
  intros [Hc Hs]%andb_prop. apply negb_true_iff in Hc.
  rewrite Hc, (IH Hs). done.
Qed.

Lemma split_append c l r :
  free_of c l = true → split c (l +:+ String c r) = l :: split c r.
Proof.
  induction l as [|c' l IH]; simpl.
  - intros _. by rewrite Ascii.eqb_refl.
  - intros [Hc Hl]%andb_prop. apply negb_true_iff in Hc.
    rewrite Hc, (IH Hl). done.
Qed.

Lemma truthy_Some s : s ≠ EmptyString → truthy (Some s) = true.
Proof.
  intros Hs. simpl. apply negb_true_iff. by apply String.eqb_neq.
Qed.

(** C10. Every send and every connection test opens its transport with
    the options of [createTransporter], in which TLS on connect is set
    exactly when the configured port is 465: the outcome of a send is the
    server's answer on that transport, and so is the outcome of a
    connection test.  No other transport is used: servers that agree on
    the transports with that TLS setting give the same outcomes, and a
    server that refuses, or accepts, every such transport refuses, or
    accepts, the send and the test.  The [secure] flag stored with the
    account does not reach the transport: replacing the flag changes
    neither the options nor the outcome of a send or of a connection
    test. *)
Theorem createTransporter_secure_only_from_port :
  ∀ (sendMail : Smtp.TransportOptions → Smtp.SendMailOptions → string + list string)
    (verify : Smtp.TransportOptions → option string)
    (config : Smtp.SmtpConfig) (flag : bool)
    (params : Smtp.SendEmailParams) (uuid : string),
    let config' :=
      {| Smtp.host := Smtp.host config; Smtp.port := Smtp.port config;
         Smtp.secure := flag; Smtp.password := Smtp.password config;
         Smtp.email := Smtp.email config; Smtp.senderName := Smtp.senderName config |} in
    let tls := (Smtp.port config =? 465)%Z in
    (Smtp.o_secure (Smtp.createTransporter config) = true ↔ Smtp.port config = 465%Z)
    ∧ Smtp.createTransporter config' = Smtp.createTransporter config
    ∧ Smtp.sendEmail sendMail config' params uuid = Smtp.sendEmail sendMail config params uuid
    ∧ Smtp.testSmtpConnection verify config' = Smtp.testSmtpConnection verify config
    ∧ Smtp.sendEmail sendMail config params uuid
      = match sendMail (Smtp.createTransporter config)
                (Smtp.mailOptions config params uuid) with
        | inr accepted =>
            inr {| Smtp.messageId := Smtp.generateMessageId config uuid;
                   Smtp.accepted := accepted |}
        | inl error => inl error
        end
    ∧ Smtp.testSmtpConnection verify config
      = match verify (Smtp.createTransporter config) with
        | None => inr true
        | Some error => inl ("SMTP connection failed: " +:+ error)
        end
    ∧ (∀ sendMail',
         (∀ options mail, Smtp.o_secure options = tls →
            sendMail' options mail = sendMail options mail) →
         Smtp.sendEmail sendMail' config params uuid
         = Smtp.sendEmail sendMail config params uuid)
    ∧ (∀ verify',
         (∀ options, Smtp.o_secure options = tls → verify' options = verify options) →
         Smtp.testSmtpConnection verify' config = Smtp.testSmtpConnection verify config)
    ∧ (∀ error,
         (∀ options mail, Smtp.o_secure options = tls → sendMail options mail = inl error) →
         Smtp.sendEmail sendMail config params uuid = inl error)
    ∧ (∀ accepted,
         (∀ options mail, Smtp.o_secure options = tls →
            sendMail options mail = inr accepted) →
         Smtp.sendEmail sendMail config params uuid
         = inr {| Smtp.messageId := Smtp.generateMessageId config uuid;
                  Smtp.accepted := accepted |})
    ∧ (∀ error,
         (∀ options, Smtp.o_secure options = tls → verify options = Some error) →
         Smtp.testSmtpConnection verify config
         = inl ("SMTP connection failed: " +:+ error))
    ∧ ((∀ options, Smtp.o_secure options = tls → verify options = None) →
       Smtp.testSmtpConnection verify config = inr true).
Proof.
  intros sendMail verify config flag params uuid config' tls.
  assert (Htls : Smtp.o_secure (Smtp.createTransporter config) = tls) by done.
  split; [unfold Smtp.createTransporter; simpl; apply Z.eqb_eq|].
  do 5 (split; [done|]).
  unfold Smtp.sendEmail, Smtp.testSmtpConnection.
  split; [intros sendMail' H; by rewrite (H _ _ Htls)|].
  split; [intros verify' H; by rewrite (H _ Htls)|].
  split; [intros error H; by rewrite (H _ _ Htls)|].
  split; [intros accepted H; by rewrite (H _ _ Htls)|].
  split; [intros error H; by rewrite (H _ Htls)|].
  intros H; by rewrite (H _ Htls).
Qed.

(** On port 587 a server that refuses every TLS-on-connect transport
    answers the send and the connection test as a server that accepts
    every transport does. *)
Lemma createTransporter_secure_only_from_port_witness :
  Smtp.sendEmail
    (λ options mail,
       if Smtp.o_secure options then inl "wrong version number"
       else inr [Smtp.m_to mail])
    Sample.smtp_config (Sample.reply_params None None) "u"
  = Smtp.sendEmail (λ _ mail, inr [Smtp.m_to mail])
      Sample.smtp_config (Sample.reply_params None None) "u"
  ∧ Smtp.testSmtpConnection
      (λ options, if Smtp.o_secure options then Some "wrong version number" else None)
      Sample.smtp_config
    = inr true.
Proof.
  destruct (createTransporter_secure_only_from_port
              (λ _ mail, inr [Smtp.m_to mail])
              (λ options,
                 if Smtp.o_secure options then Some "wrong version number" else None)
              Sample.smtp_config true (Sample.reply_params None None) "u")
    as (_ & _ & _ & _ & _ & _ & Hsend & _ & _ & _ & _ & Htest).
  split.
  - apply Hsend. intros options mail Hs. rewrite Hs. reflexivity.
  - apply Htest. intros options Hs. rewrite Hs. reflexivity.
Defined.

(** C8, as stated, fails: with a [references] value of its own the
    References header is not the [inReplyTo] value, and an empty
    [inReplyTo] sets no header at all. *)
Lemma sendEmail_headers_not_always_in_reply_to :
  let p1 := Sample.reply_params (Some "<a@corp.io>") (Some "<b@corp.io>") in
  let p2 := Sample.reply_params (Some EmptyString) None in
  (Smtp.inReplyTo p1 = Some "<a@corp.io>"
   ∧ Smtp.m_headers (Smtp.mailOptions Sample.smtp_config p1 "u") !! "References"
     ≠ Some "<a@corp.io>")
  ∧ (Smtp.inReplyTo p2 = Some EmptyString
     ∧ Smtp.m_headers (Smtp.mailOptions Sample.smtp_config p2 "u") !! "In-Reply-To"
       ≠ Some EmptyString).
Proof. vm_compute. repeat split; congruence. Qed.

(** C8, amended.  For a sending address [local@domain] the Message-ID is
    [<uuid@domain>]; a non-empty [inReplyTo] is set as In-Reply-To, and
    References is the [references] value when that is non-empty and the
    [inReplyTo] value otherwise; without a non-empty [inReplyTo] no header
    is set; the result of a send the server accepts is the generated
    Message-ID with the accepted recipients, and an error of the server is
    the error of the send. *)
Theorem sendEmail_message_id_and_threading :
  ∀ (sendMail : Smtp.TransportOptions → Smtp.SendMailOptions → string + list string)
    (config : Smtp.SmtpConfig) (params : Smtp.SendEmailParams)
    (uuid local domain : string),
    Smtp.email config = local +:+ String "@" domain →
    free_of "@" local = true →
    free_of "@" domain = true →
    let options := Smtp.mailOptions config params uuid in
    Smtp.m_messageId options = "<" +:+ uuid +:+ "@" +:+ domain +:+ ">"
    ∧ (∀ irt, Smtp.inReplyTo params = Some irt → irt ≠ EmptyString →
         Smtp.m_headers options !! "In-Reply-To" = Some irt
         ∧ Smtp.m_headers options !! "References"
           = Some (if truthy (Smtp.references params)
                   then default EmptyString (Smtp.references params) else irt))
    ∧ (truthy (Smtp.inReplyTo params) = false → Smtp.m_headers options = ∅)
    ∧ (∀ accepted,
         sendMail (Smtp.createTransporter config) options = inr accepted →
         Smtp.sendEmail sendMail config params uuid
         = inr {| Smtp.messageId := Smtp.m_messageId options;
                  Smtp.accepted := accepted |})
    ∧ (∀ error,
         sendMail (Smtp.createTransporter config) options = inl error →
         Smtp.sendEmail sendMail config params uuid = inl error).
Proof.
  intros sendMail config params uuid local domain Hemail Hlocal Hdomain options.
  assert (Hid : Smtp.generateMessageId config uuid
                = "<" +:+ uuid +:+ "@" +:+ domain +:+ ">").
  { unfold Smtp.generateMessageId.
    rewrite Hemail, (split_append _ _ _ Hlocal), (split_free_of _ _ Hdomain). done. }
  split; [exact Hid|]. split; [|split; [|split]].
  - intros irt Hirt Hne. subst options. unfold Smtp.mailOptions; simpl.
    rewrite Hirt, (truthy_Some _ Hne); simpl.
    split.
    + rewrite lookup_insert_ne by done. by rewrite lookup_insert_eq.
    + rewrite lookup_insert_eq. unfold or_else.
      by destruct (truthy (Smtp.references params)).
  - intros Hfalsy. subst options. unfold Smtp.mailOptions; simpl. by rewrite Hfalsy.
  - intros accepted Hsend. unfold Smtp.sendEmail. fold options. by rewrite Hsend.
  - intros error Hsend. unfold Smtp.sendEmail. fold options. by rewrite Hsend.
Qed.

Lemma sendEmail_message_id_and_threading_witness :
  let options :=
    Smtp.mailOptions Sample.smtp_config (Sample.reply_params (Some "<a@corp.io>") None) "u" in
  Smtp.m_messageId options = "<u@corp.io>"
  ∧ Smtp.m_headers options !! "References" = Some "<a@corp.io>"
  ∧ Smtp.sendEmail Sample.accepting Sample.smtp_config
      (Sample.reply_params (Some "<a@corp.io>") None) "u"
    = inr {| Smtp.messageId := "<u@corp.io>"; Smtp.accepted := ["lea@gmail.com"] |}.
Proof.
  destruct (sendEmail_message_id_and_threading Sample.accepting Sample.smtp_config
              (Sample.reply_params (Some "<a@corp.io>") None) "u" "me" "corp.io"
              eq_refl eq_refl eq_refl) as (Hid & Hthread & _ & Hok & _).
  split; [exact Hid|]. split.
  - destruct (Hthread "<a@corp.io>" eq_refl) as [_ Hrefs]; [discriminate|exact Hrefs].
  - apply (Hok ["lea@gmail.com"]). reflexivity.
Defined.

(** ** Session repository *)

Section Tables.
Context {A : Type}.

Lemma filter_fmap_stable (P : A → Prop) `{!∀ x, Decision (P x)} (g : A → A)
    (l : list A) :
  (∀ x, P (g x) ↔ P x) → filter P (g <$> l) = g <$> filter P l.
Proof.
  intros Hg. induction l as [|x l IH]; [done|].
  rewrite fmap_cons, !filter_cons, IH.
  destruct (decide (P (g x))) as [Hx|Hx], (decide (P x)) as [Hx'|Hx'].
  - by rewrite fmap_cons.
  - exfalso. by apply Hx', Hg.
  - exfalso. by apply Hx, Hg.
  - done.
Qed.

Lemma filter_none (P : A → Prop) `{!∀ x, Decision (P x)} (l : list A) :
  (∀ x, x ∈ l → ¬ P x) → filter P l = [].
Proof.
  induction l as [|x l IH]; [done|]. intros Hl.
  rewrite filter_cons. destruct (decide (P x)) as [Hx|_].
  - exfalso. apply (Hl x); [left|done].
  - apply IH. intros y Hy. apply Hl. by right.
Qed.
End Tables.

Lemma filter_primary_key (tbl : list WarmupSession.t) (e : WarmupSession.t) :
  NoDup (WarmupSession.id <$> tbl) → e ∈ tbl →
  filter (λ r, WarmupSession.id r = WarmupSession.id e) tbl = [e].
Proof.
  induction tbl as [|x tbl IH]; [by intros _ ?%elem_of_nil|].
  rewrite fmap_cons. intros [Hx Hnd]%NoDup_cons He.
  rewrite filter_cons. apply elem_of_cons in He as [->|He].
  - rewrite decide_True by done. f_equal.
    apply filter_none. intros y Hy Heq. apply Hx. rewrite <- Heq.
    by apply list_elem_of_fmap_2.
  - rewrite decide_False; [by apply IH|].
    intros Heq. apply Hx. rewrite Heq. by apply list_elem_of_fmap_2.
Qed.

Lemma update_where_id_rows session_id (set : WarmupSession.t → WarmupSession.t) tbl :
  (∀ r, WarmupSession.id (set r) = WarmupSession.id r) →
  fst (SessionRepo.update_where_id session_id set tbl)
  = set <$> filter (λ r, WarmupSession.id r = session_id) tbl.
Proof.
  intros Hset. unfold SessionRepo.update_where_id; simpl.
  rewrite filter_fmap_stable.
  - apply list_fmap_ext. intros i r Hr.
    apply list_elem_of_lookup_2, list_elem_of_filter in Hr as [Hr _].
    by rewrite decide_True.
  - intros r. case_decide; [by rewrite Hset|done].
Qed.

(** The two branches of [create]. *)
Lemma create_resets now fresh d tbl e rest :
  NoDup (WarmupSession.id <$> tbl) →
  filter (λ r, WarmupSession.domain_account_id r = d
               ∧ WarmupSession.session_date r = CURRENT_DATE now) tbl = e :: rest →
  SessionRepo.create now fresh d tbl
  = (Some (SessionRepo.reset now e),
     (λ r, if decide (WarmupSession.id r = WarmupSession.id e)
           then SessionRepo.reset now r else r) <$> tbl).
Proof.
  intros Hkey Hexisting. unfold SessionRepo.create. rewrite Hexisting.
  assert (He : e ∈ tbl).
  { eapply (proj1 (list_elem_of_filter _ _ _)). rewrite Hexisting. left. }
  pose proof (update_where_id_rows (WarmupSession.id e) (SessionRepo.reset now) tbl
                (λ _, eq_refl)) as Hrows.
  rewrite filter_primary_key in Hrows by done.
  destruct (SessionRepo.update_where_id _ _ tbl) as [rows tbl'] eqn:Hupd.
  simpl in Hrows. subst rows.
  unfold SessionRepo.update_where_id in Hupd. by injection Hupd as _ <-.
Qed.

Lemma create_inserts now fresh d tbl :
  filter (λ r, WarmupSession.domain_account_id r = d
               ∧ WarmupSession.session_date r = CURRENT_DATE now) tbl = [] →
  SessionRepo.create now fresh d tbl
  = (Some (SessionRepo.inserted now fresh d),
     tbl ++ [SessionRepo.inserted now fresh d]).
Proof. intros Hexisting. unfold SessionRepo.create. by rewrite Hexisting. Qed.

(** C7. Two calls of create-or-reset for one domain account on one
    calendar day return rows with the same id, the same domain account and
    the same session date; both rows are pending at lead index 0 with
    [last_message_id], [error_message] and [completed_at] cleared.  The
    table satisfies its primary key and the first call draws an unused
    id. *)
Theorem create_twice_same_day :
  ∀ (now1 now2 : Z) (fresh1 fresh2 d : string) (tbl : list WarmupSession.t),
    CURRENT_DATE now1 = CURRENT_DATE now2 →
    NoDup (WarmupSession.id <$> tbl) →
    fresh1 ∉ (WarmupSession.id <$> tbl) →
    ∃ r1 r2,
      fst (SessionRepo.create now1 fresh1 d tbl) = Some r1
      ∧ fst (SessionRepo.create now2 fresh2 d
               (snd (SessionRepo.create now1 fresh1 d tbl))) = Some r2
      ∧ WarmupSession.id r1 = WarmupSession.id r2
      ∧ WarmupSession.domain_account_id r1 = d
      ∧ WarmupSession.domain_account_id r2 = d
      ∧ WarmupSession.session_date r1 = CURRENT_DATE now1
      ∧ WarmupSession.session_date r2 = CURRENT_DATE now1
      ∧ WarmupSession.status r1 = pending ∧ WarmupSession.status r2 = pending
      ∧ WarmupSession.current_lead_index r1 = 0%Z
      ∧ WarmupSession.current_lead_index r2 = 0%Z
      ∧ WarmupSession.last_message_id r1 = None
      ∧ WarmupSession.last_message_id r2 = None
      ∧ WarmupSession.error_message r1 = None
      ∧ WarmupSession.error_message r2 = None
      ∧ WarmupSession.completed_at r1 = None
      ∧ WarmupSession.completed_at r2 = None.
Proof.
  intros now1 now2 fresh1 fresh2 d tbl Hday Hkey Hfresh.
  set (today := λ r : WarmupSession.t,
         WarmupSession.domain_account_id r = d
         ∧ WarmupSession.session_date r = CURRENT_DATE now1).
  destruct (filter today tbl) as [|e rest] eqn:Hexisting.
  - (* no row for today: the first call inserts, the second resets that row *)
    set (row := SessionRepo.inserted now1 fresh1 d).
    rewrite (create_inserts now1 fresh1 d tbl Hexisting). fold row. cbn [fst snd].
    rewrite (create_resets now2 fresh2 d (tbl ++ [row]) row []).
    + exists row, (SessionRepo.reset now2 row). done.
    + rewrite fmap_app. apply NoDup_app. split; [done|]. split.
      * intros x Hx [->|[]%elem_of_nil]%elem_of_cons. by apply Hfresh.
      * apply NoDup_singleton.
    + rewrite <- Hday. fold today.
      rewrite filter_app, Hexisting, filter_cons, decide_True, filter_nil; done.
  - (* a row for today: both calls reset it *)
    assert (He : e ∈ filter today tbl) by (rewrite Hexisting; left).
    apply list_elem_of_filter in He as [[Hd Hdate] He].
    rewrite (create_resets now1 fresh1 d tbl e rest Hkey Hexisting). cbn [fst snd].
    set (g := λ r, if decide (WarmupSession.id r = WarmupSession.id e)
                   then SessionRepo.reset now1 r else r).
    assert (Hge : g e = SessionRepo.reset now1 e).
    { unfold g. by rewrite decide_True. }
    rewrite (create_resets now2 fresh2 d (g <$> tbl) (g e) (g <$> rest)).
    + exists (SessionRepo.reset now1 e), (SessionRepo.reset now2 (g e)).
      rewrite Hge. cbn. rewrite Hd, Hdate. done.
    + rewrite <- list_fmap_compose.
      erewrite list_fmap_ext; [exact Hkey|].
      intros i r _. unfold g; simpl. by case_decide.
    + rewrite <- Hday. fold today.
      rewrite (filter_fmap_stable today g tbl), Hexisting; [done|].
      intros r. unfold g. by case_decide.
Qed.


Lemma create_twice_same_day_witness :
  CURRENT_DATE 1000 = CURRENT_DATE 5000
  ∧ NoDup (WarmupSession.id <$> Sample.sessions)
  ∧ ("s2" ∉ (WarmupSession.id <$> Sample.sessions))
  ∧ (∃ r1 r2,
       fst (SessionRepo.create 1000 "s2" "d1" Sample.sessions) = Some r1
       ∧ fst (SessionRepo.create 5000 "s3" "d1"
                (snd (SessionRepo.create 1000 "s2" "d1" Sample.sessions))) = Some r2
       ∧ WarmupSession.id r1 = WarmupSession.id r2).
Proof.
  assert (H1 : CURRENT_DATE 1000 = CURRENT_DATE 5000) by reflexivity.
  assert (H2 : NoDup (WarmupSession.id <$> Sample.sessions))
    by (apply (bool_decide_unpack _); vm_compute; exact I).
  assert (H3 : "s2" ∉ (WarmupSession.id <$> Sample.sessions))
    by (apply (bool_decide_unpack _); vm_compute; exact I).
  split; [exact H1|]. split; [exact H2|]. split; [exact H3|].
  destruct (create_twice_same_day 1000 5000 "s2" "s3" "d1" Sample.sessions H1 H2 H3)
    as (r1 & r2 & Hr1 & Hr2 & Hid & _).
  exists r1, r2. repeat split; assumption.
Defined.

(** ** IMAP listener *)

Lemma timeouts_app (ns1 ns2 : list Imap.Notification) :
  Imap.timeouts (ns1 ++ ns2) = (Imap.timeouts ns1 + Imap.timeouts ns2)%nat.
Proof. unfold Imap.timeouts. by rewrite filter_app, length_app. Qed.

Lemma fetches_keep_destroyed n l :
  Imap.isDestroyed (Nat.iter n Imap.fetchNewMessages l) = Imap.isDestroyed l.
Proof. induction n as [|n IH]; [done|]. simpl. exact IH. Qed.

Lemma parseMessage_no_timeout now raw : Imap.timeouts (Imap.parseMessage now raw) = 0%nat.
Proof. by destruct raw. Qed.

Lemma startWaitTimeout_keeps_destroyed l :
  Imap.isDestroyed (Imap.startWaitTimeout l) = Imap.isDestroyed l.
Proof. unfold Imap.startWaitTimeout. simpl. by destruct (Imap.hasOnTimeout l). Qed.

Lemma guarded_fetch_keeps_destroyed l :
  Imap.isDestroyed (Imap.guarded_fetch l) = Imap.isDestroyed l.
Proof. unfold Imap.guarded_fetch. by destruct (_ && _). Qed.

(** A disconnected listener stays so and gives no [onTimeout]. *)
Lemma step_destroyed now ev l :
  Imap.isDestroyed l = true →
  Imap.isDestroyed (fst (Imap.step now ev l)) = true
  ∧ Imap.timeouts (snd (Imap.step now ev l)) = 0%nat.
Proof.
  intros Hl.
  destruct ev as [ | | | |ok| | | | |ok|found|i]; simpl; rewrite ?Hl; simpl; try done.
  - destruct (Imap.opening l); [done|].
    destruct ok; simpl; by rewrite ?startWaitTimeout_keeps_destroyed.
  - by rewrite fetches_keep_destroyed.
  - destruct (Imap.initialChecks l); simpl; by rewrite ?guarded_fetch_keeps_destroyed.
  - destruct (Imap.pollTimer l); simpl; by rewrite ?guarded_fetch_keeps_destroyed.
  - by destruct (Imap.waitTimer l).
  - destruct (Imap.reconnectTimers l); simpl; by rewrite ?Hl.
  - destruct (Imap.searches l); [done|]. by destruct found.
  - destruct (Imap.parsing l !! i); [|done]. simpl.
    split; [done|apply parseMessage_no_timeout].
Qed.

Lemma act_destroyed now a l :
  Imap.isDestroyed l = true →
  Imap.isDestroyed (fst (Imap.act now a l)) = true
  ∧ Imap.timeouts (snd (Imap.act now a l)) = 0%nat.
Proof.
  intros Hl. destruct a as [ev|ok|]; simpl.
  - by apply step_destroyed.
  - unfold Imap.connect. by rewrite Hl.
  - done.
Qed.

Lemma run_destroyed now acts l :
  Imap.isDestroyed l = true → Imap.timeouts (snd (Imap.run now acts l)) = 0%nat.
Proof.
  revert l. induction acts as [|a acts IH]; intros l Hl; [done|].
  simpl. destruct (act_destroyed now a l Hl) as [Hl1 Hns1].
  destruct (Imap.act now a l) as [l1 ns1]. simpl in *.
  specialize (IH l1 Hl1). destruct (Imap.run now acts l1) as [l2 ns2]. simpl in *.
  rewrite timeouts_app. lia.
Qed.

(** One callback of the connection or of a timer gives at most one
    notification. *)
Lemma step_at_most_one now ev l : (length (snd (Imap.step now ev l)) ≤ 1)%nat.
Proof.
  assert (Hsafe : ∀ l', (length (snd (Imap.safeReconnect l')) ≤ 1)%nat).
  { intros l'. unfold Imap.safeReconnect, Imap.timeout_notification.
    repeat case_match; simpl; lia. }
  destruct ev as [ | | | |ok| | | | |ok|found|i]; simpl;
    unfold Imap.connect, Imap.timeout_notification, Imap.parseMessage;
    repeat case_match; simpl; try lia; apply Hsafe.
Qed.

Lemma run_skipping_destroyed now evs l :
  Imap.isDestroyed l = true →
  Imap.timeouts (snd (Imap.run_skipping now evs l)) = 0%nat.
Proof.
  revert l. induction evs as [|ev evs IH]; intros l Hl; [done|].
  simpl. destruct (step_destroyed now ev l Hl) as [Hl1 Hns1].
  destruct (Imap.step now ev l) as [l1 ns1]. simpl in *.
  rewrite decide_True by done.
  specialize (IH l1 Hl1). destruct (Imap.run_skipping now evs l1) as [l2 ns2].
  simpl in *. rewrite timeouts_app. lia.
Qed.

(** C2, as stated, fails for the listener on its own: when the server
    cannot be reached, the failure after the last attempt and the close
    that follows it each call [onTimeout], and a listener whose timeout
    has fired goes on polling and delivers the next message. *)
Lemma onTimeout_twice_and_mail_after_timeout :
  ((Imap.CallDisconnect ∉ Sample.unreachable)
   ∧ Imap.timeouts (snd (Imap.run 0 Sample.unreachable
                           (Imap.new Sample.lead_inbox true))) = 2%nat)
  ∧ ((Imap.CallDisconnect ∉ Sample.late_mail)
     ∧ ∃ e, snd (Imap.run 0 Sample.late_mail (Imap.new Sample.lead_inbox true))
            = [Imap.onTimeout; Imap.onEmail e]).
Proof.
  split; split.
  - intros H. repeat (apply elem_of_cons in H as [H|H]; [discriminate|]).
    by apply elem_of_nil in H.
  - reflexivity.
  - intros H. repeat (apply elem_of_cons in H as [H|H]; [discriminate|]).
    by apply elem_of_nil in H.
  - eexists. reflexivity.
Qed.

(** C2, amended.  A wait timeout that is pending fires [onTimeout] at most
    once, a disconnected listener never calls [onTimeout], and a listener
    whose owner disconnects it when [onTimeout] is called, as the
    orchestrator's skip does, calls it at most once in its lifetime. *)
Theorem onTimeout_once_when_owner_disconnects :
  ∀ (now : Z) (acts : list Imap.Action) (evs : list Imap.Event) (l : Imap.ImapListener),
    snd (Imap.step now Imap.WaitTimeout (fst (Imap.step now Imap.WaitTimeout l))) = []
    ∧ Imap.timeouts (snd (Imap.run now acts (Imap.disconnect l))) = 0%nat
    ∧ (Imap.timeouts (snd (Imap.run_skipping now evs l)) ≤ 1)%nat.
Proof.
  intros now acts evs l. split; [|split].
  - simpl. destruct (Imap.waitTimer l) eqn:Hw; simpl.
    + by destruct (Imap.isDestroyed l).
    + by rewrite Hw.
  - by apply run_destroyed.
  - revert l. induction evs as [|ev evs IH]; intros l; [cbv; lia|].
    simpl. pose proof (step_at_most_one now ev l) as Hone.
    destruct (Imap.step now ev l) as [l1 ns1]. simpl in Hone.
    case_decide as Hns1.
    + specialize (IH l1). destruct (Imap.run_skipping now evs l1) as [l2 ns2].
      simpl in *. rewrite timeouts_app. lia.
    + pose proof (run_skipping_destroyed now evs (Imap.disconnect l1) eq_refl) as Hrest.
      destruct (Imap.run_skipping now evs (Imap.disconnect l1)) as [l2 ns2].
      simpl in *. rewrite timeouts_app.
      assert (Imap.timeouts ns1 ≤ length ns1)%nat by apply length_filter.
      lia.
Qed.

(** ** Orchestrator: composing facts about the memory *)

Import Orchestrator Spec.

(** The timer [setTimeout] returns is not pending, and none an object
    holds. *)
Lemma elem_of_held t w :
  t ∈ held w ↔ ∃ a o, objects w !! a = Some o ∧ t ∈ timers o.
Proof.
  unfold held. rewrite elem_of_union_list. split.
  - intros (X & HX & Ht). apply list_elem_of_fmap in HX as (o & -> & Ho).
    apply list_elem_of_fmap in Ho as ([a o'] & -> & Hao).
    apply elem_of_map_to_list in Hao. exists a, o'. split; [done|].
    by apply elem_of_list_to_set in Ht.
  - intros (a & o & Ha & Ht). exists (list_to_set (timers o)). split.
    + apply list_elem_of_fmap. exists o. split; [done|].
      apply list_elem_of_fmap. exists (a, o). split; [done|].
      by apply elem_of_map_to_list.
    + by apply elem_of_list_to_set.
Qed.

Lemma newTimer_fresh w : timeouts w !! newTimer w = None.
Proof.
  apply not_elem_of_dom. intros H.
  apply (is_fresh (dom (timeouts w) ∪ held w)). apply elem_of_union. by left.
Qed.

Lemma held_same w w' :
  (∀ t, (∃ a o, objects w' !! a = Some o ∧ t ∈ timers o)
        ↔ (∃ a o, objects w !! a = Some o ∧ t ∈ timers o)) →
  held w' = held w.
Proof. intros H. apply set_eq. intros t. by rewrite !elem_of_held. Qed.

Lemma held_alter f a w :
  (∀ o, timers (f o) = timers o) →
  held (on_objects (alter f a) w) = held w.
Proof.
  intros Hf. apply held_same. intros t. simpl. split.
  - intros (b & o & Hb & Ht). destruct (decide (b = a)) as [->|Hne].
    + rewrite lookup_alter_eq in Hb. destruct (objects w !! a) as [o0|] eqn:Ha; [|done].
      simpl in Hb. injection Hb as <-. rewrite Hf in Ht. by exists a, o0.
    + rewrite lookup_alter_ne in Hb by done. by exists b, o.
  - intros (b & o & Hb & Ht). destruct (decide (b = a)) as [->|Hne].
    + exists a, (f o). rewrite lookup_alter_eq, Hb. split; [done|]. by rewrite Hf.
    + exists b, o. by rewrite lookup_alter_ne.
Qed.

Lemma held_insert a o w w' :
  objects w !! a = None → timers o = [] →
  objects w' = <[a := o]> (objects w) →
  held w' = held w.
Proof.
  intros Ha Ho Hw'. apply held_same. intros t. rewrite Hw'. split.
  - intros (b & o' & Hb & Ht). destruct (decide (b = a)) as [->|Hne].
    + rewrite lookup_insert_eq in Hb. injection Hb as <-. rewrite Ho in Ht.
      by apply elem_of_nil in Ht.
    + rewrite lookup_insert_ne in Hb by done. by exists b, o'.
  - intros (b & o' & Hb & Ht). exists b, o'. split; [|done].
    rewrite lookup_insert_ne; [done|]. intros ->. by rewrite Ha in Hb.
Qed.

Lemma held_objects w w' : objects w' = objects w → held w' = held w.
Proof. unfold held. by intros ->. Qed.

Lemma newTimer_same w w' :
  timeouts w' = timeouts w → held w' = held w → newTimer w' = newTimer w.
Proof. unfold newTimer. by intros -> ->. Qed.

Lemma harmless_objects f w : harmless w (on_objects f w).
Proof. by repeat split. Qed.

Lemma harmless_activeSessions f w : harmless w (on_activeSessions f w).
Proof. by repeat split. Qed.

Lemma harmless_imapListeners f w : harmless w (on_imapListeners f w).
Proof. by repeat split. Qed.

Lemma harmless_domain_accounts tbl w : harmless w (with_domain_accounts tbl w).
Proof. by repeat split. Qed.

Lemma harmless_clear t w : harmless w (on_timeouts (delete t) w).
Proof.
  repeat split. simpl. intros t' delay d lead inc orig.
  rewrite lookup_delete. by case_decide.
Qed.

Lemma harmless_nextLead t delay d w :
  harmless w (on_timeouts (insert t (delay, nextLead d)) w).
Proof.
  repeat split. simpl. intros t' delay' d' lead inc orig.
  rewrite lookup_insert. by case_decide.
Qed.

Lemma harmless_firstLead t delay d a s w :
  harmless w (on_timeouts (insert t (delay, firstLead d a s)) w).
Proof.
  repeat split. simpl. intros t' delay' d' lead inc orig.
  rewrite lookup_insert. by case_decide.
Qed.

Section Composition.
Context {R : World → World → Prop} (HR : Frame R).

Lemma keeps_ret {A} (x : A) : keeps R (ret x).
Proof. intros w. apply (frame_refl R HR). Qed.

Lemma keeps_mret {A} (x : A) : keeps R (mret x).
Proof. apply keeps_ret. Qed.

Lemma keeps_throw {A} e : keeps R (throw (A:=A) e).
Proof. intros w. apply (frame_refl R HR). Qed.

Lemma keeps_gets {A} (f : World → A) : keeps R (gets f).
Proof. intros w. apply (frame_refl R HR). Qed.

Lemma keeps_lift {A} (r : Error + A) : keeps R (lift r).
Proof. intros w. apply (frame_refl R HR). Qed.

Lemma keeps_deref {A} (o : option A) : keeps R (deref o).
Proof. destruct o; [apply keeps_ret|apply keeps_throw]. Qed.

Lemma keeps_bind {A B} (m : M A) (k : A → M B) :
  keeps R m → (∀ x, keeps R (k x)) → keeps R (m ≫= k).
Proof.
  intros Hm Hk w. unfold mbind, M_bind, bind.
  specialize (Hm w). destruct (m w) as [[e|x] w1]; [exact Hm|].
  eapply (frame_trans R HR); [exact Hm|apply Hk].
Qed.

Lemma keeps_catch {A} (m : M A) (h : Error → M A) :
  keeps R m → (∀ e, keeps R (h e)) → keeps R (catch m h).
Proof.
  intros Hm Hh w. unfold catch.
  specialize (Hm w). destruct (m w) as [[e|x] w1]; [|exact Hm].
  eapply (frame_trans R HR); [exact Hm|apply Hh].
Qed.

Lemma keeps_modify (f : World → World) :
  (∀ w, harmless w (f w)) → keeps R (modify f).
Proof. intros Hf w. apply (frame_harmless R HR), Hf. Qed.

End Composition.

Create HintDb keeps discriminated.

#[export] Hint Resolve keeps_ret keeps_mret keeps_throw keeps_gets keeps_lift keeps_deref : keeps.
#[export] Hint Resolve harmless_objects harmless_activeSessions harmless_imapListeners
  harmless_domain_accounts harmless_clear harmless_nextLead harmless_firstLead : keeps.
#[export] Hint Extern 1 (_ ≠ _) => discriminate : keeps.
#[export] Hint Extern 1 (_ = _) => reflexivity : keeps.

(** One step of a proof that a computation keeps a relation: split a
    sequence, a handler or a case distinction, or close a primitive. *)
Ltac keeps_step :=
  lazymatch goal with
  | |- keeps _ (mbind _ _) => apply keeps_bind; [assumption| |intros ?]
  | |- keeps _ (catch _ _) => apply keeps_catch; [assumption| |intros ?]
  | |- keeps _ (modify _) => apply keeps_modify; [assumption|intros ?; eauto with keeps]
  | |- keeps _ (match ?x with _ => _ end) => destruct x
  | |- keeps _ (let _ := _ in _) => cbv zeta
  | |- keeps _ _ => solve [eauto with keeps]
  end.

Ltac keeps_auto := repeat keeps_step.

Section Generic.
Context {R : World → World → Prop} (HR : Frame R).

Lemma keeps_registered d : keeps R (registered d).
Proof. unfold registered. keeps_auto. Qed.

Lemma keeps_read a : keeps R (read a).
Proof. unfold read. keeps_auto. Qed.

Lemma keeps_update a f : keeps R (update a f).
Proof. unfold update. keeps_auto. Qed.

Lemma keeps_disconnect l : keeps R (disconnect l).
Proof. unfold disconnect. keeps_auto. Qed.

Lemma keeps_connect ok l : keeps R (connect ok l).
Proof. unfold connect. keeps_auto. Qed.

Lemma keeps_newImapListener config onE onT : keeps R (newImapListener config onE onT).
Proof. unfold newImapListener. keeps_auto. Qed.

Lemma keeps_clearTimeout t : keeps R (clearTimeout t).
Proof. unfold clearTimeout. keeps_auto. Qed.

Lemma keeps_clearTimeouts ts : keeps R (clearTimeouts ts).
Proof.
  induction ts as [|t ts IH]; simpl; [apply (keeps_ret HR)|].
  apply (keeps_bind HR); [apply keeps_clearTimeout|done].
Qed.

Lemma keeps_setTimeout_nextLead d delay : keeps R (setTimeout (nextLead d) delay).
Proof. unfold setTimeout. keeps_auto. Qed.

Lemma keeps_setTimeout_firstLead d a s delay :
  keeps R (setTimeout (firstLead d a s) delay).
Proof. unfold setTimeout. keeps_auto. Qed.

Lemma keeps_domainAccountRepo_updateStatus env d st :
  keeps R (domainAccountRepo_updateStatus env d st).
Proof. unfold domainAccountRepo_updateStatus. keeps_auto. Qed.

Lemma keeps_sendEmail env config params : keeps R (sendEmail env config params).
Proof. unfold sendEmail. keeps_auto. Qed.

End Generic.


#[export] Hint Resolve keeps_registered keeps_read keeps_update keeps_disconnect
  keeps_connect keeps_newImapListener keeps_clearTimeout keeps_clearTimeouts
  keeps_setTimeout_nextLead keeps_setTimeout_firstLead
  keeps_domainAccountRepo_updateStatus keeps_sendEmail : keeps.

Lemma keeps_status {R : World → World → Prop} env session_id st extras :
  allows_status R → SessionRepo.x_current_lead_index extras = None →
  keeps R (sessionRepo_updateStatus env session_id st extras).
Proof. intros HR Hx w. by apply HR. Qed.

Lemma keeps_log {R : World → World → Prop} env data :
  allows_log R → MailLogRepo.d_direction data ≠ replied →
  keeps R (mailLogRepo_create env data).
Proof. intros HR Hx w. by apply HR. Qed.

#[export] Hint Resolve keeps_status keeps_log : keeps.

(** The functions of the orchestrator that write no lead index and log
    no reply keep every relation of the kind above. *)
Section Handlers.
Context {R : World → World → Prop} (HR : Frame R) (Hstatus : allows_status R).

Lemma keeps_dropLeadListener a : keeps R (dropLeadListener a).
Proof. unfold dropLeadListener. keeps_auto. Qed.

Lemma keeps_dropDomainListener a : keeps R (dropDomainListener a).
Proof. unfold dropDomainListener. keeps_auto. Qed.

Lemma keeps_cleanupSession d : keeps R (cleanupSession d).
Proof. unfold cleanupSession. keeps_auto. Qed.

Lemma keeps_completeSession env d : keeps R (completeSession env d).
Proof.
  unfold completeSession. pose proof keeps_cleanupSession. keeps_auto.
Qed.

Lemma keeps_failSession env d errorMessage : keeps R (failSession env d errorMessage).
Proof.
  unfold failSession. pose proof keeps_cleanupSession. keeps_auto.
Qed.

Lemma keeps_setupLeadAutoReply env d lead mid original :
  keeps R (setupLeadAutoReply env d lead mid original).
Proof.
  unfold setupLeadAutoReply. pose proof keeps_dropLeadListener. keeps_auto.
Qed.

Lemma keeps_setupDomainReplyListener env d from mid :
  keeps R (setupDomainReplyListener env d from mid).
Proof.
  unfold setupDomainReplyListener. pose proof keeps_dropDomainListener. keeps_auto.
Qed.

Lemma keeps_pauseWarmup env d : keeps R (pauseWarmup env d).
Proof.
  unfold pauseWarmup.
  pose proof keeps_dropLeadListener. pose proof keeps_dropDomainListener.
  keeps_auto.
Qed.

Lemma keeps_stopWarmup env d : keeps R (stopWarmup env d).
Proof.
  unfold stopWarmup. pose proof keeps_failSession. keeps_auto.
Qed.

End Handlers.

#[export] Hint Resolve keeps_dropLeadListener keeps_dropDomainListener
  keeps_cleanupSession keeps_completeSession keeps_failSession
  keeps_setupLeadAutoReply keeps_setupDomainReplyListener
  keeps_pauseWarmup keeps_stopWarmup : keeps.


(** *** Running a computation step by step *)

Lemma wp_bind {A B} (m : M A) (k : A → M B) Q E w :
  wp m (λ x w', wp (k x) Q E w') E w → wp (m ≫= k) Q E w.
Proof.
  unfold wp, mbind, M_bind, bind. by destruct (m w) as [[e|x] w'].
Qed.

Lemma wp_catch {A} (m : M A) (h : Error → M A) Q E w :
  wp m Q (λ w', ∀ e, wp (h e) Q E w') w → wp (catch m h) Q E w.
Proof.
  unfold wp, catch. destruct (m w) as [[e|x] w']; [|done]. intros H. apply H.
Qed.

Lemma wp_ret {A} (x : A) (Q : A → World → Prop) E w : Q x w → wp (ret x) Q E w.
Proof. done. Qed.

Lemma wp_throw {A} e (Q : A → World → Prop) (E : World → Prop) w :
  E w → wp (throw e) Q E w.
Proof. done. Qed.

Lemma wp_gets {A} (f : World → A) (Q : A → World → Prop) E w :
  Q (f w) w → wp (gets f) Q E w.
Proof. done. Qed.

Lemma wp_modify (f : World → World) (Q : unit → World → Prop) E w :
  Q tt (f w) → wp (modify f) Q E w.
Proof. done. Qed.

Lemma wp_lift {A} (r : Error + A) (Q : A → World → Prop) (E : World → Prop) w :
  match r with inr x => Q x w | inl _ => E w end → wp (lift r) Q E w.
Proof. unfold wp, lift. by destruct r. Qed.

Lemma wp_deref {A} (o : option A) (Q : A → World → Prop) (E : World → Prop) w :
  match o with Some x => Q x w | None => E w end → wp (deref o) Q E w.
Proof. by destruct o. Qed.

Lemma wp_sendEmail env config params (Q : Smtp.SendEmailResult → World → Prop)
    (E : World → Prop) w :
  (∀ result, Q result w) → E w → wp (sendEmail env config params) Q E w.
Proof.
  intros HQ HE. unfold wp, sendEmail.
  destruct (Smtp.sendEmail _ _ _ _); simpl; auto.
Qed.

(** A computation that keeps [R], used as a whole. *)
Lemma wp_keeps {A} (R : World → World → Prop) (m : M A) Q (E : World → Prop) w :
  keeps R m → (∀ w', R w w' → (∀ x, Q x w') ∧ E w') → wp m Q E w.
Proof.
  intros Hm H. specialize (Hm w). unfold wp.
  destruct (m w) as [[e|x] w']; simpl in Hm; by apply H.
Qed.

Lemma wp_updateStatus env session_id st extras
    (Q : option WarmupSession.t → World → Prop) E w :
  Q (fst (SessionRepo.updateStatus (now env) session_id st extras (warmup_sessions w)))
    (with_warmup_sessions
       (snd (SessionRepo.updateStatus (now env) session_id st extras (warmup_sessions w))) w) →
  wp (sessionRepo_updateStatus env session_id st extras) Q E w.
Proof.
  unfold wp, sessionRepo_updateStatus. by destruct (SessionRepo.updateStatus _ _ _ _ _).
Qed.

Lemma wp_log env data (Q : MailLog.t → World → Prop) E w :
  Q (fst (MailLogRepo.create (now env) (log_uuid env) data (mail_logs w)))
    (with_mail_logs
       (snd (MailLogRepo.create (now env) (log_uuid env) data (mail_logs w))) w) →
  wp (mailLogRepo_create env data) Q E w.
Proof. done. Qed.

Lemma wp_snd {A} (m : M A) (Q : World → Prop) w :
  wp m (λ _, Q) Q w → Q (snd (m w)).
Proof. unfold wp. by destruct (m w) as [[e|x] w']. Qed.

(** *** Session rows by id *)

Lemma updateStatus_table now session_id st extras tbl :
  snd (SessionRepo.updateStatus now session_id st extras tbl)
  = (λ r, if decide (WarmupSession.id r = session_id)
          then SessionRepo.assign now st extras r else r) <$> tbl.
Proof.
  unfold SessionRepo.updateStatus.
  by destruct (SessionRepo.update_where_id _ _ _) as [rows tbl'] eqn:H; injection H as _ <-.
Qed.

Lemma updateStatus_row now session_id st extras tbl :
  fst (SessionRepo.updateStatus now session_id st extras tbl)
  = SessionRepo.assign now st extras <$> SessionRepo.findById session_id tbl.
Proof.
  unfold SessionRepo.updateStatus, SessionRepo.findById, first_row.
  pose proof (update_where_id_rows session_id (SessionRepo.assign now st extras) tbl
                (λ _, eq_refl)) as Hrows.
  destruct (SessionRepo.update_where_id _ _ _) as [rows tbl']. simpl in *. subst rows.
  by destruct (filter _ tbl).
Qed.

Lemma findById_fmap session_id (g : WarmupSession.t → WarmupSession.t) tbl :
  (∀ r, WarmupSession.id (g r) = WarmupSession.id r) →
  SessionRepo.findById session_id (g <$> tbl) = g <$> SessionRepo.findById session_id tbl.
Proof.
  intros Hg. unfold SessionRepo.findById, first_row.
  rewrite filter_fmap_stable by (intros r; by rewrite Hg).
  by destruct (filter _ tbl).
Qed.

Lemma findById_id session_id tbl r :
  SessionRepo.findById session_id tbl = Some r → WarmupSession.id r = session_id.
Proof.
  unfold SessionRepo.findById, first_row. intros H.
  assert (Hr : r ∈ filter (λ r, WarmupSession.id r = session_id) tbl).
  { destruct (filter _ tbl); simplify_eq/=. left. }
  by apply list_elem_of_filter in Hr as [Hr _].
Qed.

Lemma findById_updateStatus sid now session_id st extras tbl :
  SessionRepo.findById sid (snd (SessionRepo.updateStatus now session_id st extras tbl))
  = (λ r, if decide (sid = session_id) then SessionRepo.assign now st extras r else r)
      <$> SessionRepo.findById sid tbl.
Proof.
  rewrite updateStatus_table, findById_fmap by (intros r; by case_decide).
  destruct (SessionRepo.findById sid tbl) as [r|] eqn:Hr; [|done]. simpl.
  apply findById_id in Hr. rewrite Hr. by repeat case_decide.
Qed.

Lemma findById_app sid tbl row r :
  SessionRepo.findById sid tbl = Some r → SessionRepo.findById sid (tbl ++ [row]) = Some r.
Proof.
  unfold SessionRepo.findById, first_row. rewrite filter_app.
  by destruct (filter _ tbl).
Qed.

Lemma findById_primary_key tbl r :
  NoDup (WarmupSession.id <$> tbl) → r ∈ tbl →
  SessionRepo.findById (WarmupSession.id r) tbl = Some r.
Proof.
  intros Hkey Hr. unfold SessionRepo.findById. by rewrite filter_primary_key.
Qed.

Lemma steady_refl tbl : steady tbl tbl.
Proof. intros sid r Hr. exists r. split; [done|]. split; [done|lia]. Qed.

Lemma steady_trans tbl1 tbl2 tbl3 : steady tbl1 tbl2 → steady tbl2 tbl3 → steady tbl1 tbl3.
Proof.
  intros H12 H23 sid r1 Hr1. destruct (H12 sid r1 Hr1) as (r2 & Hr2 & Hd & Hle).
  destruct (H23 sid r2 Hr2) as (r3 & Hr3 & Hd' & Hle'). exists r3.
  split; [done|]. split; [congruence|lia].
Qed.

(** An update that writes an index no smaller than the stored one. *)
Lemma steady_updateStatus now session_id st extras tbl :
  (∀ i r, SessionRepo.x_current_lead_index extras = Some i →
          SessionRepo.findById session_id tbl = Some r →
          (WarmupSession.current_lead_index r ≤ i)%Z) →
  steady tbl (snd (SessionRepo.updateStatus now session_id st extras tbl)).
Proof.
  intros Hi sid r Hr. rewrite findById_updateStatus, Hr. simpl.
  eexists. split; [done|]. case_decide as Hsid; [|split; [done|lia]]. subst sid. simpl.
  split; [done|].
  destruct (SessionRepo.x_current_lead_index extras) as [i|] eqn:Hx; simpl; [|lia].
  by apply Hi.
Qed.

(** One step of a run. *)
Ltac wp_step :=
  cbv beta iota;
  lazymatch goal with
  | |- wp (mbind _ _) _ _ _ => apply wp_bind
  | |- wp (ret _) _ _ _ => apply wp_ret
  | |- wp (mret _) _ _ _ => apply wp_ret
  | |- wp (throw _) _ _ _ => apply wp_throw
  | |- wp (gets _) _ _ _ => apply wp_gets
  | |- wp (modify _) _ _ _ => apply wp_modify
  | |- wp (lift _) _ _ _ => apply wp_lift
  | |- wp (deref _) _ _ _ => apply wp_deref
  | |- wp (registered _) _ _ _ => unfold registered
  | |- wp (read _) _ _ _ => unfold read
  | |- wp (let _ := _ in _) _ _ _ => cbv zeta
  end.

(** *** Runs taken as a whole *)

Lemma wp_of_snd {A} (m : M A) (Q : World → Prop) w :
  Q (snd (m w)) → wp m (λ _, Q) Q w.
Proof. unfold wp. by destruct (m w) as [[e|x] w']. Qed.

Lemma wp_swallow (m : M unit) (Q : World → Prop) w :
  wp m (λ _, Q) Q w → wp (catch m (λ _, ret tt)) (λ _, Q) Q w.
Proof. unfold wp, catch. by destruct (m w) as [[e|x] w']. Qed.

Lemma first_row_elem {A} (rows : list A) (x : A) : first_row rows = Some x → x ∈ rows.
Proof. destruct rows; intros [= <-]. left. Qed.

Lemma snd_then_ret {A} (m : M A) w : snd ((m;; ret tt) w) = snd (m w).
Proof. unfold mbind, M_bind, bind. by destruct (m w) as [[e|x] w']. Qed.



(** *** The control facade *)

(** C5. With no lead account a start fails and changes nothing: no
    session row is created or reset and no account is written; when the
    domain account exists and is not already running, the failure is the
    validation error about the missing leads. *)
Theorem startWarmup_without_leads :
  ∀ (decrypt : string → string + string) (env : Env) (d : string) (w : World),
    lead_accounts w = [] →
    (∃ e, startWarmup decrypt env d w = (inl e, w))
    ∧ (∀ account,
         activeSessions w !! d = None →
         findDomainById decrypt d (domain_accounts w) = inr (Some account) →
         startWarmup decrypt env d w = (inl NoLeadAccounts, w)
         ∧ validation_error NoLeadAccounts = true).
Proof.
  intros decrypt env d w Hleads.
  unfold startWarmup, registered, mbind, M_bind, bind, gets, lift, throw.
  destruct (activeSessions w !! d); [split; [by eexists|done]|].
  destruct (findDomainById decrypt d (domain_accounts w)) as [e|[account|]];
    [split; [by eexists|done]| |split; [by eexists|done]].
  rewrite Hleads. cbn [findAllLeads order_by_created_at_asc foldr map_decrypt length].
  rewrite decide_True by done.
  split; [by eexists|]. by intros account' _ _.
Qed.

Lemma startWarmup_without_leads_witness :
  let w := mkWorld ∅ ∅ ∅ ∅ Sample.sessions [] [Sample.domain] [] in
  lead_accounts w = []
  ∧ startWarmup Sample.plain (Sample.env 20 "u1") "d1" w = (inl NoLeadAccounts, w).
Proof.
  intros w. split; [reflexivity|].
  destruct (startWarmup_without_leads Sample.plain (Sample.env 20 "u1") "d1" w eq_refl)
    as [_ H].
  apply (H Sample.domain); reflexivity.
Defined.

Lemma pauseWarmup_deregisters env d w r w1 :
  pauseWarmup env d w = (inr r, w1) → activeSessions w1 !! d = None.
Proof.
  intros H.
  unfold pauseWarmup, registered, update, dropLeadListener, dropDomainListener, read,
    disconnect, sessionRepo_updateStatus, domainAccountRepo_updateStatus in H.
  unfold mbind, M_bind, bind, mret, M_ret, ret, throw, gets, modify, deref in H.
  repeat (case_match; try discriminate; simplify_eq/=).
  all: apply lookup_delete_eq.
Qed.

Lemma anything_frame : Frame (λ _ _ : World, True).
Proof. by split. Qed.

Lemma pauseWarmup_row env d w row w1 :
  pauseWarmup env d w = (inr (Some row), w1) → WarmupSession.status row = paused.
Proof.
  intros H.
  assert (Hwp : wp (pauseWarmup env d)
                  (λ r _, ∀ row, r = Some row → WarmupSession.status row = paused)
                  (λ _, True) w); [|unfold wp in Hwp; rewrite H in Hwp; by apply Hwp].
  clear H. unfold pauseWarmup. pose proof anything_frame.
  do 3 wp_step. destruct (activeSessions w !! d) as [a|]; [|done].
  wp_step. apply (wp_keeps (λ _ _, True)); [keeps_auto|]. intros w2 _. split; [intros _|done].
  wp_step. apply (wp_keeps (λ _ _, True)); [keeps_auto|]. intros w3 _. split; [intros _|done].
  wp_step. apply (wp_keeps (λ _ _, True)); [keeps_auto|]. intros w4 _. split; [intros _|done].
  do 5 wp_step. destruct (objects w4 !! a) as [active|]; [|done].
  wp_step. apply (wp_keeps (λ _ _, True)); [keeps_auto|]. intros w5 _. split; [intros _|done].
  wp_step. apply (wp_keeps (λ _ _, True)); [keeps_auto|]. intros w6 _. split; [intros _|done].
  do 2 wp_step. destruct (session active) as [s|]; [|done].
  wp_step. apply wp_updateStatus. rewrite updateStatus_row.
  wp_step. apply (wp_keeps (λ _ _, True)); [keeps_auto|]. intros w7 _. split; [intros _|done].
  do 3 wp_step. intros row'. destruct (SessionRepo.findById _ _); by intros [= <-].
Qed.

(** C3, as stated, fails: the first pause removes the orchestrator from
    the registry, and the second pause is rejected. *)
Lemma second_pause_is_rejected :
  ∃ row w1,
    pauseWarmup (Sample.env 20 "u3") "d1" Sample.running = (inr (Some row), w1)
    ∧ pauseWarmup (Sample.env 21 "u4") "d1" w1 = (inl NoActiveSession, w1).
Proof. do 2 eexists. split; vm_compute; reflexivity. Qed.

(** C3, amended.  A pause that succeeds returns the row as paused and
    removes the orchestrator, so that a second pause is rejected, with the
    error "No active warm-up session found for this domain account", and
    changes nothing; a stop for a domain account with no orchestrator and
    no row of today that is neither completed nor failed succeeds and
    changes nothing. *)
Theorem pause_twice_rejected_and_stop_noop :
  ∀ (env env' : Env) (d : string) (w w1 : World) (r : option WarmupSession.t),
    (pauseWarmup env d w = (inr r, w1) →
     (∀ row, r = Some row → WarmupSession.status row = paused)
     ∧ pauseWarmup env' d w1 = (inl NoActiveSession, w1)
     ∧ message NoActiveSession = "No active warm-up session found for this domain account")
    ∧ (activeSessions w !! d = None →
       SessionRepo.findActiveToday (now env) d (warmup_sessions w) = None →
       stopWarmup env d w = (inr tt, w)).
Proof.
  intros env env' d w w1 r. split.
  - intros Hpause. split.
    + intros row ->. by eapply pauseWarmup_row.
    + split; [|reflexivity]. apply pauseWarmup_deregisters in Hpause.
      unfold pauseWarmup, registered, mbind, M_bind, bind, gets. by rewrite Hpause.
  - intros Hreg Hrow.
    unfold stopWarmup, registered, mbind, M_bind, bind, gets. by rewrite Hreg, Hrow.
Qed.

Lemma pause_twice_rejected_and_stop_noop_witness :
  ∃ row w1,
    pauseWarmup (Sample.env 20 "u3") "d1" Sample.running = (inr (Some row), w1)
    ∧ WarmupSession.status row = paused
    ∧ pauseWarmup (Sample.env 21 "u4") "d1" w1 = (inl NoActiveSession, w1)
    ∧ activeSessions Sample.stopped !! "d1" = None
    ∧ SessionRepo.findActiveToday 20 "d1" (warmup_sessions Sample.stopped) = None
    ∧ stopWarmup (Sample.env 20 "u3") "d1" Sample.stopped = (inr tt, Sample.stopped).
Proof.
  destruct (pauseWarmup (Sample.env 20 "u3") "d1" Sample.running) as [[e|[row|]] w1] eqn:Hp;
    [vm_compute in Hp; discriminate| |vm_compute in Hp; discriminate].
  exists row, w1.
  destruct (pause_twice_rejected_and_stop_noop (Sample.env 20 "u3") (Sample.env 21 "u4")
              "d1" Sample.running w1 (Some row)) as [Hpause _].
  destruct (pause_twice_rejected_and_stop_noop (Sample.env 20 "u3") (Sample.env 21 "u4")
              "d1" Sample.stopped w1 (Some row)) as [_ Hstop].
  destruct (Hpause Hp) as (Hrow & Hsecond & _).
  assert (H1 : activeSessions Sample.stopped !! "d1" = None) by reflexivity.
  assert (H2 : SessionRepo.findActiveToday 20 "d1" (warmup_sessions Sample.stopped) = None)
    by reflexivity.
  split; [reflexivity|]. split; [by apply Hrow|]. split; [exact Hsecond|].
  split; [exact H1|]. split; [exact H2|]. exact (Hstop H1 H2).
Defined.


(** *** Deliveries *)

(** C4 fails on the code.  The first delivery of the message is accepted:
    it is logged, the listener is disconnected and the reply timer is set.
    The second delivery of the same message, which the disconnected
    listener still makes, is accepted again: it appends a second log entry
    and sets a second reply timer. *)
Lemma second_delivery_is_processed_again :
  let w1 := happen Sample.plain (Sample.env 20 "u6") (imapEvent 0 (Imap.ParseDone 0))
              Sample.fetched_twice in
  let w2 := happen Sample.plain (Sample.env 21 "u7") (imapEvent 0 (Imap.ParseDone 0)) w1 in
  (MailLog.direction <$> mail_logs Sample.fetched_twice = [sent]
   ∧ size (timeouts Sample.fetched_twice) = 0%nat)
  ∧ (MailLog.direction <$> mail_logs w1 = [sent; received]
     ∧ size (timeouts w1) = 1%nat
     ∧ destroyed 0 w1
     ∧ leadImapListener <$> objects w1 !! 0%nat = Some None)
  ∧ (MailLog.direction <$> mail_logs w2 = [sent; received; received]
     ∧ MailLog.message_id <$> mail_logs w2
       = [Some "<u2@corp.io>"; Some "<u2@corp.io>"; Some "<u2@corp.io>"]
     ∧ size (timeouts w2) = 2%nat).
Proof.
  intros w1 w2. split; [|split].
  - split; reflexivity.
  - split; [reflexivity|]. split; [reflexivity|]. split; [|reflexivity].
    unfold destroyed. eexists. split; vm_compute; reflexivity.
  - split; [reflexivity|]. split; reflexivity.
Qed.


(** *** Replies and the messages they answer *)

Lemma received_before_mono n n' mid w w' :
  (n ≤ n')%nat → mail_logs w `prefix_of` mail_logs w' →
  received_before n mid w → received_before n' mid w'.
Proof.
  intros Hn Hpre (j & e & Hj & He & Hdir & Hmid).
  exists j, e. split; [lia|]. split; [|done]. by eapply prefix_lookup_Some.
Qed.

Lemma received_before_length n mid w :
  received_before n mid w → received_before (length (mail_logs w)) mid w.
Proof.
  intros (j & e & Hj & He & Hdir & Hmid). exists j, e.
  split; [by eapply lookup_lt_Some|done].
Qed.

(** Memories with the same log and the same timers. *)
Lemma threads_same w w' :
  mail_logs w' = mail_logs w → timeouts w' = timeouts w → threads w w'.
Proof.
  intros Hlog Htim. split; [by rewrite Hlog|].
  intros [Hans Haw]. split.
  - intros i r. rewrite Hlog. intros Hr Hdir.
    apply (received_before_mono i i _ w w'); [done|by rewrite Hlog|by apply Hans].
  - intros t delay d lead inc orig. rewrite Htim, Hlog. intros Ht.
    apply (received_before_mono (length (mail_logs w)) (length (mail_logs w)) _ w w');
      [done|by rewrite Hlog|by eapply Haw].
Qed.

Lemma threads_frame : Frame threads.
Proof.
  split.
  - intros w. by apply threads_same.
  - intros w1 w2 w3 [Hp12 H12] [Hp23 H23]. split; [by etrans|auto].
  - intros w w' (_ & Hlog & Htim). split; [by rewrite Hlog|].
    intros [Hans Haw]. split.
    + intros i r. rewrite Hlog. intros Hr Hdir.
      apply (received_before_mono i i _ w w'); [done|by rewrite Hlog|by apply Hans].
    + intros t delay d lead inc orig Ht. rewrite Hlog.
      apply (received_before_mono (length (mail_logs w)) (length (mail_logs w)) _ w w');
        [done|by rewrite Hlog|].
      eapply Haw, Htim, Ht.
Qed.

Lemma threads_status env session_id st extras :
  keeps threads (sessionRepo_updateStatus env session_id st extras).
Proof.
  intros w. apply threads_same; unfold sessionRepo_updateStatus;
    by destruct (SessionRepo.updateStatus _ _ _ _ _).
Qed.

Lemma threads_allows_status : allows_status threads.
Proof. intros env session_id st extras w _. apply threads_status. Qed.

Lemma threads_create env d : keeps threads (sessionRepo_create env d).
Proof.
  intros w. apply threads_same; unfold sessionRepo_create;
    by destruct (SessionRepo.create _ _ _ _).
Qed.

(** The log after one more entry. *)
Lemma threads_entry env data w :
  (MailLogRepo.d_direction data = replied →
   threaded w →
   received_before (length (mail_logs w)) (or_null (MailLogRepo.d_in_reply_to data)) w) →
  threads w (snd (mailLogRepo_create env data w)).
Proof.
  intros Hreply. unfold mailLogRepo_create, MailLogRepo.create; simpl.
  set (row := MailLog.mk _ _ _ _ _ _ _ _ _ _ _).
  set (w' := with_mail_logs _ w).
  assert (Hpre : mail_logs w `prefix_of` mail_logs w') by (by apply prefix_app_r).
  split; [done|]. intros [Hans Haw]. split.
  - intros i r Hr Hdir. simpl in Hr.
    destruct (decide (i < length (mail_logs w))%nat) as [Hi|Hi].
    + rewrite lookup_app_l in Hr by done.
      apply (received_before_mono i i _ w w'); [done|exact Hpre|by apply Hans].
    + apply lookup_lt_Some in Hr as Hlt. rewrite length_app in Hlt. simpl in Hlt.
      assert (i = length (mail_logs w)) as -> by lia.
      rewrite lookup_app_r, Nat.sub_diag in Hr by done. simpl in Hr.
      injection Hr as <-. simpl in *.
      apply (received_before_mono (length (mail_logs w)) (length (mail_logs w)) _ w w');
        [done|exact Hpre|by apply Hreply].
  - intros t delay d lead inc orig Ht.
    apply (received_before_mono (length (mail_logs w)) _ _ w w');
      [|exact Hpre|by eapply (Haw t)].
    simpl. rewrite length_app. lia.
Qed.

Lemma threads_allows_log : allows_log threads.
Proof. intros env data w Hdir. apply threads_entry. by intros ?. Qed.

#[export] Hint Resolve threads_frame threads_status threads_allows_status threads_create
  threads_allows_log : keeps.

Lemma processLead_threads env d a active : keeps threads (processLead env d a active).
Proof. pose proof threads_frame. unfold processLead. keeps_auto. Qed.

Lemma processNextLead_threads env d : keeps threads (processNextLead env d).
Proof.
  pose proof threads_frame. pose proof processLead_threads.
  unfold processNextLead. keeps_auto.
Qed.

Lemma skipToNextLead_threads env d reason : keeps threads (skipToNextLead env d reason).
Proof. pose proof threads_frame. unfold skipToNextLead. keeps_auto. Qed.

Lemma domainOnEmail_run_threads env d expected a incoming :
  keeps threads (domainOnEmail_run env d expected a incoming).
Proof. pose proof threads_frame. unfold domainOnEmail_run. keeps_auto. Qed.

Lemma onTimeout_run_threads env cb : keeps threads (onTimeout_run env cb).
Proof.
  pose proof threads_frame. pose proof skipToNextLead_threads.
  unfold onTimeout_run. keeps_auto.
Qed.

Lemma startWarmup_threads decrypt env d : keeps threads (startWarmup decrypt env d).
Proof. pose proof threads_frame. unfold startWarmup, launch. keeps_auto. Qed.


(** A part of a run that keeps [threads], taken as a whole. *)
Ltac wp_threads :=
  apply (wp_keeps threads); [pose proof threads_frame; keeps_auto|].

(** A reply timer set for a message that is in the log as received. *)
Lemma threads_replyTimer t delay d lead inc orig w :
  received_before (length (mail_logs w)) (or_null (Some (Imap.messageId inc))) w →
  threads w (on_timeouts (insert t (delay, replyTimer d lead inc orig)) w).
Proof.
  intros Hrec. split; [done|]. intros [Hans Haw]. split; [exact Hans|].
  intros t' delay' d' lead' inc' orig'. simpl. rewrite lookup_insert.
  case_decide; [by intros [= <- <- <- <- <-]|apply Haw].
Qed.

Lemma leadOnEmail_run_threads env d lead original a incoming :
  keeps threads (leadOnEmail_run env d lead original a incoming).
Proof.
  intros w. apply wp_snd. unfold leadOnEmail_run. apply wp_swallow.
  pose proof threads_frame as HF.
  do 5 wp_step. destruct (objects w !! a) as [active|]; [|apply HF].
  destruct (negb _); [apply HF|].
  do 2 wp_step. destruct (session active) as [s|]; [|apply HF].
  wp_step. apply wp_log. set (w1 := with_mail_logs _ w).
  assert (H1 : threads w w1).
  { apply (threads_entry env _ w). by intros [=]. }
  assert (Hrec : received_before (length (mail_logs w1))
                   (or_null (Some (Imap.messageId incoming))) w1).
  { exists (length (mail_logs w)). eexists. unfold w1; simpl.
    rewrite length_app, lookup_app_r, Nat.sub_diag by done. simpl.
    split; [lia|]. split; [done|]. done. }
  wp_step. wp_threads. intros w2 H2.
  assert (H02 : threads w w2) by (by eapply (frame_trans threads HF)).
  split; [intros _|done].
  wp_step. unfold setTimeout. do 5 wp_step. set (w3 := on_timeouts _ w2).
  assert (H03 : threads w w3).
  { eapply (frame_trans threads HF); [exact H02|]. apply threads_replyTimer.
    destruct H2 as [Hpre _].
    apply (received_before_mono (length (mail_logs w1)) _ _ w1 w2);
      [by apply prefix_length|done|done]. }
  wp_threads. intros w4 H4.
  assert (threads w w4); [|done]. by eapply (frame_trans threads HF).
Qed.

Lemma sendLeadReply_threads env d lead incoming original w :
  (threaded w →
   received_before (length (mail_logs w)) (or_null (Some (Imap.messageId incoming))) w) →
  threads w (snd (sendLeadReply env d lead incoming original w)).
Proof.
  intros Hrec. apply wp_snd. unfold sendLeadReply.
  pose proof threads_frame as HF.
  do 3 wp_step. destruct (activeSessions w !! d) as [a|]; [|apply HF].
  do 5 wp_step. destruct (objects w !! a) as [active|]; [|apply HF].
  destruct (isPaused active); [apply HF|].
  do 2 wp_step. destruct (generated env) as [e|replyContent]; [apply HF|].
  wp_step. apply wp_sendEmail; [intros sendResult|apply HF].
  do 2 wp_step. destruct (session active) as [s|]; [|apply HF].
  wp_step. apply wp_log. set (w1 := with_mail_logs _ w).
  assert (H1 : threads w w1).
  { apply (threads_entry env _ w). intros _. exact Hrec. }
  wp_threads. intros w2 H2.
  assert (threads w w2); [|done]. by eapply (frame_trans threads HF).
Qed.

Lemma notify_threads env L n : keeps threads (notify env L n).
Proof.
  destruct n as [e|]; simpl.
  - destruct (emailCallback L); simpl.
    + apply leadOnEmail_run_threads.
    + apply domainOnEmail_run_threads.
  - apply onTimeout_run_threads.
Qed.

Lemma notify_all_threads env L ns : keeps threads (notify_all env L ns).
Proof.
  pose proof threads_frame. pose proof notify_threads.
  induction ns as [|n ns IH]; simpl; keeps_auto.
Qed.

Lemma imap_happens_threads env l ev : keeps threads (imap_happens env l ev).
Proof.
  pose proof threads_frame. pose proof notify_all_threads.
  unfold imap_happens. keeps_auto.
Qed.

Lemma timer_fires_threaded env t w :
  threaded w → threaded (snd (timer_fires env t w)).
Proof.
  intros Hw. pose proof threads_frame as HF.
  apply wp_snd. unfold timer_fires.
  do 2 wp_step. destruct (timeouts w !! t) as [[delay task]|] eqn:Ht; [|done].
  wp_step. unfold clearTimeout. wp_step. set (w1 := on_timeouts _ w).
  assert (H1 : threaded w1).
  { apply (frame_harmless threads HF w w1); [apply harmless_clear|done]. }
  destruct task as [d lead incoming original|d|d a s]; unfold task_run.
  - do 3 wp_step. destruct (activeSessions w1 !! d) as [a|]; [|done].
    do 5 wp_step. destruct (objects w1 !! a) as [active|]; [|done].
    destruct (isPaused active); [done|].
    apply wp_of_snd. apply sendLeadReply_threads; [|done].
    intros _. destruct Hw as [_ Haw]. exact (Haw _ _ _ _ _ _ Ht).
  - apply wp_of_snd.
    assert (Hk : keeps threads (catch (processNextLead env d)
                   (λ error, failSession env d (message error)))).
    { pose proof processNextLead_threads. keeps_auto. }
    by apply Hk.
  - apply wp_of_snd.
    assert (Hk : keeps threads
                   (catch (active ← read a; processLead env d a (with_session s active))
                      (λ error, failSession env d (message error)))).
    { pose proof processLead_threads. keeps_auto. }
    by apply Hk.
Qed.

Lemma happen_threaded decrypt env h w :
  threaded w → threaded (happen decrypt env h w).
Proof.
  intros Hw. pose proof threads_frame as HF.
  destruct h as [[d|d|d|d]|l ev|t]; unfold happen; simpl.
  - rewrite snd_then_ret. by apply startWarmup_threads.
  - rewrite snd_then_ret. by apply (keeps_pauseWarmup HF threads_allows_status).
  - rewrite snd_then_ret. by apply startWarmup_threads.
  - by apply (keeps_stopWarmup HF threads_allows_status).
  - by apply imap_happens_threads.
  - by apply timer_fires_threaded.
Qed.

Lemma history_threaded decrypt hs w :
  threaded w → threaded (history decrypt hs w).
Proof.
  revert w. induction hs as [|[env h] hs IH]; intros w Hw; [done|].
  simpl. by apply IH, happen_threaded.
Qed.


(** C9, as stated, fails: the lead replies to whatever message from the
    domain address its mailbox delivers.  When that message carries
    another Message-ID than the one generated at the send, the reply's
    [in_reply_to] is the Message-ID of no [sent] entry; when it carries
    none, the reply's [in_reply_to] is null. *)
Lemma reply_not_to_a_sent_entry :
  let log1 := mail_logs (Sample.replied_world (Some "<x9@mx.corp.io>")) in
  let log2 := mail_logs (Sample.replied_world None) in
  (MailLog.direction <$> log1 = [sent; received; replied]
   ∧ MailLog.message_id <$> log1
     = [Some "<u2@corp.io>"; Some "<x9@mx.corp.io>"; Some "<u8@gmail.com>"]
   ∧ MailLog.in_reply_to <$> log1 = [None; None; Some "<x9@mx.corp.io>"]
   ∧ Exists (λ r, MailLog.direction r = replied
                  ∧ Forall (λ e, ¬ (MailLog.direction e = sent
                                    ∧ MailLog.message_id e = MailLog.in_reply_to r)) log1)
       log1)
  ∧ (MailLog.direction <$> log2 = [sent; received; replied]
     ∧ MailLog.in_reply_to <$> log2 = [None; None; None]).
Proof.
  intros log1 log2. split.
  - split; [reflexivity|]. split; [reflexivity|]. split; [reflexivity|].
    apply (bool_decide_unpack _). vm_compute. exact I.
  - split; reflexivity.
Qed.

(** C9, amended.  In every history of the process that starts with no
    pending timer and a log in which every reply answers a received
    message logged before it, every [replied] entry of the log has as
    [in_reply_to] the Message-ID column of an entry with direction
    [received] that precedes it in the log: the message the lead's mailbox
    delivered (both are null when that message carried no Message-ID). *)
Theorem reply_answers_received_message :
  ∀ (decrypt : string → string + string) (hs : list (Env * Happening)) (w0 : World)
    (i : nat) (r : MailLog.t),
    answered w0 →
    timeouts w0 = ∅ →
    mail_logs (history decrypt hs w0) !! i = Some r →
    MailLog.direction r = replied →
    ∃ j e, (j < i)%nat
           ∧ mail_logs (history decrypt hs w0) !! j = Some e
           ∧ MailLog.direction e = received
           ∧ MailLog.message_id e = MailLog.in_reply_to r.
Proof.
  intros decrypt hs w0 i r Hans Htim Hr Hdir.
  assert (H0 : threaded w0).
  { split; [exact Hans|]. intros t delay d lead inc orig. by rewrite Htim, lookup_empty. }
  destruct (history_threaded decrypt hs w0 H0) as [Hanswered _].
  exact (Hanswered i r Hr Hdir).
Qed.

Lemma reply_answers_received_message_witness :
  answered Sample.fresh_world
  ∧ timeouts Sample.fresh_world = ∅
  ∧ ∃ r e,
      mail_logs (Sample.replied_world (Some "<x9@mx.corp.io>")) !! 2%nat = Some r
      ∧ MailLog.direction r = replied
      ∧ mail_logs (Sample.replied_world (Some "<x9@mx.corp.io>")) !! 1%nat = Some e
      ∧ MailLog.direction e = received
      ∧ MailLog.message_id e = MailLog.in_reply_to r.
Proof.
  assert (H1 : answered Sample.fresh_world).
  { intros i r Hr. simpl in Hr. by rewrite lookup_nil in Hr. }
  assert (H2 : timeouts Sample.fresh_world = ∅) by reflexivity.
  split; [exact H1|]. split; [exact H2|].
  destruct (mail_logs (Sample.replied_world (Some "<x9@mx.corp.io>")) !! 2%nat)
    as [r|] eqn:Hr; [|vm_compute in Hr; discriminate].
  assert (Hdir : MailLog.direction r = replied).
  { vm_compute in Hr. by injection Hr as <-. }
  destruct (reply_answers_received_message Sample.plain
              (Sample.reply_history (Some "<x9@mx.corp.io>")) Sample.fresh_world
              2 r H1 H2 Hr Hdir) as (j & e & Hj & He & Hrec & Hmid).
  exists r.
  destruct j as [|[|j]]; [| |lia].
  - vm_compute in He. injection He as <-. discriminate Hrec.
  - exists e. repeat split; assumption.
Defined.


(** *** Skipping a lead: the memory it leaves *)

(** Reduction of the monad and of the fields of the memory. *)
Ltac reduce :=
  repeat
    first
      [ progress unfold mbind, M_bind, bind, mret, M_ret, ret, throw, catch, gets,
          modify, lift, deref, registered, read, update, disconnect
      | progress cbv beta iota zeta
      | progress cbn [activeSessions objects imapListeners timeouts warmup_sessions
          mail_logs domain_accounts lead_accounts on_objects on_imapListeners
          on_activeSessions on_timeouts with_warmup_sessions with_domain_accounts
          with_mail_logs session domainAccount leads domainImapListener
          leadImapListener isPaused timers with_session with_domainImapListener
          with_leadImapListener with_isPaused with_timers fst snd] ].

Lemma sessionRepo_updateStatus_run env session_id st extras w :
  sessionRepo_updateStatus env session_id st extras w
  = (inr (fst (SessionRepo.updateStatus (now env) session_id st extras (warmup_sessions w))),
     with_warmup_sessions
       (snd (SessionRepo.updateStatus (now env) session_id st extras (warmup_sessions w))) w).
Proof.
  unfold sessionRepo_updateStatus. by destruct (SessionRepo.updateStatus _ _ _ _ _).
Qed.

Lemma clearTimeouts_run ts w :
  clearTimeouts ts w = (inr tt, on_timeouts (cleared ts) w).
Proof.
  revert w. induction ts as [|t ts IH]; intros w; [by destruct w|].
  simpl. unfold mbind, M_bind, bind, clearTimeout, modify. rewrite IH. by destruct w.
Qed.

Lemma cleared_None ts (pending : gmap nat (Z * Task)) t :
  pending !! t = None → cleared ts pending !! t = None.
Proof.
  revert pending. induction ts as [|t' ts IH]; intros pending Ht; [done|].
  simpl. apply IH. rewrite lookup_delete. by case_decide.
Qed.

Lemma on_objects_id f a active w :
  objects w !! a = Some active → f active = active → on_objects (alter f a) w = w.
Proof.
  intros Ha Hf. destruct w; unfold on_objects; simpl in *. f_equal.
  apply alter_id. intros x Hx. rewrite Ha in Hx. by simplify_eq.
Qed.

Lemma objects_disconnected l w : objects (disconnected l w) = objects w.
Proof. by destruct l. Qed.

Lemma dropLeadListener_run a active w :
  objects w !! a = Some active →
  dropLeadListener a w
  = (inr tt, on_objects (alter (with_leadImapListener None) a)
               (disconnected (leadImapListener active) w)).
Proof.
  intros Ha. unfold dropLeadListener, disconnected. reduce. rewrite Ha. reduce.
  destruct (leadImapListener active) as [l|] eqn:Hl; reduce; [done|].
  rewrite (on_objects_id _ a active); [done..|].
  destruct active; simpl in *. by subst.
Qed.

Lemma dropDomainListener_run a active w :
  objects w !! a = Some active →
  dropDomainListener a w
  = (inr tt, on_objects (alter (with_domainImapListener None) a)
               (disconnected (domainImapListener active) w)).
Proof.
  intros Ha. unfold dropDomainListener, disconnected. reduce. rewrite Ha. reduce.
  destruct (domainImapListener active) as [l|] eqn:Hl; reduce; [done|].
  rewrite (on_objects_id _ a active); [done..|].
  destruct active; simpl in *. by subst.
Qed.

Lemma cleanupSession_run d a active w :
  activeSessions w !! d = Some a →
  objects w !! a = Some active →
  cleanupSession d w
  = (inr tt,
     on_activeSessions (delete d)
       (on_timeouts (cleared (timers active))
          (disconnected (domainImapListener active)
             (disconnected (leadImapListener active) w)))).
Proof.
  intros Hreg Ha. unfold cleanupSession, disconnected.
  reduce. rewrite Hreg. reduce. rewrite Ha. reduce.
  destruct (leadImapListener active), (domainImapListener active); reduce;
    rewrite clearTimeouts_run; by reduce.
Qed.

Lemma completeSession_run env d a active s w :
  activeSessions w !! d = Some a →
  objects w !! a = Some active →
  session active = Some s →
  completeSession env d w
  = cleanupSession d
      (with_domain_accounts (updateDomainStatus (now env) d idle (domain_accounts w))
         (with_warmup_sessions
            (snd (SessionRepo.updateStatus (now env) (WarmupSession.id s) completed
                    {| SessionRepo.x_current_lead_index := None;
                       SessionRepo.x_last_message_id := None;
                       SessionRepo.x_error_message := None;
                       SessionRepo.x_completed_at := Some (Some (now env)) |}
                    (warmup_sessions w))) w)).
Proof.
  intros Hreg Ha Hs. unfold completeSession, domainAccountRepo_updateStatus.
  reduce. rewrite Hreg. reduce. rewrite Ha. reduce. rewrite Hs. reduce.
  rewrite sessionRepo_updateStatus_run. by reduce.
Qed.

Lemma destroyed_disconnected l w :
  is_Some (imapListeners w !! l) → destroyed l (disconnected (Some l) w).
Proof.
  intros [L HL]. unfold destroyed, disconnected. reduce.
  rewrite lookup_alter_eq, HL. by eexists.
Qed.

Lemma destroyed_stays_disconnected l l' w :
  destroyed l w → destroyed l (disconnected l' w).
Proof.
  intros (L & HL & Hd). destruct l' as [l'|]; [|by exists L].
  unfold destroyed, disconnected. reduce.
  rewrite lookup_alter. case_decide; [subst; rewrite HL|]; by eexists.
Qed.


Lemma disconnected_fields l w :
  activeSessions (disconnected l w) = activeSessions w
  ∧ objects (disconnected l w) = objects w
  ∧ timeouts (disconnected l w) = timeouts w
  ∧ warmup_sessions (disconnected l w) = warmup_sessions w
  ∧ domain_accounts (disconnected l w) = domain_accounts w.
Proof. by destruct l. Qed.


(** ** The control facade: what a start does *)

(** The memory after steps 6 to 8 of a start. *)
Lemma launch_run env d session account leads w :
  launch env d session account leads w
  = (inr session,
     on_timeouts
       (insert (newTimer w) (0%Z, firstLead d (fresh (dom (objects w))) session))
       (on_activeSessions (insert d (fresh (dom (objects w))))
          (on_objects
             (insert (fresh (dom (objects w)))
                (mkActive session account leads None None false []))
             (with_domain_accounts
                (updateDomainStatus (now env) d running (domain_accounts w)) w)))).
Proof.
  unfold launch, domainAccountRepo_updateStatus, setTimeout. reduce.
  set (w1 := on_activeSessions _ _).
  assert (Hnew : newTimer w1 = newTimer w).
  { apply newTimer_same; [done|].
    apply (held_insert (fresh (dom (objects w)))
             (mkActive session account leads None None false [])); [|done..].
    apply not_elem_of_dom, is_fresh. }
  by rewrite Hnew.
Qed.

(** A start that is rejected with one of the errors that [startWarmup]
    raises itself leaves the memory and the database as they were: each
    of them is raised before the first write.  An account with an
    orchestrator is rejected as already active; without one, an unknown
    account is rejected as not found, an empty list of leads as such, a
    completed row of today whose index has reached the number of leads
    as completed for today, and a row of today at work that is not paused
    as existing with its status.  (Errors of the database driver are not
    part of the model.) *)
Theorem startWarmup_rejected_changes_nothing :
  ∀ (decrypt : string → string + string) (env : Env) (d : string) (w : World),
    (∀ a, activeSessions w !! d = Some a →
          startWarmup decrypt env d w = (inl AlreadyActive, w))
    ∧ (∀ e w', startWarmup decrypt env d w = (inl e, w') →
               validation_error e = true → w' = w)
    ∧ (activeSessions w !! d = None →
       findDomainById decrypt d (domain_accounts w) = inr None →
       startWarmup decrypt env d w = (inl DomainNotFound, w))
    ∧ (∀ account,
         activeSessions w !! d = None →
         findDomainById decrypt d (domain_accounts w) = inr (Some account) →
         findAllLeads decrypt (lead_accounts w) = inr [] →
         startWarmup decrypt env d w = (inl NoLeadAccounts, w))
    ∧ (∀ account found c,
         activeSessions w !! d = None →
         findDomainById decrypt d (domain_accounts w) = inr (Some account) →
         findAllLeads decrypt (lead_accounts w) = inr found →
         found ≠ [] →
         SessionRepo.findCompletedToday (now env) d (warmup_sessions w) = Some c →
         (Z.of_nat (length found) ≤ WarmupSession.current_lead_index c)%Z →
         startWarmup decrypt env d w
         = (inl (CompletedForToday (length found) (WarmupSession.completed_at c)), w))
    ∧ (∀ account found s,
         activeSessions w !! d = None →
         findDomainById decrypt d (domain_accounts w) = inr (Some account) →
         findAllLeads decrypt (lead_accounts w) = inr found →
         found ≠ [] →
         SessionRepo.findCompletedToday (now env) d (warmup_sessions w) = None →
         SessionRepo.findActiveToday (now env) d (warmup_sessions w) = Some s →
         WarmupSession.status s ≠ paused →
         startWarmup decrypt env d w = (inl (SessionExists (WarmupSession.status s)), w)).
Proof.
  intros decrypt env d w. split; [|split; [|split; [|split; [|split]]]].
  - intros a Ha. unfold startWarmup. reduce. by rewrite Ha.
  - intros e w'. unfold startWarmup. reduce.
    destruct (activeSessions w !! d); reduce; [by intros [= <- <-]|].
    destruct (findDomainById decrypt d (domain_accounts w)) as [e1|[account|]]; reduce;
      [by intros [= <- <-]| |by intros [= <- <-]].
    destruct (findAllLeads decrypt (lead_accounts w)) as [e1|leads]; reduce;
      [by intros [= <- <-]|].
    case_decide; reduce; [by intros [= <- <-]|].
    destruct (SessionRepo.findCompletedToday _ _ _) as [c|]; reduce.
    + destruct (_ <? _)%Z; reduce; [|by intros [= <- <-]].
      rewrite sessionRepo_updateStatus_run. reduce. by rewrite launch_run.
    + destruct (SessionRepo.findActiveToday _ _ _) as [s|]; reduce.
      * case_decide; reduce; [|by intros [= <- <-]].
        rewrite sessionRepo_updateStatus_run. reduce.
        destruct (fst _); reduce; [by rewrite launch_run|].
        by intros [= <- <-] ?.
      * unfold sessionRepo_create.
        destruct (SessionRepo.create _ _ _ _) as [[row|] tbl]; reduce;
          [by rewrite launch_run|].
        by intros [= <- <-] ?.
  - intros Hreg Hacc. unfold startWarmup. reduce. rewrite Hreg. reduce.
    rewrite Hacc. by reduce.
  - intros account Hreg Hacc Hleads. unfold startWarmup. reduce. rewrite Hreg. reduce.
    rewrite Hacc. reduce. rewrite Hleads. by reduce.
  - intros account found c Hreg Hacc Hleads Hne Hc Hle. unfold startWarmup. reduce.
    rewrite Hreg. reduce. rewrite Hacc. reduce. rewrite Hleads. reduce.
    case_decide as Hn; [by destruct found|]. reduce. rewrite Hc. reduce.
    apply Z.ltb_ge in Hle. rewrite Hle. by reduce.
  - intros account found s Hreg Hacc Hleads Hne Hc Hs Hst. unfold startWarmup. reduce.
    rewrite Hreg. reduce. rewrite Hacc. reduce. rewrite Hleads. reduce.
    case_decide as Hn; [by destruct found|]. reduce. rewrite Hc. reduce.
    rewrite Hs. reduce. case_decide; [done|]. by reduce.
Qed.

Lemma startWarmup_rejected_changes_nothing_witness :
  activeSessions Sample.running !! "d1" = Some 0%nat
  ∧ startWarmup Sample.plain (Sample.env 20 "u3") "d1" Sample.running
    = (inl AlreadyActive, Sample.running)
  ∧ startWarmup Sample.plain (Sample.env 20 "u3") "d9" Sample.running
    = (inl DomainNotFound, Sample.running).
Proof.
  destruct (startWarmup_rejected_changes_nothing Sample.plain (Sample.env 20 "u3") "d1"
              Sample.running) as [Hactive _].
  destruct (startWarmup_rejected_changes_nothing Sample.plain (Sample.env 20 "u3") "d9"
              Sample.running) as (_ & _ & Hunknown & _).
  assert (Hreg : activeSessions Sample.running !! "d1" = Some 0%nat) by reflexivity.
  split; [exact Hreg|]. split; [exact (Hactive 0%nat Hreg)|].
  apply Hunknown; reflexivity.
Defined.

(** What [launch] leaves: the orchestrator registered under a new
    object, the account running, the flow set to begin. *)
Lemma launch_registers decrypt env env' d session account leads w :
  let a := fresh (dom (objects w)) in
  let w' := snd (launch env d session account leads w) in
  activeSessions w' !! d = Some a
  ∧ objects w !! a = None
  ∧ objects w' !! a = Some (mkActive session account leads None None false [])
  ∧ timeouts w' = <[newTimer w := (0%Z, firstLead d a session)]> (timeouts w)
  ∧ domain_accounts w' = updateDomainStatus (now env) d running (domain_accounts w)
  ∧ warmup_sessions w' = warmup_sessions w
  ∧ mail_logs w' = mail_logs w
  ∧ startWarmup decrypt env' d w' = (inl AlreadyActive, w').
Proof.
  intros a w'. unfold w'. rewrite launch_run. reduce.
  split; [apply lookup_insert_eq|]. split; [apply not_elem_of_dom, is_fresh|].
  split; [apply lookup_insert_eq|]. repeat (split; [done|]).
  unfold startWarmup. reduce. by rewrite lookup_insert_eq.
Qed.

(** The rows a query returns are rows of the table. *)
Lemma insert_desc_elem r x rows :
  x ∈ SessionRepo.insert_desc r rows ↔ x = r ∨ x ∈ rows.
Proof.
  induction rows as [|r' rows IH]; simpl.
  - by rewrite elem_of_cons.
  - destruct (_ <? _)%Z; [by rewrite elem_of_cons|].
    rewrite !elem_of_cons, IH. tauto.
Qed.

Lemma order_by_created_at_desc_elem x rows :
  x ∈ SessionRepo.order_by_created_at_desc rows ↔ x ∈ rows.
Proof.
  induction rows as [|r rows IH]; simpl; [done|].
  rewrite insert_desc_elem, elem_of_cons, IH. done.
Qed.

Lemma findActiveToday_elem now d tbl s :
  SessionRepo.findActiveToday now d tbl = Some s →
  s ∈ tbl ∧ WarmupSession.domain_account_id s = d
  ∧ WarmupSession.session_date s = CURRENT_DATE now
  ∧ WarmupSession.status s ≠ completed ∧ WarmupSession.status s ≠ failed.
Proof.
  intros Hs%first_row_elem%order_by_created_at_desc_elem%list_elem_of_filter. tauto.
Qed.

Lemma findCompletedToday_elem now d tbl c :
  SessionRepo.findCompletedToday now d tbl = Some c →
  c ∈ tbl ∧ WarmupSession.domain_account_id c = d
  ∧ WarmupSession.session_date c = CURRENT_DATE now
  ∧ WarmupSession.status c = completed.
Proof. intros Hc%first_row_elem%list_elem_of_filter. tauto. Qed.

Lemma findById_elem tbl r :
  r ∈ tbl → is_Some (SessionRepo.findById (WarmupSession.id r) tbl).
Proof.
  intros Hr. unfold SessionRepo.findById.
  assert (H : r ∈ filter (λ r', WarmupSession.id r' = WarmupSession.id r) tbl)
    by (by apply list_elem_of_filter).
  destruct (filter _ tbl); [by apply elem_of_nil in H|by eexists].
Qed.

Lemma startWarmup_succeeds decrypt env d w s w' :
  startWarmup decrypt env d w = (inr s, w') →
  ∃ account found row tbl,
    activeSessions w !! d = None
    ∧ findDomainById decrypt d (domain_accounts w) = inr (Some account)
    ∧ findAllLeads decrypt (lead_accounts w) = inr found
    ∧ found ≠ []
    ∧ (continues env d (length found) w row tbl ∨ resumes env d w row tbl
       ∨ creates env d w row tbl)
    ∧ s = Some row
    ∧ w' = snd (launch env d (Some row) account found (with_warmup_sessions tbl w)).
Proof.
  unfold startWarmup. reduce.
  destruct (activeSessions w !! d) eqn:Hreg; reduce; [done|].
  destruct (findDomainById decrypt d (domain_accounts w)) as [e1|[account|]] eqn:Hacc;
    reduce; [done| |done].
  destruct (findAllLeads decrypt (lead_accounts w)) as [e1|found] eqn:Hleads;
    reduce; [done|].
  case_decide as Hn; reduce; [done|].
  assert (Hne : found ≠ []) by (by intros ->).
  destruct (SessionRepo.findCompletedToday _ _ _) as [c|] eqn:Hc; reduce.
  - destruct (_ <? _)%Z eqn:Hlt; reduce; [|done].
    rewrite sessionRepo_updateStatus_run. reduce.
    destruct (SessionRepo.updateStatus _ _ _ _ _) as [row tbl] eqn:Hupd. reduce.
    assert (Hrow : is_Some row).
    { pose proof (updateStatus_row (now env) (WarmupSession.id c) sending
        {| SessionRepo.x_current_lead_index := Some (WarmupSession.current_lead_index c);
           SessionRepo.x_last_message_id := None;
           SessionRepo.x_error_message := Some None;
           SessionRepo.x_completed_at := Some None |} (warmup_sessions w)) as H.
      rewrite Hupd in H. simpl in H. rewrite H.
      apply findCompletedToday_elem in Hc as [Hc _].
      destruct (findById_elem _ _ Hc) as [c' ->]. by eexists. }
    destruct Hrow as [row' ->]. rewrite launch_run. intros [= <- <-].
    exists account, found, row', tbl. repeat (split; [done|]).
    split; [|by rewrite launch_run]. left. exists c. split; [done|].
    split; [by apply Z.ltb_lt|done].
  - destruct (SessionRepo.findActiveToday _ _ _) as [s0|] eqn:Hs0; reduce.
    + case_decide as Hpaused; reduce; [|done].
      rewrite sessionRepo_updateStatus_run. reduce.
      destruct (SessionRepo.updateStatus _ _ _ _ _) as [[row|] tbl] eqn:Hupd; reduce;
        [|done].
      rewrite launch_run. intros [= <- <-].
      exists account, found, row, tbl. repeat (split; [done|]).
      split; [|by rewrite launch_run]. right. left. by exists s0.
    + unfold sessionRepo_create.
      destruct (SessionRepo.create _ _ _ _) as [[row|] tbl] eqn:Hcreate; reduce; [|done].
      rewrite launch_run. intros [= <- <-].
      exists account, found, row, tbl. repeat (split; [done|]).
      split; [|by rewrite launch_run]. right. by right.
Qed.

(** The row a start returns is stored under its id, as a row of the
    account, when the table satisfies its primary key and the id drawn
    for a new row is unused. *)
Lemma started_row_stored env d n w row tbl :
  continues env d n w row tbl ∨ resumes env d w row tbl ∨ creates env d w row tbl →
  (WarmupSession.status row = pending ∨ WarmupSession.status row = sending)
  ∧ (NoDup (WarmupSession.id <$> warmup_sessions w) →
     session_uuid env ∉ (WarmupSession.id <$> warmup_sessions w) →
     SessionRepo.findById (WarmupSession.id row) tbl = Some row
     ∧ WarmupSession.domain_account_id row = d).
Proof.
  assert (Hupdate : ∀ r st extras,
            r ∈ warmup_sessions w → WarmupSession.domain_account_id r = d →
            SessionRepo.updateStatus (now env) (WarmupSession.id r) st extras
              (warmup_sessions w) = (Some row, tbl) →
            WarmupSession.status row = st
            ∧ (NoDup (WarmupSession.id <$> warmup_sessions w) →
               SessionRepo.findById (WarmupSession.id row) tbl = Some row
               ∧ WarmupSession.domain_account_id row = d)).
  { intros r st extras Hr Hd Hupd.
    pose proof (updateStatus_row (now env) (WarmupSession.id r) st extras
                  (warmup_sessions w)) as Hrow.
    pose proof (findById_updateStatus (WarmupSession.id r) (now env) (WarmupSession.id r)
                  st extras (warmup_sessions w)) as Hfind.
    rewrite Hupd in Hrow, Hfind. cbn [fst snd] in Hrow, Hfind.
    destruct (SessionRepo.findById _ (warmup_sessions w)) as [r'|] eqn:Hr'; [|done].
    simpl in Hrow, Hfind. rewrite decide_True in Hfind by done.
    injection Hrow as ->. split; [done|]. intros Hkey.
    rewrite (findById_primary_key _ _ Hkey Hr) in Hr'. injection Hr' as <-.
    by split. }
  intros [(c & Hc & _ & Hupd)|[(s & _ & Hs & _ & Hupd)|(_ & _ & Hcreate)]].
  - apply findCompletedToday_elem in Hc as (Hc & Hd & _).
    destruct (Hupdate _ _ _ Hc Hd Hupd) as [Hst Hrest]. split; [by right|]. auto.
  - apply findActiveToday_elem in Hs as (Hs & Hd & _).
    destruct (Hupdate _ _ _ Hs Hd Hupd) as [Hst Hrest]. split; [by right|]. auto.
  - destruct (filter (λ r, WarmupSession.domain_account_id r = d
                ∧ WarmupSession.session_date r = CURRENT_DATE (now env))
                (warmup_sessions w)) as [|e rest] eqn:Hexisting.
    + rewrite (create_inserts _ _ _ _ Hexisting) in Hcreate. injection Hcreate as <- <-.
      split; [by left|]. intros _ Hfresh. split; [|done].
      unfold SessionRepo.findById. rewrite filter_app, filter_none; [by rewrite filter_cons, decide_True|].
      intros x Hx Heq. apply Hfresh. simpl in Heq. rewrite <- Heq.
      by apply list_elem_of_fmap_2.
    + assert (He : e ∈ filter (λ r, WarmupSession.domain_account_id r = d
                ∧ WarmupSession.session_date r = CURRENT_DATE (now env))
                (warmup_sessions w)) by (rewrite Hexisting; left).
      apply list_elem_of_filter in He as [[Hd _] He].
      unfold SessionRepo.create in Hcreate. rewrite Hexisting in Hcreate.
      pose proof (update_where_id_rows (WarmupSession.id e) (SessionRepo.reset (now env))
                    (warmup_sessions w) (λ _, eq_refl)) as Hrows.
      destruct (SessionRepo.update_where_id _ _ _) as [rows tbl'] eqn:Hupd.
      injection Hcreate as Hrow <-. cbn [fst] in Hrows. subst rows.
      assert (Hfirst : ∃ e', SessionRepo.findById (WarmupSession.id e) (warmup_sessions w)
                             = Some e' ∧ row = SessionRepo.reset (now env) e').
      { unfold SessionRepo.findById.
        destruct (filter _ (warmup_sessions w)) as [|e' ?]; [done|].
        injection Hrow as <-. by exists e'. }
      destruct Hfirst as (e' & He' & ->). split; [by left|]. intros Hkey _.
      rewrite (findById_primary_key _ _ Hkey He) in He'. injection He' as <-.
      split; [|done]. cbn [WarmupSession.id SessionRepo.reset].
      unfold SessionRepo.update_where_id in Hupd. injection Hupd as _ <-.
      rewrite findById_fmap by (intros r; by case_decide).
      rewrite (findById_primary_key _ _ Hkey He). simpl. by rewrite decide_True.
Qed.

(** The status of the row a start returns, by the way the start took to
    it. *)
Lemma started_row_status env d n w row tbl :
  continues env d n w row tbl ∨ resumes env d w row tbl ∨ creates env d w row tbl →
  (continues env d n w row tbl ∧ WarmupSession.status row = sending)
  ∨ (resumes env d w row tbl ∧ WarmupSession.status row = sending)
  ∨ (creates env d w row tbl ∧ WarmupSession.status row = pending
     ∧ WarmupSession.current_lead_index row = 0%Z).
Proof.
  assert (Hupdate : ∀ i extras,
            SessionRepo.updateStatus (now env) i sending extras (warmup_sessions w)
            = (Some row, tbl) →
            WarmupSession.status row = sending).
  { intros i extras Hupd.
    pose proof (updateStatus_row (now env) i sending extras (warmup_sessions w)) as Hrow.
    rewrite Hupd in Hrow. cbn [fst] in Hrow.
    destruct (SessionRepo.findById _ _); [|done]. by injection Hrow as ->. }
  intros [Hway|[Hway|Hway]].
  - left. split; [done|]. destruct Hway as (c & _ & _ & Hupd). by eapply Hupdate.
  - right. left. split; [done|]. destruct Hway as (s & _ & _ & _ & Hupd). by eapply Hupdate.
  - right. right. split; [done|]. destruct Hway as (_ & _ & Hcreate).
    unfold SessionRepo.create in Hcreate.
    destruct (filter _ (warmup_sessions w)) as [|e rest].
    + by injection Hcreate as <- _.
    + pose proof (update_where_id_rows (WarmupSession.id e) (SessionRepo.reset (now env))
                    (warmup_sessions w) (λ _, eq_refl)) as Hrows.
      destruct (SessionRepo.update_where_id _ _ _) as [rows tbl'].
      injection Hcreate as Hrow _. cbn [fst] in Hrows. subst rows.
      destruct (filter _ (warmup_sessions w)) as [|e' ?]; [done|].
      by injection Hrow as <-.
Qed.

(** A start that succeeds returns the session row and leaves the table
    in one of three ways: it continues the row completed today, which is
    returned as sending; it resumes the paused row of today, which is
    returned as sending; or it creates or resets the row of today, which
    is returned as pending at lead index 0.  It
    registers one orchestrator for the account, in a new object that holds
    the row, the account and the leads as the repositories return them (at
    least one lead), no listener and no timer; it marks the account as
    running and writes nothing to the mail log.  A second start is then
    rejected.  When the table satisfies its primary key and the id drawn
    for a new row is unused, the row returned is the row stored under its
    id, and it is a row of the account. *)
Theorem startWarmup_registers_orchestrator :
  ∀ (decrypt : string → string + string) (env env' : Env) (d : string) (w w' : World)
    (s : option WarmupSession.t),
    startWarmup decrypt env d w = (inr s, w') →
    ∃ row active,
      s = Some row
      ∧ ((continues env d (length (leads active)) w row (warmup_sessions w')
          ∧ WarmupSession.status row = sending)
         ∨ (resumes env d w row (warmup_sessions w')
            ∧ WarmupSession.status row = sending)
         ∨ (creates env d w row (warmup_sessions w')
            ∧ WarmupSession.status row = pending
            ∧ WarmupSession.current_lead_index row = 0%Z))
      ∧ activeSessions w !! d = None
      ∧ activeSessions w' !! d = Some (fresh (dom (objects w)))
      ∧ objects w !! fresh (dom (objects w)) = None
      ∧ objects w' !! fresh (dom (objects w)) = Some active
      ∧ session active = Some row
      ∧ leads active ≠ []
      ∧ findAllLeads decrypt (lead_accounts w) = inr (leads active)
      ∧ findDomainById decrypt d (domain_accounts w) = inr (Some (domainAccount active))
      ∧ isPaused active = false
      ∧ domainImapListener active = None
      ∧ leadImapListener active = None
      ∧ timers active = []
      ∧ domain_accounts w' = updateDomainStatus (now env) d running (domain_accounts w)
      ∧ mail_logs w' = mail_logs w
      ∧ startWarmup decrypt env' d w' = (inl AlreadyActive, w')
      ∧ (NoDup (WarmupSession.id <$> warmup_sessions w) →
         session_uuid env ∉ (WarmupSession.id <$> warmup_sessions w) →
         stored (WarmupSession.id row) w' = Some row
         ∧ WarmupSession.domain_account_id row = d).
Proof.
  intros decrypt env env' d w w' s Hstart.
  destruct (startWarmup_succeeds _ _ _ _ _ _ Hstart)
    as (account & found & row & tbl & Hreg & Hacc & Hleads & Hne & Hway & -> & ->).
  destruct (started_row_stored _ _ _ _ _ _ Hway) as [_ Hstored].
  pose proof (started_row_status _ _ _ _ _ _ Hway) as Hst.
  destruct (launch_registers decrypt env env' d (Some row) account found
              (with_warmup_sessions tbl w)) as (H1 & H2 & H3 & _ & H5 & H6 & H7 & H8).
  exists row, (mkActive (Some row) account found None None false []).
  split; [done|]. split; [by rewrite H6|].
  repeat (split; [done|]). intros Hkey Hfresh. unfold stored. rewrite H6. auto.
Qed.

Lemma startWarmup_registers_orchestrator_witness :
  ∃ row w',
    startWarmup Sample.plain (Sample.env 10 "u1") "d1" Sample.fresh_world
    = (inr (Some row), w')
    ∧ WarmupSession.status row = pending
    ∧ activeSessions w' !! "d1" = Some 0%nat
    ∧ startWarmup Sample.plain (Sample.env 11 "u2") "d1" w' = (inl AlreadyActive, w').
Proof.
  destruct (startWarmup Sample.plain (Sample.env 10 "u1") "d1" Sample.fresh_world)
    as [[e|[row|]] w'] eqn:Hstart;
    [vm_compute in Hstart; discriminate| |vm_compute in Hstart; discriminate].
  destruct (startWarmup_registers_orchestrator Sample.plain (Sample.env 10 "u1")
              (Sample.env 11 "u2") "d1" Sample.fresh_world w' (Some row) Hstart)
    as (row' & active & Hrow & _ & _ & Hreg & _ & _ & _ & _ & _ & _ & _ & _ & _ & _ & _ & _
        & Hagain & _).
  exists row, w'. split; [done|].
  split; [vm_compute in Hstart; by injection Hstart as <- _|].
  split; [exact Hreg|exact Hagain].
Defined.

(** After the session of today was completed, a start is rejected as long
    as the completed row counts at least as many leads as there are; once
    leads were added it takes the completed row up again, in status
    sending at the lead index it had reached, with its completion time and
    its error cleared. *)
Theorem startWarmup_after_completion :
  ∀ (decrypt : string → string + string) (env : Env) (d : string) (w : World)
    (account : DomainAccount.t) (found : list LeadAccount.t) (c : WarmupSession.t),
    NoDup (WarmupSession.id <$> warmup_sessions w) →
    activeSessions w !! d = None →
    findDomainById decrypt d (domain_accounts w) = inr (Some account) →
    findAllLeads decrypt (lead_accounts w) = inr found →
    found ≠ [] →
    SessionRepo.findCompletedToday (now env) d (warmup_sessions w) = Some c →
    ((Z.of_nat (length found) ≤ WarmupSession.current_lead_index c)%Z →
     startWarmup decrypt env d w
     = (inl (CompletedForToday (length found) (WarmupSession.completed_at c)), w))
    ∧ ((WarmupSession.current_lead_index c < Z.of_nat (length found))%Z →
       ∃ row w',
         startWarmup decrypt env d w = (inr (Some row), w')
         ∧ WarmupSession.id row = WarmupSession.id c
         ∧ WarmupSession.status row = sending
         ∧ WarmupSession.current_lead_index row = WarmupSession.current_lead_index c
         ∧ WarmupSession.completed_at row = None
         ∧ WarmupSession.error_message row = None
         ∧ WarmupSession.last_message_id row = WarmupSession.last_message_id c
         ∧ stored (WarmupSession.id c) w' = Some row).
Proof.
  intros decrypt env d w account found c Hkey Hreg Hacc Hleads Hne Hc.
  assert (Hlen : length found ≠ 0%nat) by (by destruct found).
  assert (Hin : c ∈ warmup_sessions w) by (by apply findCompletedToday_elem in Hc as [? _]).
  pose proof (findById_primary_key _ _ Hkey Hin) as Hfind.
  split; intros Hi; unfold startWarmup; reduce; rewrite Hreg; reduce;
    rewrite Hacc; reduce; rewrite Hleads; reduce;
    rewrite decide_False by done; reduce; rewrite Hc; reduce.
  - by rewrite (proj2 (Z.ltb_ge _ _) Hi).
  - rewrite (proj2 (Z.ltb_lt _ _) Hi). rewrite sessionRepo_updateStatus_run. reduce.
    rewrite updateStatus_row, Hfind. simpl. rewrite launch_run.
    eexists _, _. split; [done|]. repeat (split; [done|]).
    unfold stored. reduce. rewrite findById_fmap by (intros r; by case_decide).
    rewrite Hfind. simpl. by rewrite decide_True.
Qed.

Lemma startWarmup_after_completion_witness :
  let done_at_2 :=
    [WarmupSession.mk "s1" "d1" 2 completed (Some "<u1@corp.io>") 0 (Some 10%Z)
       (Some 400%Z) None 10 500] in
  let w2 := mkWorld ∅ ∅ ∅ ∅ done_at_2 [] [Sample.domain] [Sample.leo; Sample.lea] in
  let lou :=
    LeadAccount.mk "l3" "Lou" "lou@gmail.com" "smtp.gmail.com" 587 true "secret"
      "imap.gmail.com" 993 true "secret" 3 3 in
  let w3 := mkWorld ∅ ∅ ∅ ∅ done_at_2 [] [Sample.domain] [Sample.leo; Sample.lea; lou] in
  startWarmup Sample.plain (Sample.env 600 "u9") "d1" w2
  = (inl (CompletedForToday 2 (Some 400%Z)), w2)
  ∧ ∃ row w',
      startWarmup Sample.plain (Sample.env 600 "u9") "d1" w3 = (inr (Some row), w')
      ∧ WarmupSession.status row = sending
      ∧ WarmupSession.current_lead_index row = 2%Z.
Proof.
  intros done_at_2 w2 lou w3.
  assert (Hkey : NoDup (WarmupSession.id <$> done_at_2))
    by (apply (bool_decide_unpack _); vm_compute; exact I).
  split.
  - refine (proj1 (startWarmup_after_completion Sample.plain (Sample.env 600 "u9") "d1" w2
                     Sample.domain [Sample.lea; Sample.leo] _ Hkey eq_refl eq_refl eq_refl
                     _ eq_refl) _); [done|]. simpl. lia.
  - destruct (proj2 (startWarmup_after_completion Sample.plain (Sample.env 600 "u9")
                       "d1" w3 Sample.domain [Sample.lea; Sample.leo; lou] _ Hkey
                       eq_refl eq_refl eq_refl ltac:(done) eq_refl))
      as (row & w' & Hstart & _ & Hst & Hidx & _); [simpl; lia|].
    by exists row, w'.
Defined.


(** ** The control facade: stop and pause *)

Lemma cleared_elem ts (pending : gmap nat (Z * Task)) t :
  t ∈ ts → cleared ts pending !! t = None.
Proof.
  revert pending. induction ts as [|t' ts IH]; intros pending; [by intros ?%elem_of_nil|].
  intros [->|Ht]%elem_of_cons; simpl; [|by apply IH].
  apply cleared_None, lookup_delete_eq.
Qed.

Lemma failSession_run env d errorMessage a active s w :
  activeSessions w !! d = Some a →
  objects w !! a = Some active →
  session active = Some s →
  failSession env d errorMessage w
  = cleanupSession d
      (with_domain_accounts (updateDomainStatus (now env) d idle (domain_accounts w))
         (with_warmup_sessions
            (snd (SessionRepo.updateStatus (now env) (WarmupSession.id s) failed
                    {| SessionRepo.x_current_lead_index := None;
                       SessionRepo.x_last_message_id := None;
                       SessionRepo.x_error_message := Some (Some errorMessage);
                       SessionRepo.x_completed_at := None |}
                    (warmup_sessions w))) w)).
Proof.
  intros Hreg Ha Hs. unfold failSession, domainAccountRepo_updateStatus.
  reduce. rewrite Hreg. reduce. rewrite Ha. reduce. rewrite Hs. reduce.
  rewrite sessionRepo_updateStatus_run. by reduce.
Qed.

(** What the end of a session leaves in the memory: the listeners of the
    orchestrator are disconnected, its timers cleared, its entry in the
    registry removed. *)
Lemma cleanupSession_leaves d a active w :
  activeSessions w !! d = Some a →
  objects w !! a = Some active →
  let w' := snd (cleanupSession d w) in
  fst (cleanupSession d w) = inr tt
  ∧ activeSessions w' = delete d (activeSessions w)
  ∧ objects w' = objects w
  ∧ warmup_sessions w' = warmup_sessions w
  ∧ domain_accounts w' = domain_accounts w
  ∧ mail_logs w' = mail_logs w
  ∧ timeouts w' = cleared (timers active) (timeouts w)
  ∧ (∀ l, leadImapListener active = Some l ∨ domainImapListener active = Some l →
          is_Some (imapListeners w !! l) → destroyed l w')
  ∧ (∀ l, destroyed l w → destroyed l w').
Proof.
  intros Hreg Ha w'. unfold w'. rewrite (cleanupSession_run d a active) by done.
  cbn [fst snd]. set (ll := leadImapListener active). set (dl := domainImapListener active).
  destruct (disconnected_fields ll w) as (Hreg1 & Hobj1 & Htim1 & Htbl1 & Hacc1).
  destruct (disconnected_fields dl (disconnected ll w)) as (Hreg2 & Hobj2 & Htim2 & Htbl2 & Hacc2).
  assert (Hlog : mail_logs (disconnected dl (disconnected ll w)) = mail_logs w)
    by (by destruct dl, ll).
  reduce. split; [done|]. split; [congruence|]. split; [congruence|].
  split; [congruence|]. split; [congruence|]. split; [done|]. split; [congruence|].
  split.
  - intros l Hl Hsome.
    assert (Hgone : destroyed l (disconnected dl (disconnected ll w))).
    { destruct (decide (ll = Some l)) as [Hll|Hll].
      - apply destroyed_stays_disconnected. rewrite Hll. by apply destroyed_disconnected.
      - destruct Hl as [Hl|Hl]; [done|]. rewrite Hl. apply destroyed_disconnected.
        destruct ll as [l0|]; [|done]. unfold disconnected. reduce.
        rewrite lookup_alter_ne by congruence. done. }
    destruct Hgone as (L & HL & Hd). exists L. split; [|done]. by reduce.
  - intros l Hl.
    destruct (destroyed_stays_disconnected l dl _
                (destroyed_stays_disconnected l ll w Hl)) as (L & HL & Hd).
    exists L. split; [|done]. by reduce.
Qed.

(** A stop ends the session as failed.  For a running orchestrator, the
    row of its session is stored as failed with the message of a manual
    stop, its lead index, last Message-ID and completion time as they
    were; the account is idle, the orchestrator is removed from the
    registry, its listeners are disconnected, its timers cleared and none
    is set, and the mail log is as it was.  Without an orchestrator, the
    row of today that is neither completed nor failed, if there is one, is
    stored as failed in the same way and the account is idle. *)
Theorem stopWarmup_fails_session :
  ∀ (env : Env) (d : string) (w : World),
    let stopped_by_user (row row' : WarmupSession.t) :=
      WarmupSession.status row' = failed
      ∧ WarmupSession.error_message row' = Some "Manually stopped by user"
      ∧ WarmupSession.current_lead_index row' = WarmupSession.current_lead_index row
      ∧ WarmupSession.last_message_id row' = WarmupSession.last_message_id row
      ∧ WarmupSession.completed_at row' = WarmupSession.completed_at row in
    (∀ a active s row,
       activeSessions w !! d = Some a →
       objects w !! a = Some active →
       session active = Some s →
       stored (WarmupSession.id s) w = Some row →
       ∃ w' row',
         stopWarmup env d w = (inr tt, w')
         ∧ stored (WarmupSession.id s) w' = Some row'
         ∧ stopped_by_user row row'
         ∧ activeSessions w' = delete d (activeSessions w)
         ∧ domain_accounts w' = updateDomainStatus (now env) d idle (domain_accounts w)
         ∧ mail_logs w' = mail_logs w
         ∧ (∀ t, t ∈ timers active → timeouts w' !! t = None)
         ∧ (∀ t, timeouts w !! t = None → timeouts w' !! t = None)
         ∧ (∀ l, leadImapListener active = Some l ∨ domainImapListener active = Some l →
                 is_Some (imapListeners w !! l) → destroyed l w'))
    ∧ (∀ s,
         activeSessions w !! d = None →
         NoDup (WarmupSession.id <$> warmup_sessions w) →
         SessionRepo.findActiveToday (now env) d (warmup_sessions w) = Some s →
         ∃ w' row',
           stopWarmup env d w = (inr tt, w')
           ∧ stored (WarmupSession.id s) w' = Some row'
           ∧ stopped_by_user s row'
           ∧ activeSessions w' = activeSessions w
           ∧ timeouts w' = timeouts w
           ∧ domain_accounts w' = updateDomainStatus (now env) d idle (domain_accounts w)
           ∧ mail_logs w' = mail_logs w).
Proof.
  intros env d w stopped_by_user. split.
  - intros a active s row Hreg Ha Hs Hrow.
    set (w1 := with_domain_accounts (updateDomainStatus (now env) d idle (domain_accounts w))
                 (with_warmup_sessions
                    (snd (SessionRepo.updateStatus (now env) (WarmupSession.id s) failed
                            {| SessionRepo.x_current_lead_index := None;
                               SessionRepo.x_last_message_id := None;
                               SessionRepo.x_error_message :=
                                 Some (Some "Manually stopped by user");
                               SessionRepo.x_completed_at := None |}
                            (warmup_sessions w))) w)).
    assert (Hstop : stopWarmup env d w = cleanupSession d w1).
    { unfold stopWarmup. reduce. rewrite Hreg.
      apply (failSession_run env d _ a active s); done. }
    destruct (cleanupSession_leaves d a active w1 Hreg Ha)
      as (Hret & Hreg' & Hobj' & Htbl' & Hacc' & Hlog' & Htim' & Hgone & _).
    destruct (cleanupSession d w1) as [r w'] eqn:Hclean. cbn [fst snd] in *. subst r.
    exists w', (SessionRepo.assign (now env) failed
                  {| SessionRepo.x_current_lead_index := None;
                     SessionRepo.x_last_message_id := None;
                     SessionRepo.x_error_message := Some (Some "Manually stopped by user");
                     SessionRepo.x_completed_at := None |} row).
    split; [done|]. split.
    { unfold stored in *. rewrite Htbl'. unfold w1. reduce.
      rewrite findById_updateStatus, Hrow. simpl. by rewrite decide_True. }
    split; [done|]. split; [done|]. split; [done|]. split; [done|]. split.
    { intros t Ht. rewrite Htim'. by apply cleared_elem. }
    split; [|done]. intros t Ht. rewrite Htim'. by apply cleared_None.
  - intros s Hreg Hkey Hs.
    assert (Hin : s ∈ warmup_sessions w) by (by apply findActiveToday_elem in Hs as [? _]).
    pose proof (findById_primary_key _ _ Hkey Hin) as Hfind.
    unfold stopWarmup. reduce. rewrite Hreg. reduce. rewrite Hs. reduce.
    rewrite sessionRepo_updateStatus_run. reduce.
    unfold domainAccountRepo_updateStatus. reduce.
    eexists _, _. split; [done|]. split.
    { unfold stored. reduce. rewrite findById_updateStatus, Hfind. simpl.
      by rewrite decide_True. }
    done.
Qed.

Lemma stopWarmup_fails_session_witness :
  ∃ active s row w' row',
    activeSessions Sample.waiting !! "d1" = Some 0%nat
    ∧ objects Sample.waiting !! 0%nat = Some active
    ∧ session active = Some s
    ∧ stored (WarmupSession.id s) Sample.waiting = Some row
    ∧ WarmupSession.status row = waiting_reply
    ∧ stopWarmup (Sample.env 20 "u5") "d1" Sample.waiting = (inr tt, w')
    ∧ stored (WarmupSession.id s) w' = Some row'
    ∧ WarmupSession.status row' = failed
    ∧ activeSessions w' !! "d1" = None.
Proof.
  destruct (objects Sample.waiting !! 0%nat) as [active|] eqn:Ha;
    [|vm_compute in Ha; discriminate].
  destruct (session active) as [s|] eqn:Hs;
    [|vm_compute in Ha; injection Ha as <-; discriminate Hs].
  destruct (stored (WarmupSession.id s) Sample.waiting) as [row|] eqn:Hrow;
    [|vm_compute in Ha; injection Ha as <-; injection Hs as <-;
      vm_compute in Hrow; discriminate].
  assert (Hreg : activeSessions Sample.waiting !! "d1" = Some 0%nat) by reflexivity.
  destruct (stopWarmup_fails_session (Sample.env 20 "u5") "d1" Sample.waiting) as [Hrun _].
  destruct (Hrun 0%nat active s row Hreg Ha Hs Hrow)
    as (w' & row' & Hstop & Hrow' & (Hst & _) & Hreg' & _).
  exists active, s, row, w', row'. repeat (split; [done|]).
  split.
  { vm_compute in Ha. injection Ha as <-. injection Hs as <-.
    vm_compute in Hrow. by injection Hrow as <-. }
  repeat (split; [done|]). rewrite Hreg'. apply lookup_delete_eq.
Defined.

Lemma disconnected_tables l w :
  mail_logs (disconnected l w) = mail_logs w
  ∧ lead_accounts (disconnected l w) = lead_accounts w.
Proof. by destruct l. Qed.

Lemma both_destroyed ll dl l w :
  ll = Some l ∨ dl = Some l → is_Some (imapListeners w !! l) →
  destroyed l (disconnected dl (disconnected ll w)).
Proof.
  intros Hl Hsome. destruct (decide (ll = Some l)) as [Hll|Hll].
  - apply destroyed_stays_disconnected. rewrite Hll. by apply destroyed_disconnected.
  - destruct Hl as [Hl|Hl]; [done|]. rewrite Hl. apply destroyed_disconnected.
    destruct ll as [l0|]; [|done]. unfold disconnected. reduce.
    rewrite lookup_alter_ne by congruence. done.
Qed.

(** What a pause leaves. *)
Lemma pauseWarmup_leaves env d a active s row w :
  activeSessions w !! d = Some a →
  objects w !! a = Some active →
  session active = Some s →
  stored (WarmupSession.id s) w = Some row →
  ∃ w',
    pauseWarmup env d w
    = (inr (Some (SessionRepo.assign (now env) paused SessionRepo.no_extras row)), w')
    ∧ activeSessions w' = delete d (activeSessions w)
    ∧ objects w' !! a
      = Some (mkActive (Some s) (domainAccount active) (leads active) None None true [])
    ∧ warmup_sessions w'
      = snd (SessionRepo.updateStatus (now env) (WarmupSession.id s) paused
               SessionRepo.no_extras (warmup_sessions w))
    ∧ domain_accounts w'
      = updateDomainStatus (now env) d domain_paused (domain_accounts w)
    ∧ mail_logs w' = mail_logs w
    ∧ lead_accounts w' = lead_accounts w
    ∧ timeouts w' = cleared (timers active) (timeouts w)
    ∧ (∀ l, leadImapListener active = Some l ∨ domainImapListener active = Some l →
            is_Some (imapListeners w !! l) → destroyed l w').
Proof.
  intros Hreg Ha Hs Hrow.
  set (active0 := with_isPaused true active).
  set (w0 := on_objects (alter (with_isPaused true) a) w).
  set (ll := leadImapListener active). set (dl := domainImapListener active).
  set (w1 := on_objects (alter (with_leadImapListener None) a) (disconnected ll w0)).
  set (w2 := on_objects (alter (with_domainImapListener None) a) (disconnected dl w1)).
  assert (Ha0 : objects w0 !! a = Some active0).
  { unfold w0. reduce. by rewrite lookup_alter_eq, Ha. }
  destruct (disconnected_fields ll w0) as (Hreg1 & Hobj1 & Htim1 & Htbl1 & Hacc1).
  destruct (disconnected_tables ll w0) as (Hlog1 & Hlead1).
  assert (Ha1 : objects w1 !! a = Some (with_leadImapListener None active0)).
  { unfold w1. reduce. by rewrite lookup_alter_eq, Hobj1, Ha0. }
  destruct (disconnected_fields dl w1) as (Hreg2 & Hobj2 & Htim2 & Htbl2 & Hacc2).
  destruct (disconnected_tables dl w1) as (Hlog2 & Hlead2).
  assert (Ha2 : objects w2 !! a
                = Some (with_domainImapListener None (with_leadImapListener None active0))).
  { unfold w2. reduce. by rewrite lookup_alter_eq, Hobj2, Ha1. }
  assert (Hgone : ∀ l, ll = Some l ∨ dl = Some l → is_Some (imapListeners w !! l) →
                       ∃ L, imapListeners w2 !! l = Some L
                            ∧ Imap.isDestroyed (imap L) = true).
  { intros l Hl Hsome.
    destruct (both_destroyed ll dl l w0 Hl Hsome) as (L & HL & Hd).
    exists L. split; [|done]. unfold w2, w1. reduce.
    destruct dl as [l2|], ll as [l1|]; unfold disconnected in *; revert HL; by reduce. }
  assert (Hsame : activeSessions w2 = activeSessions w ∧ timeouts w2 = timeouts w
                  ∧ warmup_sessions w2 = warmup_sessions w
                  ∧ domain_accounts w2 = domain_accounts w
                  ∧ mail_logs w2 = mail_logs w ∧ lead_accounts w2 = lead_accounts w).
  { unfold w2, w1, w0 in *. reduce. simpl in *. repeat split; congruence. }
  destruct Hsame as (E1 & E2 & E3 & E4 & E5 & E6).
  assert (Hprefix : pauseWarmup env d w
            = (active ← read a;
               clearTimeouts (timers active);;
               update a (with_timers []);;
               current ← deref (session active);
               session ← sessionRepo_updateStatus env (WarmupSession.id current) paused
                 SessionRepo.no_extras;
               domainAccountRepo_updateStatus env d domain_paused;;
               modify (on_activeSessions (delete d));;
               ret session) w2).
  { unfold pauseWarmup. reduce. rewrite Hreg. reduce.
    fold w0. rewrite (dropLeadListener_run a active0) by exact Ha0.
    reduce. fold ll w1.
    rewrite (dropDomainListener_run a (with_leadImapListener None active0)) by exact Ha1.
    reduce. done. }
  rewrite Hprefix. clear Hprefix. clearbody w2.
  unfold domainAccountRepo_updateStatus. reduce. rewrite Ha2. unfold active0. reduce.
  rewrite clearTimeouts_run. reduce. rewrite Hs. reduce.
  rewrite sessionRepo_updateStatus_run. reduce.
  rewrite updateStatus_row, E3. unfold stored in Hrow. rewrite Hrow. simpl.
  eexists. split; [reflexivity|]. reduce.
  split; [by rewrite E1|]. split.
  { rewrite lookup_alter_eq, Ha2. simpl. unfold active0.
    unfold with_timers, with_domainImapListener, with_leadImapListener, with_isPaused.
    simpl. by rewrite Hs. }
  split; [done|]. split; [by rewrite E4|]. split; [done|]. split; [done|].
  split; [by rewrite E2|].
  intros l Hl Hsome. destruct (Hgone l Hl Hsome) as (L & HL & Hd). by exists L.
Qed.

(** A pause stores the session as paused where it stands, marks the
    account as paused and leaves nothing of the orchestrator at work: its
    entry in the registry is removed, its listeners are disconnected, its
    timers cleared and none is set; the object the callbacks share is left
    paused, without listener and timer; the mail log is as it was. *)
Theorem pauseWarmup_leaves_nothing_at_work :
  ∀ (env : Env) (d : string) (w : World) (a : addr) (active : ActiveSession)
    (s row : WarmupSession.t),
    activeSessions w !! d = Some a →
    objects w !! a = Some active →
    session active = Some s →
    stored (WarmupSession.id s) w = Some row →
    ∃ w' row' active',
      pauseWarmup env d w = (inr (Some row'), w')
      ∧ stored (WarmupSession.id s) w' = Some row'
      ∧ WarmupSession.status row' = paused
      ∧ WarmupSession.current_lead_index row' = WarmupSession.current_lead_index row
      ∧ WarmupSession.last_message_id row' = WarmupSession.last_message_id row
      ∧ WarmupSession.error_message row' = WarmupSession.error_message row
      ∧ activeSessions w' = delete d (activeSessions w)
      ∧ objects w' !! a = Some active'
      ∧ isPaused active' = true
      ∧ leadImapListener active' = None
      ∧ domainImapListener active' = None
      ∧ timers active' = []
      ∧ domain_accounts w'
        = updateDomainStatus (now env) d domain_paused (domain_accounts w)
      ∧ mail_logs w' = mail_logs w
      ∧ (∀ t, t ∈ timers active → timeouts w' !! t = None)
      ∧ (∀ t, timeouts w !! t = None → timeouts w' !! t = None)
      ∧ (∀ l, leadImapListener active = Some l ∨ domainImapListener active = Some l →
              is_Some (imapListeners w !! l) → destroyed l w').
Proof.
  intros env d w a active s row Hreg Ha Hs Hrow.
  destruct (pauseWarmup_leaves env d a active s row w Hreg Ha Hs Hrow)
    as (w' & Hpause & Hreg' & Ha' & Htbl' & Hacc' & Hlog' & _ & Htim' & Hgone).
  exists w', (SessionRepo.assign (now env) paused SessionRepo.no_extras row),
    (mkActive (Some s) (domainAccount active) (leads active) None None true []).
  split; [done|]. split.
  { unfold stored in *. rewrite Htbl', findById_updateStatus, Hrow. simpl.
    by rewrite decide_True. }
  repeat (split; [done|]). split.
  { intros t Ht. rewrite Htim'. by apply cleared_elem. }
  split; [|done]. intros t Ht. rewrite Htim'. by apply cleared_None.
Qed.

Lemma pauseWarmup_leaves_nothing_at_work_witness :
  ∃ active s row w' row',
    activeSessions Sample.waiting !! "d1" = Some 0%nat
    ∧ objects Sample.waiting !! 0%nat = Some active
    ∧ session active = Some s
    ∧ stored (WarmupSession.id s) Sample.waiting = Some row
    ∧ pauseWarmup (Sample.env 20 "u5") "d1" Sample.waiting = (inr (Some row'), w')
    ∧ WarmupSession.status row' = paused
    ∧ activeSessions w' !! "d1" = None.
Proof.
  destruct (objects Sample.waiting !! 0%nat) as [active|] eqn:Ha;
    [|vm_compute in Ha; discriminate].
  destruct (session active) as [s|] eqn:Hs;
    [|vm_compute in Ha; injection Ha as <-; discriminate Hs].
  destruct (stored (WarmupSession.id s) Sample.waiting) as [row|] eqn:Hrow;
    [|vm_compute in Ha; injection Ha as <-; injection Hs as <-;
      vm_compute in Hrow; discriminate].
  assert (Hreg : activeSessions Sample.waiting !! "d1" = Some 0%nat) by reflexivity.
  destruct (pauseWarmup_leaves_nothing_at_work (Sample.env 20 "u5") "d1" Sample.waiting
              0%nat active s row Hreg Ha Hs Hrow)
    as (w' & row' & active' & Hpause & _ & Hst & _ & _ & _ & Hreg' & _).
  exists active, s, row, w', row'. repeat (split; [done|]).
  rewrite Hreg'. apply lookup_delete_eq.
Defined.

(** The rows of a day under an update, and the account under a change of
    its status. *)
Lemma filter_updateStatus (P : WarmupSession.t → Prop) `{!∀ r, Decision (P r)}
    now session_id st extras tbl :
  (∀ r, P (SessionRepo.assign now st extras r) ↔ P r) →
  filter P (snd (SessionRepo.updateStatus now session_id st extras tbl))
  = (λ r, if decide (WarmupSession.id r = session_id)
          then SessionRepo.assign now st extras r else r) <$> filter P tbl.
Proof.
  intros HP. rewrite updateStatus_table. apply filter_fmap_stable.
  intros r. by case_decide.
Qed.

Lemma findDomainById_updateDomainStatus decrypt d now st tbl account :
  findDomainById decrypt d tbl = inr (Some account) →
  findDomainById decrypt d (updateDomainStatus now d st tbl)
  = inr (Some (DomainAccount.mk
                 (DomainAccount.id account) (DomainAccount.sender_name account)
                 (DomainAccount.email account)
                 (DomainAccount.smtp_host account) (DomainAccount.smtp_port account)
                 (DomainAccount.smtp_secure account) (DomainAccount.smtp_password account)
                 (DomainAccount.imap_host account) (DomainAccount.imap_port account)
                 (DomainAccount.imap_secure account) (DomainAccount.imap_password account)
                 st (DomainAccount.created_at account) now)).
Proof.
  unfold findDomainById, updateDomainStatus.
  rewrite filter_fmap_stable by (intros r; by case_decide).
  destruct (filter _ tbl) as [|r rest] eqn:Hf; [done|]. simpl.
  assert (Hr : DomainAccount.id r = d).
  { assert (H : r ∈ filter (λ r, DomainAccount.id r = d) tbl) by (rewrite Hf; left).
    by apply list_elem_of_filter in H as [H _]. }
  rewrite decide_True by done. unfold decryptDomainPasswords. simpl.
  destruct (decrypt (DomainAccount.smtp_password r)); [done|].
  destruct (decrypt (DomainAccount.imap_password r)); [done|].
  by intros [= <-].
Qed.

Lemma filter_and {A} (P Q : A → Prop) `{!∀ x, Decision (P x)} `{!∀ x, Decision (Q x)}
    (l : list A) :
  filter (λ x, P x ∧ Q x) l = filter Q (filter P l).
Proof.
  rewrite list_filter_filter. apply list_filter_iff. intros x. tauto.
Qed.

(** The queries for the rows of today, in terms of the rows of the
    account for the day. *)
Lemma findCompletedToday_day now d tbl :
  SessionRepo.findCompletedToday now d tbl
  = first_row (filter (λ r, WarmupSession.status r = completed)
                 (filter (λ r, WarmupSession.domain_account_id r = d
                               ∧ WarmupSession.session_date r = CURRENT_DATE now) tbl)).
Proof.
  unfold SessionRepo.findCompletedToday. rewrite <- filter_and. f_equal.
  apply list_filter_iff. intros r. tauto.
Qed.

Lemma findActiveToday_day now d tbl :
  SessionRepo.findActiveToday now d tbl
  = first_row (SessionRepo.order_by_created_at_desc
                 (filter (λ r, WarmupSession.status r ≠ completed
                               ∧ WarmupSession.status r ≠ failed)
                    (filter (λ r, WarmupSession.domain_account_id r = d
                                  ∧ WarmupSession.session_date r = CURRENT_DATE now) tbl))).
Proof.
  unfold SessionRepo.findActiveToday. rewrite <- filter_and. do 2 f_equal.
  apply list_filter_iff. intros r. tauto.
Qed.

(** A pause followed by a resume takes the session up where it stood.
    When the row of the orchestrator's session is the one row of the
    account for the day of the resume, and the account and at least one
    lead can be read, the pause stores the row as paused and the resume
    returns it in status sending with the lead index and the last
    Message-ID it had, stores it so and registers an orchestrator that
    holds it with the leads as they are read at the resume. *)
Theorem pause_then_resume_keeps_lead_index :
  ∀ (decrypt : string → string + string) (env env' : Env) (d : string) (w : World)
    (a : addr) (active : ActiveSession) (s row : WarmupSession.t)
    (account : DomainAccount.t) (found : list LeadAccount.t),
    activeSessions w !! d = Some a →
    objects w !! a = Some active →
    session active = Some s →
    stored (WarmupSession.id s) w = Some row →
    filter (λ r, WarmupSession.domain_account_id r = d
                 ∧ WarmupSession.session_date r = CURRENT_DATE (now env'))
      (warmup_sessions w) = [row] →
    findDomainById decrypt d (domain_accounts w) = inr (Some account) →
    findAllLeads decrypt (lead_accounts w) = inr found →
    found ≠ [] →
    ∃ w1 row1 w2 row2 active2,
      pauseWarmup env d w = (inr (Some row1), w1)
      ∧ WarmupSession.status row1 = paused
      ∧ resumeWarmup decrypt env' d w1 = (inr (Some row2), w2)
      ∧ WarmupSession.id row2 = WarmupSession.id row
      ∧ WarmupSession.status row2 = sending
      ∧ WarmupSession.current_lead_index row2 = WarmupSession.current_lead_index row
      ∧ WarmupSession.last_message_id row2 = WarmupSession.last_message_id row
      ∧ stored (WarmupSession.id row) w2 = Some row2
      ∧ activeSessions w2 !! d = Some (fresh (dom (objects w1)))
      ∧ objects w2 !! fresh (dom (objects w1)) = Some active2
      ∧ session active2 = Some row2
      ∧ leads active2 = found
      ∧ isPaused active2 = false.
Proof.
  intros decrypt env env' d w a active s row account found
    Hreg Ha Hs Hrow Htoday Hacc Hleads Hne.
  destruct (pauseWarmup_leaves env d a active s row w Hreg Ha Hs Hrow)
    as (w1 & Hpause & Hreg1 & Ha1 & Htbl1 & Hacc1 & Hlog1 & Hlead1 & Htim1 & Hgone).
  assert (Hid : WarmupSession.id row = WarmupSession.id s) by (by eapply findById_id).
  set (row1 := SessionRepo.assign (now env) paused SessionRepo.no_extras row) in *.
  set (row2 := SessionRepo.assign (now env') sending SessionRepo.no_extras row1).
  assert (Hlen : length found ≠ 0%nat) by (by destruct found).
  assert (Hday : filter (λ r, WarmupSession.domain_account_id r = d
                   ∧ WarmupSession.session_date r = CURRENT_DATE (now env'))
                   (warmup_sessions w1) = [row1]).
  { rewrite Htbl1, filter_updateStatus by done. rewrite Htoday. simpl.
    by rewrite decide_True. }
  assert (Hcompleted : SessionRepo.findCompletedToday (now env') d (warmup_sessions w1)
                       = None).
  { rewrite findCompletedToday_day, Hday. by rewrite filter_cons, decide_False. }
  assert (Hactive : SessionRepo.findActiveToday (now env') d (warmup_sessions w1)
                    = Some row1).
  { rewrite findActiveToday_day, Hday. by rewrite filter_cons, decide_True. }
  assert (Hfind1 : SessionRepo.findById (WarmupSession.id s) (warmup_sessions w1)
                   = Some row1).
  { unfold stored in Hrow. rewrite Htbl1, findById_updateStatus, Hrow. simpl.
    by rewrite decide_True. }
  exists w1, row1. eexists _, row2, _.
  split; [exact Hpause|]. split; [done|]. split.
  { unfold resumeWarmup, startWarmup. reduce.
    rewrite Hreg1, lookup_delete_eq. reduce.
    rewrite Hacc1, (findDomainById_updateDomainStatus _ _ _ _ _ _ Hacc). reduce.
    rewrite Hlead1, Hleads. reduce. rewrite decide_False by done. reduce.
    rewrite Hcompleted. reduce. rewrite Hactive. reduce.
    rewrite decide_True by done. reduce.
    rewrite sessionRepo_updateStatus_run. reduce.
    rewrite updateStatus_row. cbn [WarmupSession.id row1 SessionRepo.assign].
    rewrite Hid, Hfind1. reduce. cbn [fmap option_fmap option_map]. rewrite launch_run. reflexivity. }
  reduce. split; [done|]. split; [done|]. split; [done|]. split; [done|]. split.
  { unfold stored. reduce. rewrite findById_updateStatus.
    cbn [WarmupSession.id row1 SessionRepo.assign]. rewrite Hid, Hfind1. simpl.
    by rewrite decide_True. }
  split; [apply lookup_insert_eq|]. split; [apply lookup_insert_eq|]. done.
Qed.

Lemma pause_then_resume_keeps_lead_index_witness :
  let env := Sample.env 20 "u5" in
  let env' := Sample.env 30 "u6" in
  ∃ active s row account w1 row1 w2 row2,
    activeSessions Sample.waiting !! "d1" = Some 0%nat
    ∧ objects Sample.waiting !! 0%nat = Some active
    ∧ session active = Some s
    ∧ stored (WarmupSession.id s) Sample.waiting = Some row
    ∧ filter (λ r, WarmupSession.domain_account_id r = "d1"
                   ∧ WarmupSession.session_date r = CURRENT_DATE (now env'))
        (warmup_sessions Sample.waiting) = [row]
    ∧ findDomainById Sample.plain "d1" (domain_accounts Sample.waiting)
      = inr (Some account)
    ∧ findAllLeads Sample.plain (lead_accounts Sample.waiting)
      = inr [Sample.lea; Sample.leo]
    ∧ pauseWarmup env "d1" Sample.waiting = (inr (Some row1), w1)
    ∧ resumeWarmup Sample.plain env' "d1" w1 = (inr (Some row2), w2)
    ∧ WarmupSession.status row2 = sending
    ∧ WarmupSession.current_lead_index row2 = WarmupSession.current_lead_index row.
Proof.
  intros env env'.
  destruct (objects Sample.waiting !! 0%nat) as [active|] eqn:Ha;
    [|vm_compute in Ha; discriminate].
  destruct (session active) as [s|] eqn:Hs;
    [|vm_compute in Ha; injection Ha as <-; discriminate Hs].
  destruct (stored (WarmupSession.id s) Sample.waiting) as [row|] eqn:Hrow;
    [|vm_compute in Ha; injection Ha as <-; injection Hs as <-;
      vm_compute in Hrow; discriminate].
  assert (Hreg : activeSessions Sample.waiting !! "d1" = Some 0%nat) by reflexivity.
  assert (Hday : filter (λ r, WarmupSession.domain_account_id r = "d1"
                   ∧ WarmupSession.session_date r = CURRENT_DATE (now env'))
                   (warmup_sessions Sample.waiting) = [row]).
  { vm_compute in Ha. injection Ha as <-. injection Hs as <-.
    vm_compute in Hrow. injection Hrow as <-. vm_compute. reflexivity. }
  destruct (findDomainById Sample.plain "d1" (domain_accounts Sample.waiting))
    as [e|[account|]] eqn:Hacc;
    [vm_compute in Hacc; discriminate| |vm_compute in Hacc; discriminate].
  assert (Hleads : findAllLeads Sample.plain (lead_accounts Sample.waiting)
                   = inr [Sample.lea; Sample.leo]) by reflexivity.
  destruct (pause_then_resume_keeps_lead_index Sample.plain env env' "d1" Sample.waiting
              0%nat active s row account [Sample.lea; Sample.leo]
              Hreg Ha Hs Hrow Hday Hacc Hleads ltac:(done))
    as (w1 & row1 & w2 & row2 & active2 & Hpause & _ & Hresume & _ & Hst & Hidx & _).
  exists active, s, row, account, w1, row1, w2, row2.
  do 9 (split; [first [assumption|reflexivity]|]).
  split; [exact Hst|exact Hidx].
Defined.


(** ** The per-lead cycle *)

Lemma disconnected_dom l w :
  dom (imapListeners (disconnected l w)) = dom (imapListeners w).
Proof.
  destruct l as [l|]; [|done]. unfold disconnected. reduce. apply dom_alter_L.
Qed.

(** What the setting up of the listener on the lead's mailbox leaves. *)
Lemma setupLeadAutoReply_leaves env d lead mid original a active w :
  activeSessions w !! d = Some a →
  objects w !! a = Some active →
  let l := fresh (dom (imapListeners w)) in
  ∃ w' L,
    setupLeadAutoReply env d lead mid original w = (inr tt, w')
    ∧ imapListeners w !! l = None
    ∧ imapListeners w' !! l = Some L
    ∧ emailCallback L = leadOnEmail d lead original a
    ∧ timeoutCallback L = leadOnTimeout d lead a
    ∧ Imap.config (imap L)
      = {| Imap.host := LeadAccount.imap_host lead;
           Imap.port := LeadAccount.imap_port lead;
           Imap.secure := LeadAccount.imap_secure lead;
           Imap.password := LeadAccount.imap_password lead;
           Imap.email := LeadAccount.email lead;
           Imap.filterFromEmail := Some (DomainAccount.email (domainAccount active)) |}
    ∧ Imap.isDestroyed (imap L) = false
    ∧ objects w' !! a = Some (with_leadImapListener (Some l) active)
    ∧ (∀ a', a' ≠ a → objects w' !! a' = objects w !! a')
    ∧ activeSessions w' = activeSessions w
    ∧ timeouts w' = timeouts w
    ∧ warmup_sessions w' = warmup_sessions w
    ∧ mail_logs w' = mail_logs w
    ∧ domain_accounts w' = domain_accounts w
    ∧ (∀ l0, leadImapListener active = Some l0 → is_Some (imapListeners w !! l0) →
             destroyed l0 w').
Proof.
  intros Hreg Ha l.
  set (ll := leadImapListener active).
  set (w1 := on_objects (alter (with_leadImapListener None) a) (disconnected ll w)).
  destruct (disconnected_fields ll w) as (Hreg1 & Hobj1 & Htim1 & Htbl1 & Hacc1).
  destruct (disconnected_tables ll w) as (Hlog1 & Hlead1).
  assert (Ha1 : objects w1 !! a = Some (with_leadImapListener None active)).
  { unfold w1. reduce. by rewrite lookup_alter_eq, Hobj1, Ha. }
  assert (Hl : fresh (dom (imapListeners w1)) = l).
  { unfold w1. reduce. by rewrite disconnected_dom. }
  assert (Hnew : imapListeners w !! l = None) by apply not_elem_of_dom, is_fresh.
  assert (Hsame : activeSessions w1 = activeSessions w ∧ timeouts w1 = timeouts w
                  ∧ warmup_sessions w1 = warmup_sessions w
                  ∧ domain_accounts w1 = domain_accounts w
                  ∧ mail_logs w1 = mail_logs w
                  ∧ imapListeners w1 = imapListeners (disconnected ll w)).
  { unfold w1. reduce. done. }
  destruct Hsame as (E1 & E2 & E3 & E4 & E5 & E6).
  assert (Hothers : ∀ a', a' ≠ a → objects w1 !! a' = objects w !! a').
  { intros a' Ha'. unfold w1. reduce. by rewrite lookup_alter_ne, Hobj1. }
  assert (Hprefix : setupLeadAutoReply env d lead mid original w
            = (active ← read a;
               leadListener ← newImapListener
                 {| Imap.host := LeadAccount.imap_host lead;
                    Imap.port := LeadAccount.imap_port lead;
                    Imap.secure := LeadAccount.imap_secure lead;
                    Imap.password := LeadAccount.imap_password lead;
                    Imap.email := LeadAccount.email lead;
                    Imap.filterFromEmail :=
                      Some (DomainAccount.email (domainAccount active)) |}
                 (leadOnEmail d lead original a) (leadOnTimeout d lead a);
               update a (with_leadImapListener (Some leadListener));;
               connect (connects env) leadListener) w1).
  { unfold setupLeadAutoReply. reduce. rewrite Hreg. reduce.
    rewrite (dropLeadListener_run a active) by done. by reduce. }
  rewrite Hprefix. clear Hprefix. clearbody w1.
  unfold newImapListener, connect. reduce. rewrite Ha1. reduce. rewrite Hl.
  eexists _, _. split; [reflexivity|]. reduce.
  split; [done|]. split.
  { rewrite lookup_alter_eq, lookup_insert_eq. simpl. reflexivity. }
  split; [done|]. split; [done|]. split.
  { unfold Imap.connect, Imap.safeReconnect. simpl. by destruct (connects env). }
  split.
  { unfold Imap.connect, Imap.safeReconnect. simpl. by destruct (connects env). }
  split.
  { rewrite lookup_alter_eq, Ha1. simpl.
    unfold with_leadImapListener. simpl. done. }
  split.
  { intros a' Ha'. rewrite lookup_alter_ne by done. by apply Hothers. }
  repeat (split; [done|]).
  intros l0 Hl0 Hsome. fold ll in Hl0.
  assert (Hne : l0 ≠ l).
  { intros ->. destruct Hsome as [L0 HL0]. by rewrite Hnew in HL0. }
  destruct (destroyed_disconnected l0 w Hsome) as (L0 & HL0 & Hd).
  exists L0. split; [|done]. reduce.
  rewrite lookup_alter_ne, lookup_insert_ne by done. by rewrite E6, Hl0.
Qed.

Lemma mailLogRepo_create_run env data w :
  mailLogRepo_create env data w
  = (inr (fst (MailLogRepo.create (now env) (log_uuid env) data (mail_logs w))),
     with_mail_logs
       (mail_logs w
        ++ [fst (MailLogRepo.create (now env) (log_uuid env) data (mail_logs w))]) w).
Proof. done. Qed.

Lemma item_Some {A} (l : list A) (i : Z) (x : A) :
  item l i = Some x → (0 ≤ i < Z.of_nat (length l))%Z.
Proof.
  unfold item. destruct (i <? 0)%Z eqn:Hi; [done|].
  apply Z.ltb_ge in Hi. intros Hx%lookup_lt_Some. lia.
Qed.

(** What one turn of the cycle for a lead leaves. *)
Lemma processNextLead_turn :
  ∀ (env : Env) (d : string) (w : World) (a : addr) (active : ActiveSession)
    (s row : WarmupSession.t) (lead : LeadAccount.t) (content : GroqEmailResponse)
    (result : Smtp.SendEmailResult),
    activeSessions w !! d = Some a →
    objects w !! a = Some active →
    isPaused active = false →
    session active = Some s →
    stored (WarmupSession.id s) w = Some row →
    item (leads active) (WarmupSession.current_lead_index s) = Some lead →
    generated env = inr content →
    Smtp.sendEmail (sendMail env) (smtpOfDomain (domainAccount active))
      {| Smtp.to := LeadAccount.email lead;
         Smtp.subject := g_subject content;
         Smtp.body := g_body content;
         Smtp.inReplyTo := None;
         Smtp.references := None |} (uuid env) = inr result →
    let l := fresh (dom (imapListeners w)) in
    ∃ w' entry row' L,
      processNextLead env d w = (inr tt, w')
      ∧ mail_logs w' = mail_logs w ++ [entry]
      ∧ MailLog.direction entry = sent
      ∧ MailLog.session_id entry = Some (WarmupSession.id s)
      ∧ MailLog.from_email entry = DomainAccount.email (domainAccount active)
      ∧ MailLog.to_email entry = LeadAccount.email lead
      ∧ MailLog.subject entry = g_subject content
      ∧ MailLog.message_id entry = or_null (Some (Smtp.messageId result))
      ∧ MailLog.in_reply_to entry = None
      ∧ MailLog.lead_index entry = Some (WarmupSession.current_lead_index s)
      ∧ stored (WarmupSession.id s) w' = Some row'
      ∧ WarmupSession.status row' = waiting_reply
      ∧ WarmupSession.last_message_id row' = Some (Smtp.messageId result)
      ∧ WarmupSession.current_lead_index row' = WarmupSession.current_lead_index s
      ∧ objects w' !! a
        = Some (with_leadImapListener (Some l) (with_session (Some row') active))
      ∧ imapListeners w !! l = None
      ∧ imapListeners w' !! l = Some L
      ∧ emailCallback L = leadOnEmail d lead content a
      ∧ timeoutCallback L = leadOnTimeout d lead a
      ∧ Imap.email (Imap.config (imap L)) = LeadAccount.email lead
      ∧ Imap.filterFromEmail (Imap.config (imap L))
        = Some (DomainAccount.email (domainAccount active))
      ∧ Imap.isDestroyed (imap L) = false
      ∧ (∀ l0, leadImapListener active = Some l0 → is_Some (imapListeners w !! l0) →
               destroyed l0 w')
      ∧ activeSessions w' = activeSessions w
      ∧ timeouts w' = timeouts w
      ∧ domain_accounts w' = domain_accounts w.
Proof.
  intros env d w a active s row lead content result
    Hreg Ha Hpaused Hs Hrow Hlead Hgen Hsend l.
  pose proof (item_Some _ _ _ Hlead) as Hi.
  set (data := {| MailLogRepo.d_session_id := WarmupSession.id s;
                  MailLogRepo.d_from_email := DomainAccount.email (domainAccount active);
                  MailLogRepo.d_to_email := LeadAccount.email lead;
                  MailLogRepo.d_subject := g_subject content;
                  MailLogRepo.d_body := Some (g_body content);
                  MailLogRepo.d_message_id := Some (Smtp.messageId result);
                  MailLogRepo.d_in_reply_to := None;
                  MailLogRepo.d_direction := sent;
                  MailLogRepo.d_lead_index := Some (WarmupSession.current_lead_index s) |}).
  set (entry := fst (MailLogRepo.create (now env) (log_uuid env) data (mail_logs w))).
  set (extras := {| SessionRepo.x_current_lead_index :=
                      Some (WarmupSession.current_lead_index s);
                    SessionRepo.x_last_message_id := Some (Smtp.messageId result);
                    SessionRepo.x_error_message := None;
                    SessionRepo.x_completed_at := None |}).
  set (U := SessionRepo.updateStatus (now env) (WarmupSession.id s) waiting_reply extras
              (warmup_sessions w)).
  set (row' := SessionRepo.assign (now env) waiting_reply extras row).
  assert (HU : fst U = Some row').
  { unfold U. rewrite updateStatus_row. unfold stored in Hrow. by rewrite Hrow. }
  set (w3 := on_objects (alter (with_session (fst U)) a)
               (with_warmup_sessions (snd U)
                  (with_mail_logs (mail_logs w ++ [entry]) w))).
  assert (Hprefix : processNextLead env d w
            = setupLeadAutoReply env d lead (Smtp.messageId result) content w3).
  { unfold processNextLead. reduce. rewrite Hreg. reduce. rewrite Ha. reduce.
    rewrite Hpaused. unfold processLead. reduce. rewrite Hs. reduce.
    rewrite (proj2 (Z.leb_gt _ _)) by lia. rewrite Hlead. reduce. rewrite Hgen. reduce.
    unfold sendEmail. rewrite Hsend. reduce.
    rewrite mailLogRepo_create_run. reduce.
    rewrite sessionRepo_updateStatus_run. reduce. done. }
  assert (Ha3 : objects w3 !! a = Some (with_session (Some row') active)).
  { unfold w3. reduce. by rewrite lookup_alter_eq, Ha, HU. }
  assert (Hreg3 : activeSessions w3 !! d = Some a) by (unfold w3; by reduce).
  destruct (setupLeadAutoReply_leaves env d lead (Smtp.messageId result) content a
              (with_session (Some row') active) w3 Hreg3 Ha3)
    as (w' & L & Hrun & Hnew & HL & Hcb & Htcb & Hcfg & Halive & Hobj & _ & E1 & E2
        & E3 & E4 & E5 & Hgone).
  assert (F : fresh (dom (imapListeners w3)) = l
              ∧ imapListeners w3 = imapListeners w
              ∧ activeSessions w3 = activeSessions w ∧ timeouts w3 = timeouts w
              ∧ mail_logs w3 = mail_logs w ++ [entry]
              ∧ domain_accounts w3 = domain_accounts w
              ∧ warmup_sessions w3 = snd U) by (unfold w3; by reduce).
  destruct F as (F1 & F2 & F3 & F4 & F5 & F6 & F7).
  rewrite F1, F2 in *. simpl in Hcfg, Hgone.
  exists w', entry, row', L. rewrite Hprefix.
  split; [exact Hrun|]. split; [by rewrite E4|].
  do 8 (split; [done|]). split.
  { unfold stored in *. rewrite E3, F7. unfold U.
    rewrite findById_updateStatus, Hrow. simpl. by rewrite decide_True. }
  do 3 (split; [done|]). split; [exact Hobj|].
  split; [exact Hnew|]. split; [exact HL|]. split; [done|]. split; [done|].
  split; [by rewrite Hcfg|]. split; [by rewrite Hcfg|]. split; [done|].
  split; [exact Hgone|]. split; [congruence|]. split; congruence.
Qed.

(** One turn of the cycle for a lead: when the orchestrator is registered
    and not paused, its lead index points at a lead, the text is generated
    and the server accepts the message, the message is logged as sent with
    the Message-ID of the send, the row is stored as waiting for the reply
    with that Message-ID as its last one and the lead index of the
    orchestrator's snapshot, the orchestrator holds the row so stored, and
    a new listener is set on the lead's mailbox, filtered on the address
    of the domain account, with the callbacks of this lead.  The listener
    the orchestrator held on a lead's mailbox before is disconnected; the
    registry, the timers and the accounts are as they were. *)
Theorem processNextLead_sends_and_waits :
  ∀ (env : Env) (d : string) (w : World) (a : addr) (active : ActiveSession)
    (s row : WarmupSession.t) (lead : LeadAccount.t) (content : GroqEmailResponse)
    (result : Smtp.SendEmailResult),
    activeSessions w !! d = Some a →
    objects w !! a = Some active →
    isPaused active = false →
    session active = Some s →
    stored (WarmupSession.id s) w = Some row →
    item (leads active) (WarmupSession.current_lead_index s) = Some lead →
    generated env = inr content →
    Smtp.sendEmail (sendMail env) (smtpOfDomain (domainAccount active))
      {| Smtp.to := LeadAccount.email lead;
         Smtp.subject := g_subject content;
         Smtp.body := g_body content;
         Smtp.inReplyTo := None;
         Smtp.references := None |} (uuid env) = inr result →
    let l := fresh (dom (imapListeners w)) in
    ∃ w' entry row' L,
      processNextLead env d w = (inr tt, w')
      ∧ mail_logs w' = mail_logs w ++ [entry]
      ∧ MailLog.direction entry = sent
      ∧ MailLog.session_id entry = Some (WarmupSession.id s)
      ∧ MailLog.from_email entry = DomainAccount.email (domainAccount active)
      ∧ MailLog.to_email entry = LeadAccount.email lead
      ∧ MailLog.subject entry = g_subject content
      ∧ MailLog.message_id entry = or_null (Some (Smtp.messageId result))
      ∧ MailLog.in_reply_to entry = None
      ∧ MailLog.lead_index entry = Some (WarmupSession.current_lead_index s)
      ∧ stored (WarmupSession.id s) w' = Some row'
      ∧ WarmupSession.status row' = waiting_reply
      ∧ WarmupSession.last_message_id row' = Some (Smtp.messageId result)
      ∧ WarmupSession.current_lead_index row' = WarmupSession.current_lead_index s
      ∧ objects w' !! a
        = Some (with_leadImapListener (Some l) (with_session (Some row') active))
      ∧ imapListeners w !! l = None
      ∧ imapListeners w' !! l = Some L
      ∧ emailCallback L = leadOnEmail d lead content a
      ∧ timeoutCallback L = leadOnTimeout d lead a
      ∧ Imap.email (Imap.config (imap L)) = LeadAccount.email lead
      ∧ Imap.filterFromEmail (Imap.config (imap L))
        = Some (DomainAccount.email (domainAccount active))
      ∧ Imap.isDestroyed (imap L) = false
      ∧ (∀ l0, leadImapListener active = Some l0 → is_Some (imapListeners w !! l0) →
               destroyed l0 w')
      ∧ activeSessions w' = activeSessions w
      ∧ timeouts w' = timeouts w
      ∧ domain_accounts w' = domain_accounts w.
Proof. exact processNextLead_turn. Qed.

Lemma processNextLead_sends_and_waits_witness :
  let w := happen Sample.plain (Sample.env 10 "u1") (request (Start "d1"))
             Sample.fresh_world in
  let env := Sample.env 11 "u2" in
  ∃ active s row w' L,
    activeSessions w !! "d1" = Some 0%nat
    ∧ objects w !! 0%nat = Some active
    ∧ isPaused active = false
    ∧ session active = Some s
    ∧ stored (WarmupSession.id s) w = Some row
    ∧ item (leads active) (WarmupSession.current_lead_index s) = Some Sample.lea
    ∧ processNextLead env "d1" w = (inr tt, w')
    ∧ MailLog.direction <$> mail_logs w' = [sent]
    ∧ MailLog.message_id <$> mail_logs w' = [Some "<u2@corp.io>"]
    ∧ (WarmupSession.status <$> stored (WarmupSession.id s) w') = Some waiting_reply
    ∧ imapListeners w' !! 0%nat = Some L
    ∧ Imap.filterFromEmail (Imap.config (imap L)) = Some "me@corp.io".
Proof.
  intros w env.
  destruct (objects w !! 0%nat) as [active|] eqn:Ha; [|vm_compute in Ha; discriminate].
  destruct (session active) as [s|] eqn:Hs;
    [|vm_compute in Ha; injection Ha as <-; discriminate Hs].
  destruct (stored (WarmupSession.id s) w) as [row|] eqn:Hrow;
    [|vm_compute in Ha; injection Ha as <-; injection Hs as <-;
      vm_compute in Hrow; discriminate].
  assert (Hreg : activeSessions w !! "d1" = Some 0%nat) by reflexivity.
  assert (Hpaused : isPaused active = false)
    by (vm_compute in Ha; by injection Ha as <-).
  assert (Hlead : item (leads active) (WarmupSession.current_lead_index s)
                  = Some Sample.lea)
    by (vm_compute in Ha; injection Ha as <-; by injection Hs as <-).
  assert (Hacc : DomainAccount.email (domainAccount active) = "me@corp.io")
    by (vm_compute in Ha; by injection Ha as <-).
  assert (Hsend : Smtp.sendEmail (sendMail env) (smtpOfDomain (domainAccount active))
            {| Smtp.to := LeadAccount.email Sample.lea;
               Smtp.subject := "Hi"; Smtp.body := "Hello";
               Smtp.inReplyTo := None; Smtp.references := None |} (uuid env)
          = inr {| Smtp.messageId := "<u2@corp.io>";
                   Smtp.accepted := ["lea@gmail.com"] |})
    by (vm_compute in Ha; by injection Ha as <-).
  destruct (processNextLead_sends_and_waits env "d1" w 0%nat active s row Sample.lea
              {| g_subject := "Hi"; g_body := "Hello" |} _
              Hreg Ha Hpaused Hs Hrow Hlead eq_refl Hsend)
    as (w' & entry & row' & L & Hrun & Hlog & Hdir & _ & _ & _ & _ & Hmid & _ & _
        & Hrow' & Hst & _ & _ & _ & _ & HL & _ & _ & _ & Hfilter & _).
  assert (Hempty : mail_logs w = []) by reflexivity.
  rewrite Hempty in Hlog. cbn [app] in Hlog.
  exists active, s, row, w', L. repeat (split; [done|]).
  split; [by rewrite Hlog, list_fmap_singleton, Hdir|].
  split; [by rewrite Hlog, list_fmap_singleton, Hmid|].
  split; [by rewrite Hrow'; cbn [fmap option_fmap option_map]; rewrite Hst|].
  split; [exact HL|]. by rewrite Hfilter, Hacc.
Defined.

(** When the text generator or the SMTP server fails for the lead in
    turn, the session fails with the message of that error: the row is
    stored as failed with it, at the lead index it had; the account is
    idle, the orchestrator is removed, its listeners are disconnected and
    its timers cleared; nothing is written to the mail log. *)
Theorem send_failure_fails_session :
  ∀ (env : Env) (d : string) (w : World) (a : addr) (active : ActiveSession)
    (s row : WarmupSession.t) (lead : LeadAccount.t) (e : Error),
    activeSessions w !! d = Some a →
    objects w !! a = Some active →
    isPaused active = false →
    session active = Some s →
    stored (WarmupSession.id s) w = Some row →
    item (leads active) (WarmupSession.current_lead_index s) = Some lead →
    (generated env = inl e
     ∨ ∃ content m,
         generated env = inr content
         ∧ Smtp.sendEmail (sendMail env) (smtpOfDomain (domainAccount active))
             {| Smtp.to := LeadAccount.email lead;
                Smtp.subject := g_subject content;
                Smtp.body := g_body content;
                Smtp.inReplyTo := None;
                Smtp.references := None |} (uuid env) = inl m
         ∧ e = External m) →
    ∃ w' row',
      task_run env (nextLead d) w = (inr tt, w')
      ∧ stored (WarmupSession.id s) w' = Some row'
      ∧ WarmupSession.status row' = failed
      ∧ WarmupSession.error_message row' = Some (message e)
      ∧ WarmupSession.current_lead_index row' = WarmupSession.current_lead_index row
      ∧ mail_logs w' = mail_logs w
      ∧ activeSessions w' = delete d (activeSessions w)
      ∧ domain_accounts w' = updateDomainStatus (now env) d idle (domain_accounts w)
      ∧ (∀ t, t ∈ timers active → timeouts w' !! t = None)
      ∧ (∀ l, leadImapListener active = Some l ∨ domainImapListener active = Some l →
              is_Some (imapListeners w !! l) → destroyed l w').
Proof.
  intros env d w a active s row lead e Hreg Ha Hpaused Hs Hrow Hlead Hfail.
  pose proof (item_Some _ _ _ Hlead) as Hi.
  assert (Hthrown : processNextLead env d w = (inl e, w)).
  { unfold processNextLead. reduce. rewrite Hreg. reduce. rewrite Ha. reduce.
    rewrite Hpaused. unfold processLead. reduce. rewrite Hs. reduce.
    rewrite (proj2 (Z.leb_gt _ _)) by lia. rewrite Hlead. reduce.
    destruct Hfail as [Hgen|(content & m & Hgen & Hsend & ->)]; rewrite Hgen; reduce;
      [done|].
    unfold sendEmail. rewrite Hsend. by reduce. }
  set (w1 := with_domain_accounts (updateDomainStatus (now env) d idle (domain_accounts w))
               (with_warmup_sessions
                  (snd (SessionRepo.updateStatus (now env) (WarmupSession.id s) failed
                          {| SessionRepo.x_current_lead_index := None;
                             SessionRepo.x_last_message_id := None;
                             SessionRepo.x_error_message := Some (Some (message e));
                             SessionRepo.x_completed_at := None |}
                          (warmup_sessions w))) w)).
  assert (Hrun : task_run env (nextLead d) w = cleanupSession d w1).
  { unfold task_run, catch. rewrite Hthrown.
    apply (failSession_run env d _ a active s); done. }
  destruct (cleanupSession_leaves d a active w1 Hreg Ha)
    as (Hret & Hreg' & Hobj' & Htbl' & Hacc' & Hlog' & Htim' & Hgone & _).
  destruct (cleanupSession d w1) as [r w'] eqn:Hclean. cbn [fst snd] in *. subst r.
  exists w', (SessionRepo.assign (now env) failed
                {| SessionRepo.x_current_lead_index := None;
                   SessionRepo.x_last_message_id := None;
                   SessionRepo.x_error_message := Some (Some (message e));
                   SessionRepo.x_completed_at := None |} row).
  split; [done|]. split.
  { unfold stored in *. rewrite Htbl'. unfold w1. reduce.
    rewrite findById_updateStatus, Hrow. simpl. by rewrite decide_True. }
  do 6 (split; [done|]). split; [|done].
  intros t Ht. rewrite Htim'. by apply cleared_elem.
Qed.

Lemma send_failure_fails_session_witness :
  let w := happen Sample.plain (Sample.env 10 "u1") (request (Start "d1"))
             Sample.fresh_world in
  let env :=
    {| now := 11; uuid := "u2"; session_uuid := "s-u2"; log_uuid := "m-u2";
       generated := inr {| g_subject := "Hi"; g_body := "Hello" |};
       sendMail := λ _ _, inl "Connection refused";
       drawn := 0; connects := true |} in
  ∃ active s row w' row',
    activeSessions w !! "d1" = Some 0%nat
    ∧ objects w !! 0%nat = Some active
    ∧ isPaused active = false
    ∧ session active = Some s
    ∧ stored (WarmupSession.id s) w = Some row
    ∧ item (leads active) (WarmupSession.current_lead_index s) = Some Sample.lea
    ∧ task_run env (nextLead "d1") w = (inr tt, w')
    ∧ stored (WarmupSession.id s) w' = Some row'
    ∧ WarmupSession.status row' = failed
    ∧ WarmupSession.error_message row' = Some "Connection refused"
    ∧ mail_logs w' = [].
Proof.
  intros w env.
  destruct (objects w !! 0%nat) as [active|] eqn:Ha; [|vm_compute in Ha; discriminate].
  destruct (session active) as [s|] eqn:Hs;
    [|vm_compute in Ha; injection Ha as <-; discriminate Hs].
  destruct (stored (WarmupSession.id s) w) as [row|] eqn:Hrow;
    [|vm_compute in Ha; injection Ha as <-; injection Hs as <-;
      vm_compute in Hrow; discriminate].
  assert (Hreg : activeSessions w !! "d1" = Some 0%nat) by reflexivity.
  assert (Hpaused : isPaused active = false)
    by (vm_compute in Ha; by injection Ha as <-).
  assert (Hlead : item (leads active) (WarmupSession.current_lead_index s)
                  = Some Sample.lea)
    by (vm_compute in Ha; injection Ha as <-; by injection Hs as <-).
  destruct (send_failure_fails_session env "d1" w 0%nat active s row Sample.lea
              (External "Connection refused") Hreg Ha Hpaused Hs Hrow Hlead)
    as (w' & row' & Hrun & Hrow' & Hst & Herr & _ & Hlog & _).
  { right. exists {| g_subject := "Hi"; g_body := "Hello" |}, "Connection refused".
    done. }
  exists active, s, row, w', row'. repeat (split; [done|]). by rewrite Hlog.
Defined.


(** ** Skipping a lead *)


(** A timer of the next lead that fires for a registered orchestrator
    that is not paused runs the cycle for the lead at the index the
    orchestrator holds. *)
Lemma nextLead_fires env d a active s lead content result t delay w :
  timeouts w !! t = Some (delay, nextLead d) →
  activeSessions w !! d = Some a →
  objects w !! a = Some active →
  isPaused active = false →
  session active = Some s →
  stored (WarmupSession.id s) w = Some s →
  item (leads active) (WarmupSession.current_lead_index s) = Some lead →
  generated env = inr content →
  Smtp.sendEmail (sendMail env) (smtpOfDomain (domainAccount active))
    {| Smtp.to := LeadAccount.email lead;
       Smtp.subject := g_subject content;
       Smtp.body := g_body content;
       Smtp.inReplyTo := None;
       Smtp.references := None |} (uuid env) = inr result →
  ∃ entry row',
    mail_logs (snd (timer_fires env t w)) = mail_logs w ++ [entry]
    ∧ MailLog.direction entry = sent
    ∧ MailLog.to_email entry = LeadAccount.email lead
    ∧ MailLog.lead_index entry = Some (WarmupSession.current_lead_index s)
    ∧ stored (WarmupSession.id s) (snd (timer_fires env t w)) = Some row'
    ∧ WarmupSession.status row' = waiting_reply
    ∧ WarmupSession.current_lead_index row' = WarmupSession.current_lead_index s.
Proof.
  intros Ht Hreg Ha Hpaused Hs Hrow Hlead Hgen Hsend.
  unfold timer_fires, clearTimeout. reduce. rewrite Ht. reduce.
  set (w1 := on_timeouts (delete t) w).
  destruct (processNextLead_turn env d w1 a active s s lead content result)
    as (w' & entry & row' & L & Hrun & Hlog & Hdir & _ & _ & Hto & _ & _ & _ & Hidx
        & Hrow' & Hst & _ & Hi & _); try done.
  unfold task_run, catch. rewrite Hrun. cbn [snd].
  exists entry, row'. by repeat (split; [done|]).
Qed.




(** ** The callbacks of the listeners *)

(** The comparison of sender addresses. *)
Lemma lower_lower c : lower (lower c) = lower c.
Proof. by destruct c as [[] [] [] [] [] [] [] []]. Qed.

Lemma append_empty s : s +:+ EmptyString = s.
Proof.
  induction s as [|c s IH]; [done|].
  change (String c (s +:+ EmptyString) = String c s). by rewrite IH.
Qed.

Lemma normalize_app s1 s2 : normalize (s1 +:+ s2) = normalize s1 +:+ normalize s2.
Proof.
  induction s1 as [|c s1 IH]; [done|]. simpl.
  destruct (stripped (lower c)); simpl; by rewrite IH.
Qed.

Lemma normalize_normalize s : normalize (normalize s) = normalize s.
Proof.
  induction s as [|c s IH]; [done|]. simpl.
  destruct (stripped (lower c)) eqn:Hc; [done|]. simpl.
  by rewrite lower_lower, Hc, IH.
Qed.

(** The comparison of a sender with the expected address takes no
    account of the case of ASCII letters, of angle brackets and of white
    space: what it compares is a text in which none of these is left,
    formed piece by piece. *)
Theorem normalize_insensitive :
  ∀ (s s1 s2 : string) (c : ascii),
    normalize (normalize s) = normalize s
    ∧ normalize (s1 +:+ s2) = normalize s1 +:+ normalize s2
    ∧ normalize ("<" +:+ s +:+ ">") = normalize s
    ∧ normalize (" " +:+ s +:+ " ") = normalize s
    ∧ normalize (String (lower c) s) = normalize (String c s).
Proof.
  intros s s1 s2 c. split; [apply normalize_normalize|]. split; [apply normalize_app|].
  split; [|split].
  - rewrite !normalize_app. simpl. by rewrite append_empty.
  - rewrite !normalize_app. simpl. by rewrite append_empty.
  - simpl. by rewrite lower_lower.
Qed.

(** A message from another sender is ignored by both callbacks: nothing
    is logged, no timer is set, the listener stays as it is.  The sender
    and the address it is compared with are texts of ASCII characters,
    on which [normalize] is the comparison of the source. *)
Theorem onEmail_ignores_other_senders :
  ∀ (env : Env) (d : string) (lead : LeadAccount.t) (original : GroqEmailResponse)
    (expectedFromEmail : string) (a : addr) (incoming : Imap.IncomingEmail) (w : World),
    ascii_only (Imap.from incoming) = true →
    (∀ active,
       objects w !! a = Some active →
       ascii_only (DomainAccount.email (domainAccount active)) = true →
       normalize (Imap.from incoming)
       ≠ normalize (DomainAccount.email (domainAccount active)) →
       onEmail_run env (leadOnEmail d lead original a) incoming w = (inr tt, w))
    ∧ (ascii_only expectedFromEmail = true →
       normalize (Imap.from incoming) ≠ normalize expectedFromEmail →
       onEmail_run env (domainOnEmail d expectedFromEmail a) incoming w = (inr tt, w)).
Proof.
  intros env d lead original expected a incoming w _. split.
  - intros active Ha _ Hne. unfold onEmail_run, leadOnEmail_run, catch. reduce.
    rewrite Ha. reduce. by rewrite (proj2 (String.eqb_neq _ _) Hne).
  - intros _ Hne. unfold onEmail_run, domainOnEmail_run, catch. reduce.
    destruct (objects w !! a); reduce; [|done].
    by rewrite (proj2 (String.eqb_neq _ _) Hne).
Qed.

Lemma onEmail_ignores_other_senders_witness :
  let spam :=
    {| Imap.messageId := "<x@spam.io>"; Imap.from := "Someone@Spam.io";
       Imap.to := "lea@gmail.com"; Imap.subject := "Buy"; Imap.body := "Now";
       Imap.inReplyTo := None; Imap.date := 0 |} in
  ∃ active,
    objects Sample.waiting !! 0%nat = Some active
    ∧ ascii_only (Imap.from spam) = true
    ∧ ascii_only (DomainAccount.email (domainAccount active)) = true
    ∧ normalize (Imap.from spam) ≠ normalize (DomainAccount.email (domainAccount active))
    ∧ normalize (Imap.from spam) ≠ normalize "lea@gmail.com"
    ∧ onEmail_run (Sample.env 20 "u5")
        (leadOnEmail "d1" Sample.lea {| g_subject := "Hi"; g_body := "Hello" |} 0%nat)
        spam Sample.waiting = (inr tt, Sample.waiting)
    ∧ onEmail_run (Sample.env 20 "u5") (domainOnEmail "d1" "lea@gmail.com" 0%nat)
        spam Sample.waiting = (inr tt, Sample.waiting).
Proof.
  intros spam.
  destruct (objects Sample.waiting !! 0%nat) as [active|] eqn:Ha;
    [|vm_compute in Ha; discriminate].
  assert (H1 : normalize (Imap.from spam)
               ≠ normalize (DomainAccount.email (domainAccount active)))
    by (vm_compute in Ha; injection Ha as <-; vm_compute; discriminate).
  assert (H2 : normalize (Imap.from spam) ≠ normalize "lea@gmail.com")
    by (vm_compute; discriminate).
  assert (H3 : ascii_only (Imap.from spam) = true) by reflexivity.
  assert (H4 : ascii_only (DomainAccount.email (domainAccount active)) = true)
    by (vm_compute in Ha; injection Ha as <-; reflexivity).
  destruct (onEmail_ignores_other_senders (Sample.env 20 "u5") "d1" Sample.lea
              {| g_subject := "Hi"; g_body := "Hello" |} "lea@gmail.com" 0%nat spam
              Sample.waiting H3) as [Hlead Hdomain].
  exists active. split; [done|]. split; [exact H3|]. split; [exact H4|].
  split; [exact H1|]. split; [exact H2|].
  split; [exact (Hlead active Ha H4 H1)|exact (Hdomain eq_refl H2)].
Defined.

(** A message from the address of the domain account that the listener
    on the lead's mailbox delivers is taken whatever the state of the
    orchestrator: it is logged as received under the session the
    orchestrator's object holds, at its lead index; the listener the
    object holds on the lead's mailbox is disconnected and forgotten; a
    timer for the lead's reply to this message is set, with a delay of
    180000 ms plus the number drawn, and added to the timers of the
    object.  The session rows and the registry are as they were. *)
Theorem lead_delivery_schedules_reply :
  ∀ (env : Env) (d : string) (lead : LeadAccount.t) (original : GroqEmailResponse)
    (a : addr) (incoming : Imap.IncomingEmail) (w : World) (active : ActiveSession)
    (s : WarmupSession.t),
    objects w !! a = Some active →
    session active = Some s →
    normalize (Imap.from incoming)
    = normalize (DomainAccount.email (domainAccount active)) →
    let t := newTimer w in
    ∃ w' entry,
      onEmail_run env (leadOnEmail d lead original a) incoming w = (inr tt, w')
      ∧ mail_logs w' = mail_logs w ++ [entry]
      ∧ MailLog.direction entry = received
      ∧ MailLog.session_id entry = Some (WarmupSession.id s)
      ∧ MailLog.from_email entry = Imap.from incoming
      ∧ MailLog.to_email entry = LeadAccount.email lead
      ∧ MailLog.message_id entry = or_null (Some (Imap.messageId incoming))
      ∧ MailLog.in_reply_to entry = None
      ∧ MailLog.lead_index entry = Some (WarmupSession.current_lead_index s)
      ∧ timeouts w !! t = None
      ∧ timeouts w'
        = <[t := ((drawn env + 180000)%Z, replyTimer d lead incoming original)]>
            (timeouts w)
      ∧ objects w' !! a
        = Some (with_timers (timers active ++ [t]) (with_leadImapListener None active))
      ∧ (∀ l, leadImapListener active = Some l → is_Some (imapListeners w !! l) →
              destroyed l w')
      ∧ warmup_sessions w' = warmup_sessions w
      ∧ activeSessions w' = activeSessions w.
Proof.
  intros env d lead original a incoming w active s Ha Hs Hfrom t.
  set (data := {| MailLogRepo.d_session_id := WarmupSession.id s;
                  MailLogRepo.d_from_email := Imap.from incoming;
                  MailLogRepo.d_to_email := LeadAccount.email lead;
                  MailLogRepo.d_subject := Imap.subject incoming;
                  MailLogRepo.d_body := Some (Imap.body incoming);
                  MailLogRepo.d_message_id := Some (Imap.messageId incoming);
                  MailLogRepo.d_in_reply_to := None;
                  MailLogRepo.d_direction := received;
                  MailLogRepo.d_lead_index := Some (WarmupSession.current_lead_index s) |}).
  set (entry := fst (MailLogRepo.create (now env) (log_uuid env) data (mail_logs w))).
  set (w1 := with_mail_logs (mail_logs w ++ [entry]) w).
  set (ll := leadImapListener active).
  set (w2 := on_objects (alter (with_leadImapListener None) a) (disconnected ll w1)).
  destruct (disconnected_fields ll w1) as (Hreg2 & Hobj2 & Htim2 & Htbl2 & Hacc2).
  destruct (disconnected_tables ll w1) as (Hlog2 & _).
  assert (Ha1 : objects w1 !! a = Some active) by (unfold w1; by reduce).
  assert (Ha2 : objects w2 !! a = Some (with_leadImapListener None active)).
  { unfold w2. reduce. by rewrite lookup_alter_eq, Hobj2, Ha1. }
  assert (F : timeouts w2 = timeouts w ∧ mail_logs w2 = mail_logs w ++ [entry]
              ∧ warmup_sessions w2 = warmup_sessions w
              ∧ activeSessions w2 = activeSessions w).
  { unfold w2. reduce. rewrite Htim2, Hlog2, Htbl2, Hreg2. unfold w1. by reduce. }
  destruct F as (F1 & F2 & F3 & F4).
  assert (F5 : newTimer w2 = newTimer w).
  { apply newTimer_same; [exact F1|]. unfold w2. rewrite held_alter by done.
    apply held_objects. rewrite Hobj2. unfold w1. by reduce. }
  assert (Hgone : ∀ l, ll = Some l → is_Some (imapListeners w !! l) →
                       ∃ L, imapListeners w2 !! l = Some L
                            ∧ Imap.isDestroyed (imap L) = true).
  { intros l Hl Hsome. unfold w2. reduce. rewrite Hl.
    apply (destroyed_disconnected l w1). unfold w1. by reduce. }
  assert (Hprefix : onEmail_run env (leadOnEmail d lead original a) incoming w
            = (replyTimer ← setTimeout (replyTimer d lead incoming original)
                              (drawn env + 180000)%Z;
               update a (λ o, with_timers (timers o ++ [replyTimer]) o)) w2).
  { unfold onEmail_run, leadOnEmail_run, catch. reduce. rewrite Ha. reduce.
    rewrite Hfrom, String.eqb_refl, Hs. cbn [negb]. reduce.
    rewrite mailLogRepo_create_run. reduce. fold data entry w1.
    rewrite (dropLeadListener_run a active) by exact Ha1. reduce.
    unfold setTimeout. by reduce. }
  rewrite Hprefix. clear Hprefix. clearbody w2.
  unfold setTimeout. reduce. rewrite F5. fold t.
  eexists _, entry. split; [reflexivity|]. reduce.
  split; [done|]. do 7 (split; [done|]).
  split; [apply newTimer_fresh|]. split; [by rewrite F1|]. split.
  { by rewrite lookup_alter_eq, Ha2. }
  split; [|done]. intros l Hl Hsome.
  destruct (Hgone l Hl Hsome) as (L & HL & Hd). by exists L.
Qed.

Lemma lead_delivery_schedules_reply_witness :
  let incoming :=
    {| Imap.messageId := "<u2@corp.io>"; Imap.from := "<Me@Corp.io>";
       Imap.to := "lea@gmail.com"; Imap.subject := "Hi"; Imap.body := "Hello";
       Imap.inReplyTo := None; Imap.date := 12 |} in
  let original := {| g_subject := "Hi"; g_body := "Hello" |} in
  ∃ active s w',
    objects Sample.waiting !! 0%nat = Some active
    ∧ session active = Some s
    ∧ normalize (Imap.from incoming)
      = normalize (DomainAccount.email (domainAccount active))
    ∧ onEmail_run (Sample.env 20 "u5") (leadOnEmail "d1" Sample.lea original 0%nat)
        incoming Sample.waiting = (inr tt, w')
    ∧ MailLog.direction <$> mail_logs w' = [sent; received]
    ∧ timeouts w' !! 0%nat
      = Some (180000%Z, replyTimer "d1" Sample.lea incoming original).
Proof.
  intros incoming original.
  destruct (objects Sample.waiting !! 0%nat) as [active|] eqn:Ha;
    [|vm_compute in Ha; discriminate].
  destruct (session active) as [s|] eqn:Hs;
    [|vm_compute in Ha; injection Ha as <-; discriminate Hs].
  assert (Hfrom : normalize (Imap.from incoming)
                  = normalize (DomainAccount.email (domainAccount active)))
    by (vm_compute in Ha; by injection Ha as <-).
  destruct (lead_delivery_schedules_reply (Sample.env 20 "u5") "d1" Sample.lea original
              0%nat incoming Sample.waiting active s Ha Hs Hfrom)
    as (w' & entry & Hrun & Hlog & Hdir & _ & _ & _ & _ & _ & _ & _ & Htim & _).
  exists active, s, w'. repeat (split; [done|]). split.
  - rewrite Hlog, fmap_app, list_fmap_singleton, Hdir. reflexivity.
  - rewrite Htim. reflexivity.
Defined.

Lemma or_null_or_null o : or_null (or_null o) = or_null o.
Proof. unfold or_null. destruct (truthy o) eqn:Ho; [by rewrite Ho|done]. Qed.

(** The reply of the lead, delivered by the listener on the domain
    account's mailbox to the orchestrator registered for the account: it
    is logged as received with the [In-Reply-To] it carries, the listener
    is disconnected and forgotten, and the lead index [i] of the
    orchestrator's snapshot is stored as [i + 1].  When [i + 1] has
    reached the number of leads the session is completed in the same
    turn; otherwise the row is in status sending, the orchestrator holds
    it, and the cycle is set to run for the next lead after the minimum
    delay plus the number drawn. *)
Theorem domain_reply_advances_or_completes :
  ∀ (env : Env) (d expectedFromEmail : string) (a : addr)
    (incoming : Imap.IncomingEmail) (w : World) (active : ActiveSession)
    (s row : WarmupSession.t),
    activeSessions w !! d = Some a →
    objects w !! a = Some active →
    session active = Some s →
    stored (WarmupSession.id s) w = Some row →
    normalize (Imap.from incoming) = normalize expectedFromEmail →
    let i := WarmupSession.current_lead_index s in
    ∃ w' entry row',
      onEmail_run env (domainOnEmail d expectedFromEmail a) incoming w = (inr tt, w')
      ∧ mail_logs w' = mail_logs w ++ [entry]
      ∧ MailLog.direction entry = received
      ∧ MailLog.session_id entry = Some (WarmupSession.id s)
      ∧ MailLog.from_email entry = Imap.from incoming
      ∧ MailLog.to_email entry = DomainAccount.email (domainAccount active)
      ∧ MailLog.message_id entry = or_null (Some (Imap.messageId incoming))
      ∧ MailLog.in_reply_to entry = or_null (Imap.inReplyTo incoming)
      ∧ MailLog.lead_index entry = Some i
      ∧ (∀ l, domainImapListener active = Some l → is_Some (imapListeners w !! l) →
              destroyed l w')
      ∧ stored (WarmupSession.id s) w' = Some row'
      ∧ WarmupSession.current_lead_index row' = (i + 1)%Z
      ∧ if (Z.of_nat (length (leads active)) <=? i + 1)%Z
        then WarmupSession.status row' = completed
             ∧ WarmupSession.completed_at row' = Some (now env)
             ∧ activeSessions w' = delete d (activeSessions w)
             ∧ domain_accounts w'
               = updateDomainStatus (now env) d idle (domain_accounts w)
             ∧ (∀ t, t ∈ timers active → timeouts w' !! t = None)
             ∧ (∀ t, timeouts w !! t = None → timeouts w' !! t = None)
        else WarmupSession.status row' = sending
             ∧ activeSessions w' = activeSessions w
             ∧ timeouts w !! newTimer w = None
             ∧ timeouts w'
               = <[newTimer w := ((drawn env + minDelayMs)%Z, nextLead d)]>
                   (timeouts w)
             ∧ objects w' !! a
               = Some (with_timers (timers active ++ [newTimer w])
                         (with_session (Some row')
                            (with_domainImapListener None active))).
Proof.
  intros env d expected a incoming w active s row Hreg Ha Hs Hrow Hfrom i.
  set (data := {| MailLogRepo.d_session_id := WarmupSession.id s;
                  MailLogRepo.d_from_email := Imap.from incoming;
                  MailLogRepo.d_to_email := DomainAccount.email (domainAccount active);
                  MailLogRepo.d_subject := Imap.subject incoming;
                  MailLogRepo.d_body := Some (Imap.body incoming);
                  MailLogRepo.d_message_id := Some (Imap.messageId incoming);
                  MailLogRepo.d_in_reply_to := or_null (Imap.inReplyTo incoming);
                  MailLogRepo.d_direction := received;
                  MailLogRepo.d_lead_index := Some i |}).
  set (entry := fst (MailLogRepo.create (now env) (log_uuid env) data (mail_logs w))).
  set (w1 := with_mail_logs (mail_logs w ++ [entry]) w).
  set (dl := domainImapListener active).
  set (w2 := on_objects (alter (with_domainImapListener None) a) (disconnected dl w1)).
  set (U := SessionRepo.updateStatus (now env) (WarmupSession.id s) sending
              (only_index (i + 1)) (warmup_sessions w)).
  set (row1 := SessionRepo.assign (now env) sending (only_index (i + 1)) row).
  set (active3 := with_session (Some row1) (with_domainImapListener None active)).
  set (w3 := on_objects (alter (with_session (fst U)) a) (with_warmup_sessions (snd U) w2)).
  destruct (disconnected_fields dl w1) as (Hreg2 & Hobj2 & Htim2 & Htbl2 & Hacc2).
  destruct (disconnected_tables dl w1) as (Hlog2 & _).
  assert (HU : fst U = Some row1).
  { unfold U. rewrite updateStatus_row. unfold stored in Hrow. by rewrite Hrow. }
  assert (Hstored : SessionRepo.findById (WarmupSession.id s) (snd U) = Some row1).
  { unfold U. rewrite findById_updateStatus. unfold stored in Hrow. rewrite Hrow.
    simpl. by rewrite decide_True. }
  assert (Ha1 : objects w1 !! a = Some active) by (unfold w1; by reduce).
  assert (Ha3 : objects w3 !! a = Some active3).
  { unfold w3, w2. reduce. by rewrite !lookup_alter_eq, Hobj2, Ha1, HU. }
  assert (F : activeSessions w3 = activeSessions w ∧ timeouts w3 = timeouts w
              ∧ mail_logs w3 = mail_logs w ++ [entry]
              ∧ warmup_sessions w3 = snd U
              ∧ domain_accounts w3 = domain_accounts w).
  { unfold w3, w2. reduce. rewrite Hreg2, Htim2, Hlog2, Hacc2. unfold w1. by reduce. }
  destruct F as (F1 & F2 & F3 & F4 & F5).
  assert (F6 : newTimer w3 = newTimer w).
  { apply newTimer_same; [exact F2|]. unfold w3, w2.
    rewrite held_alter by done.
    etrans; [apply (held_objects (on_objects (alter (with_domainImapListener None) a)
                                    (disconnected dl w1))); by reduce|].
    rewrite held_alter by done. apply held_objects. rewrite Hobj2. unfold w1. by reduce. }
  assert (Hgone : ∀ l, dl = Some l → is_Some (imapListeners w !! l) →
                       ∃ L, imapListeners w3 !! l = Some L
                            ∧ Imap.isDestroyed (imap L) = true).
  { intros l Hl Hsome. unfold w3, w2. reduce. rewrite Hl.
    apply (destroyed_disconnected l w1). unfold w1. by reduce. }
  assert (Hprefix : onEmail_run env (domainOnEmail d expected a) incoming w
            = catch
                (if (Z.of_nat (length (leads active)) <=? i + 1)%Z
                 then completeSession env d
                 else
                   timer ← setTimeout (nextLead d) (drawn env + minDelayMs)%Z;
                   update a (λ o, with_timers (timers o ++ [timer]) o))
                (λ _, ret tt) w3).
  { unfold onEmail_run, domainOnEmail_run, catch. reduce. rewrite Ha. reduce.
    rewrite Hfrom, String.eqb_refl, Hs. cbn [negb]. reduce.
    rewrite mailLogRepo_create_run. reduce. fold i data entry w1.
    rewrite (dropDomainListener_run a active) by exact Ha1. reduce.
    rewrite sessionRepo_updateStatus_run. reduce.
    assert (Htbl : warmup_sessions (disconnected (domainImapListener active) w1)
                   = warmup_sessions w) by (by etrans; [exact Htbl2|]).
    rewrite Htbl. fold dl U w2 w3. by destruct (_ <=? _)%Z. }
  rewrite Hprefix. clear Hprefix.
  assert (Hreg3 : activeSessions w3 !! d = Some a) by (by rewrite F1).
  clearbody w3 w2 w1. unfold catch.
  destruct (Z.of_nat (length (leads active)) <=? i + 1)%Z.
  - (* no lead remains *)
    rewrite (completeSession_run env d a active3 row1) by done.
    set (w4 := with_domain_accounts _ _).
    destruct (cleanupSession_leaves d a active3 w4) as
      (Hret & E1 & E2 & E3 & E4 & E5 & E6 & _ & Hstay);
      [unfold w4; by reduce..|].
    destruct (cleanupSession d w4) as [r w'] eqn:Hcleanup. cbn [fst snd] in *. subst r.
    exists w', entry, (SessionRepo.assign (now env) completed
                         {| SessionRepo.x_current_lead_index := None;
                            SessionRepo.x_last_message_id := None;
                            SessionRepo.x_error_message := None;
                            SessionRepo.x_completed_at := Some (Some (now env)) |} row1).
    split; [done|]. split; [rewrite E5; unfold w4; reduce; exact F3|].
    do 5 (split; [done|]). split; [apply or_null_or_null|]. split; [done|]. split.
    { intros l Hl Hsome. destruct (Hgone l Hl Hsome) as (L & HL & Hd).
      apply Hstay. exists L. split; [|done]. unfold w4. by reduce. }
    split.
    { unfold stored. rewrite E3. unfold w4. reduce. rewrite F4.
      rewrite findById_updateStatus.
      cbn [WarmupSession.id row1 SessionRepo.assign]. rewrite Hstored. simpl.
      rewrite decide_True; [done|]. symmetry. by eapply findById_id. }
    split; [done|]. split; [done|]. split; [done|].
    split; [rewrite E1; unfold w4; reduce; by rewrite F1|].
    split; [rewrite E4; unfold w4; reduce; by rewrite F5|].
    split.
    + intros t Ht. rewrite E6. by apply cleared_elem.
    + intros t Ht. rewrite E6. apply cleared_None. unfold w4. reduce. by rewrite F2.
  - (* leads remain *)
    unfold setTimeout. reduce. rewrite F6.
    eexists _, entry, row1. split; [reflexivity|]. reduce.
    split; [done|]. do 5 (split; [done|]). split; [apply or_null_or_null|].
    split; [done|]. split.
    { intros l Hl Hsome. destruct (Hgone l Hl Hsome) as (L & HL & Hd). by exists L. }
    split; [unfold stored; reduce; by rewrite F4|].
    split; [done|]. split; [done|]. split; [done|].
    split; [apply newTimer_fresh|]. split; [by rewrite F2|].
    by rewrite lookup_alter_eq, Ha3.
Qed.

Lemma domain_reply_advances_or_completes_witness :
  let w := Sample.replied_world (Some "<u2@corp.io>") in
  let incoming :=
    {| Imap.messageId := "<u8@gmail.com>"; Imap.from := "lea@gmail.com";
       Imap.to := "me@corp.io"; Imap.subject := "Re: Hi"; Imap.body := "Sure";
       Imap.inReplyTo := Some "<u2@corp.io>"; Imap.date := 200001 |} in
  ∃ active s row w' row',
    activeSessions w !! "d1" = Some 0%nat
    ∧ objects w !! 0%nat = Some active
    ∧ session active = Some s
    ∧ stored (WarmupSession.id s) w = Some row
    ∧ WarmupSession.current_lead_index s = 0%Z
    ∧ length (leads active) = 2%nat
    ∧ onEmail_run (Sample.env 200002 "u9") (domainOnEmail "d1" "lea@gmail.com" 0%nat)
        incoming w = (inr tt, w')
    ∧ MailLog.direction <$> mail_logs w' = [sent; received; replied; received]
    ∧ stored (WarmupSession.id s) w' = Some row'
    ∧ WarmupSession.current_lead_index row' = 1%Z
    ∧ WarmupSession.status row' = sending.
Proof.
  intros w incoming.
  destruct (objects w !! 0%nat) as [active|] eqn:Ha; [|vm_compute in Ha; discriminate].
  destruct (session active) as [s|] eqn:Hs;
    [|vm_compute in Ha; injection Ha as <-; discriminate Hs].
  destruct (stored (WarmupSession.id s) w) as [row|] eqn:Hrow;
    [|vm_compute in Ha; injection Ha as <-; injection Hs as <-;
      vm_compute in Hrow; discriminate].
  assert (Hreg : activeSessions w !! "d1" = Some 0%nat) by reflexivity.
  assert (Hi : WarmupSession.current_lead_index s = 0%Z)
    by (vm_compute in Ha; injection Ha as <-; by injection Hs as <-).
  assert (Hn : length (leads active) = 2%nat)
    by (vm_compute in Ha; by injection Ha as <-).
  assert (Hlogs : MailLog.direction <$> mail_logs w = [sent; received; replied])
    by reflexivity.
  destruct (domain_reply_advances_or_completes (Sample.env 200002 "u9") "d1"
              "lea@gmail.com" 0%nat incoming w active s row Hreg Ha Hs Hrow eq_refl)
    as (w' & entry & row' & Hrun & Hlog & Hdir & _ & _ & _ & _ & _ & _ & _ & Hrow'
        & Hidx & Hcase).
  assert (Hle : (Z.of_nat 2 <=? 0 + 1)%Z = false) by reflexivity.
  rewrite Hi, Hn, Hle in Hcase. destruct Hcase as (Hst & _).
  exists active, s, row, w', row'.
  do 6 (split; [first [assumption|reflexivity]|]). split; [exact Hrun|]. split.
  { rewrite Hlog, fmap_app, Hlogs, list_fmap_singleton, Hdir. reflexivity. }
  split; [exact Hrow'|]. split; [|exact Hst]. rewrite Hidx, Hi. reflexivity.
Defined.

(** What the setting up of the listener on the domain account's mailbox
    leaves. *)
Lemma setupDomainReplyListener_leaves env d expected mid a active w :
  activeSessions w !! d = Some a →
  objects w !! a = Some active →
  let l := fresh (dom (imapListeners w)) in
  ∃ w' L,
    setupDomainReplyListener env d expected mid w = (inr tt, w')
    ∧ imapListeners w !! l = None
    ∧ imapListeners w' !! l = Some L
    ∧ emailCallback L = domainOnEmail d expected a
    ∧ timeoutCallback L = domainOnTimeout d expected a
    ∧ Imap.config (imap L)
      = {| Imap.host := DomainAccount.imap_host (domainAccount active);
           Imap.port := DomainAccount.imap_port (domainAccount active);
           Imap.secure := DomainAccount.imap_secure (domainAccount active);
           Imap.password := DomainAccount.imap_password (domainAccount active);
           Imap.email := DomainAccount.email (domainAccount active);
           Imap.filterFromEmail := Some expected |}
    ∧ Imap.isDestroyed (imap L) = false
    ∧ objects w' !! a = Some (with_domainImapListener (Some l) active)
    ∧ activeSessions w' = activeSessions w
    ∧ timeouts w' = timeouts w
    ∧ warmup_sessions w' = warmup_sessions w
    ∧ mail_logs w' = mail_logs w
    ∧ domain_accounts w' = domain_accounts w
    ∧ (∀ l0, domainImapListener active = Some l0 → is_Some (imapListeners w !! l0) →
             destroyed l0 w').
Proof.
  intros Hreg Ha l.
  set (dl := domainImapListener active).
  set (w1 := on_objects (alter (with_domainImapListener None) a) (disconnected dl w)).
  destruct (disconnected_fields dl w) as (Hreg1 & Hobj1 & Htim1 & Htbl1 & Hacc1).
  destruct (disconnected_tables dl w) as (Hlog1 & Hlead1).
  assert (Ha1 : objects w1 !! a = Some (with_domainImapListener None active)).
  { unfold w1. reduce. by rewrite lookup_alter_eq, Hobj1, Ha. }
  assert (Hl : fresh (dom (imapListeners w1)) = l).
  { unfold w1. reduce. by rewrite disconnected_dom. }
  assert (Hnew : imapListeners w !! l = None) by apply not_elem_of_dom, is_fresh.
  assert (Hsame : activeSessions w1 = activeSessions w ∧ timeouts w1 = timeouts w
                  ∧ warmup_sessions w1 = warmup_sessions w
                  ∧ domain_accounts w1 = domain_accounts w
                  ∧ mail_logs w1 = mail_logs w
                  ∧ imapListeners w1 = imapListeners (disconnected dl w)).
  { unfold w1. reduce. done. }
  destruct Hsame as (E1 & E2 & E3 & E4 & E5 & E6).
  assert (Hprefix : setupDomainReplyListener env d expected mid w
            = (active ← read a;
               domainListener ← newImapListener
                 {| Imap.host := DomainAccount.imap_host (domainAccount active);
                    Imap.port := DomainAccount.imap_port (domainAccount active);
                    Imap.secure := DomainAccount.imap_secure (domainAccount active);
                    Imap.password := DomainAccount.imap_password (domainAccount active);
                    Imap.email := DomainAccount.email (domainAccount active);
                    Imap.filterFromEmail := Some expected |}
                 (domainOnEmail d expected a) (domainOnTimeout d expected a);
               update a (with_domainImapListener (Some domainListener));;
               connect (connects env) domainListener) w1).
  { unfold setupDomainReplyListener. reduce. rewrite Hreg. reduce.
    rewrite (dropDomainListener_run a active) by done. by reduce. }
  rewrite Hprefix. clear Hprefix. clearbody w1.
  unfold newImapListener, connect. reduce. rewrite Ha1. reduce. rewrite Hl.
  eexists _, _. split; [reflexivity|]. reduce.
  split; [done|]. split.
  { rewrite lookup_alter_eq, lookup_insert_eq. simpl. reflexivity. }
  split; [done|]. split; [done|]. split.
  { unfold Imap.connect, Imap.safeReconnect. simpl. by destruct (connects env). }
  split.
  { unfold Imap.connect, Imap.safeReconnect. simpl. by destruct (connects env). }
  split.
  { rewrite lookup_alter_eq, Ha1. simpl.
    unfold with_domainImapListener. simpl. done. }
  repeat (split; [done|]).
  intros l0 Hl0 Hsome. fold dl in Hl0.
  assert (Hne : l0 ≠ l).
  { intros ->. destruct Hsome as [L0 HL0]. by rewrite Hnew in HL0. }
  destruct (destroyed_disconnected l0 w Hsome) as (L0 & HL0 & Hd).
  exists L0. split; [|done]. reduce.
  rewrite lookup_alter_ne, lookup_insert_ne by done. by rewrite E6, Hl0.
Qed.

(** The timer of the lead's reply.  When it fires for an account whose
    orchestrator is gone or paused, nothing happens.  Otherwise the reply
    is generated and sent from the lead's address to the domain account's,
    as an answer to the Message-ID of the message the lead received; it is
    logged as replied with that Message-ID as [in_reply_to], and a new
    listener is set on the domain account's mailbox, filtered on the
    lead's address, with the callbacks for this lead's reply; the session
    rows are as they were.  When the generator or the server fails, the
    error is handled by nobody: nothing is written, the session is not
    failed, and no listener or timer is set that would move it on. *)
Theorem reply_timer_sends_the_reply :
  ∀ (env : Env) (d : string) (lead : LeadAccount.t) (incoming : Imap.IncomingEmail)
    (original : GroqEmailResponse) (w : World),
    let task := replyTimer d lead incoming original in
    let reply_params (active : ActiveSession) (content : GroqEmailResponse) :=
      {| Smtp.to := DomainAccount.email (domainAccount active);
         Smtp.subject := g_subject content;
         Smtp.body := g_body content;
         Smtp.inReplyTo := Some (Imap.messageId incoming);
         Smtp.references := Some (Imap.messageId incoming) |} in
    (activeSessions w !! d = None → task_run env task w = (inr tt, w))
    ∧ (∀ a active,
         activeSessions w !! d = Some a → objects w !! a = Some active →
         isPaused active = true →
         task_run env task w = (inr tt, w))
    ∧ (∀ a active e,
         activeSessions w !! d = Some a → objects w !! a = Some active →
         isPaused active = false →
         (generated env = inl e
          ∨ ∃ content m,
              generated env = inr content
              ∧ Smtp.sendEmail (sendMail env) (smtpOfLead lead)
                  (reply_params active content) (uuid env) = inl m
              ∧ e = External m) →
         task_run env task w = (inl e, w))
    ∧ (∀ a active s content result,
         activeSessions w !! d = Some a → objects w !! a = Some active →
         isPaused active = false →
         session active = Some s →
         generated env = inr content →
         Smtp.sendEmail (sendMail env) (smtpOfLead lead)
           (reply_params active content) (uuid env) = inr result →
         let l := fresh (dom (imapListeners w)) in
         ∃ w' entry L,
           task_run env task w = (inr tt, w')
           ∧ mail_logs w' = mail_logs w ++ [entry]
           ∧ MailLog.direction entry = replied
           ∧ MailLog.session_id entry = Some (WarmupSession.id s)
           ∧ MailLog.from_email entry = LeadAccount.email lead
           ∧ MailLog.to_email entry = DomainAccount.email (domainAccount active)
           ∧ MailLog.message_id entry = or_null (Some (Smtp.messageId result))
           ∧ MailLog.in_reply_to entry = or_null (Some (Imap.messageId incoming))
           ∧ MailLog.lead_index entry = Some (WarmupSession.current_lead_index s)
           ∧ imapListeners w !! l = None
           ∧ imapListeners w' !! l = Some L
           ∧ emailCallback L = domainOnEmail d (LeadAccount.email lead) a
           ∧ timeoutCallback L = domainOnTimeout d (LeadAccount.email lead) a
           ∧ Imap.email (Imap.config (imap L)) = DomainAccount.email (domainAccount active)
           ∧ Imap.filterFromEmail (Imap.config (imap L)) = Some (LeadAccount.email lead)
           ∧ Imap.isDestroyed (imap L) = false
           ∧ objects w' !! a = Some (with_domainImapListener (Some l) active)
           ∧ warmup_sessions w' = warmup_sessions w
           ∧ activeSessions w' = activeSessions w
           ∧ timeouts w' = timeouts w).
Proof.
  intros env d lead incoming original w task reply_params.
  split; [|split; [|split]].
  - intros Hreg. unfold task, task_run. reduce. by rewrite Hreg.
  - intros a active Hreg Ha Hpaused. unfold task, task_run. reduce.
    rewrite Hreg. reduce. rewrite Ha. reduce. by rewrite Hpaused.
  - intros a active e Hreg Ha Hpaused Hfail. unfold task, task_run, sendLeadReply.
    reduce. rewrite Hreg. reduce. rewrite Ha. reduce. rewrite Hpaused. reduce.
    rewrite Hreg. reduce. rewrite Ha. reduce. rewrite Hpaused. reduce.
    destruct Hfail as [Hgen|(content & m & Hgen & Hsend & ->)]; rewrite Hgen; reduce;
      [done|].
    unfold sendEmail. unfold reply_params in Hsend. rewrite Hsend. by reduce.
  - intros a active s content result Hreg Ha Hpaused Hs Hgen Hsend l.
    set (data := {| MailLogRepo.d_session_id := WarmupSession.id s;
                    MailLogRepo.d_from_email := LeadAccount.email lead;
                    MailLogRepo.d_to_email := DomainAccount.email (domainAccount active);
                    MailLogRepo.d_subject := g_subject content;
                    MailLogRepo.d_body := Some (g_body content);
                    MailLogRepo.d_message_id := Some (Smtp.messageId result);
                    MailLogRepo.d_in_reply_to := Some (Imap.messageId incoming);
                    MailLogRepo.d_direction := replied;
                    MailLogRepo.d_lead_index :=
                      Some (WarmupSession.current_lead_index s) |}).
    set (entry := fst (MailLogRepo.create (now env) (log_uuid env) data (mail_logs w))).
    set (w1 := with_mail_logs (mail_logs w ++ [entry]) w).
    assert (Hprefix : task_run env task w
              = setupDomainReplyListener env d (LeadAccount.email lead)
                  (Smtp.messageId result) w1).
    { unfold task, task_run, sendLeadReply.
      reduce. rewrite Hreg. reduce. rewrite Ha. reduce. rewrite Hpaused. reduce.
      rewrite Hreg. reduce. rewrite Ha. reduce. rewrite Hpaused. reduce.
      rewrite Hgen. reduce. unfold sendEmail. unfold reply_params in Hsend.
      rewrite Hsend. reduce. rewrite Hs. reduce.
      rewrite mailLogRepo_create_run. by reduce. }
    destruct (setupDomainReplyListener_leaves env d (LeadAccount.email lead)
                (Smtp.messageId result) a active w1)
      as (w' & L & Hrun & Hnew & HL & Hcb & Htcb & Hcfg & Halive & Hobj & E1 & E2
          & E3 & E4 & E5 & Hgone); [unfold w1; by reduce..|].
    assert (F : fresh (dom (imapListeners w1)) = l ∧ imapListeners w1 = imapListeners w)
      by (unfold w1; by reduce).
    destruct F as (F1 & F2). rewrite F1, F2 in *.
    exists w', entry, L. rewrite Hprefix.
    split; [exact Hrun|]. split; [by rewrite E4|].
    do 7 (split; [done|]). split; [exact Hnew|]. split; [exact HL|].
    split; [done|]. split; [done|]. split; [by rewrite Hcfg|].
    split; [by rewrite Hcfg|]. split; [done|]. split; [exact Hobj|]. done.
Qed.

Lemma reply_timer_sends_the_reply_witness :
  let incoming :=
    {| Imap.messageId := "<u2@corp.io>"; Imap.from := "<Me@Corp.io>";
       Imap.to := "lea@gmail.com"; Imap.subject := "Hi"; Imap.body := "Hello";
       Imap.inReplyTo := None; Imap.date := 12 |} in
  let original := {| g_subject := "Hi"; g_body := "Hello" |} in
  ∃ active s w',
    activeSessions Sample.waiting !! "d1" = Some 0%nat
    ∧ objects Sample.waiting !! 0%nat = Some active
    ∧ isPaused active = false
    ∧ session active = Some s
    ∧ task_run (Sample.env 30 "u6") (replyTimer "d1" Sample.lea incoming original)
        Sample.waiting = (inr tt, w')
    ∧ MailLog.direction <$> mail_logs w' = [sent; replied]
    ∧ MailLog.in_reply_to <$> last (mail_logs w') = Some (Some "<u2@corp.io>")
    ∧ objects w' !! 0%nat
      = Some (with_domainImapListener
                (Some (fresh (dom (imapListeners Sample.waiting)))) active).
Proof.
  intros incoming original.
  assert (Hreg : activeSessions Sample.waiting !! "d1" = Some 0%nat) by reflexivity.
  destruct (objects Sample.waiting !! 0%nat) as [active|] eqn:Ha;
    [|vm_compute in Ha; discriminate].
  destruct (session active) as [s|] eqn:Hs;
    [|vm_compute in Ha; injection Ha as <-; discriminate Hs].
  assert (Hp : isPaused active = false) by (vm_compute in Ha; by injection Ha as <-).
  assert (Hto : DomainAccount.email (domainAccount active) = "me@corp.io")
    by (vm_compute in Ha; by injection Ha as <-).
  assert (Hlogs : MailLog.direction <$> mail_logs Sample.waiting = [sent])
    by reflexivity.
  destruct (generated (Sample.env 30 "u6")) as [e|content] eqn:Hgen;
    [vm_compute in Hgen; discriminate|].
  destruct (Smtp.sendEmail (sendMail (Sample.env 30 "u6")) (smtpOfLead Sample.lea)
              {| Smtp.to := DomainAccount.email (domainAccount active);
                 Smtp.subject := g_subject content;
                 Smtp.body := g_body content;
                 Smtp.inReplyTo := Some (Imap.messageId incoming);
                 Smtp.references := Some (Imap.messageId incoming) |}
              (uuid (Sample.env 30 "u6"))) as [m|result] eqn:Hsend;
    [rewrite Hto in Hsend; vm_compute in Hgen; injection Hgen as <-;
     vm_compute in Hsend; discriminate|].
  destruct (reply_timer_sends_the_reply (Sample.env 30 "u6") "d1" Sample.lea incoming
              original Sample.waiting) as (_ & _ & _ & Hok).
  destruct (Hok 0%nat active s content result Hreg Ha Hp Hs Hgen Hsend)
    as (w' & entry & L & Hrun & Hlog & Hdir & _ & _ & _ & _ & Hirt & _ & _ & _ & _
        & _ & _ & _ & _ & Hobj & _).
  exists active, s, w'.
  do 4 (split; [first [assumption|reflexivity]|]).
  split; [exact Hrun|]. split.
  { rewrite Hlog, fmap_app, Hlogs, list_fmap_singleton, Hdir. reflexivity. }
  split; [|exact Hobj].
  rewrite Hlog, last_snoc. simpl. rewrite Hirt. reflexivity.
Defined.


(** ** What no run of the orchestrator undoes *)

Lemma same_identity_refl r : same_identity r r.
Proof. by repeat split. Qed.

Lemma persists_refl tbl : persists tbl tbl.
Proof. intros i r Hr. exists r. split; [done|apply same_identity_refl]. Qed.

Lemma persists_trans tbl1 tbl2 tbl3 :
  persists tbl1 tbl2 → persists tbl2 tbl3 → persists tbl1 tbl3.
Proof.
  intros H12 H23 i r Hr.
  destruct (H12 i r Hr) as (r2 & Hr2 & I1 & I2 & I3 & I4).
  destruct (H23 i r2 Hr2) as (r3 & Hr3 & J1 & J2 & J3 & J4).
  exists r3. split; [done|]. repeat split; congruence.
Qed.

Lemma lasting_same w w' :
  warmup_sessions w' = warmup_sessions w → mail_logs w' = mail_logs w → lasting w w'.
Proof.
  intros Htbl Hlog. unfold lasting, log_grows, sessions_persist.
  rewrite Htbl, Hlog. split; [done|]. split; [apply persists_refl|done].
Qed.

Lemma lasting_frame : Frame lasting.
Proof.
  split.
  - intros w. by apply lasting_same.
  - intros w1 w2 w3 (L12 & P12 & D12) (L23 & P23 & D23).
    split; [unfold log_grows in *; by etrans|]. split; [by eapply persists_trans|auto].
  - intros w w' (Htbl & Hlog & _). by apply lasting_same.
Qed.

(** An update in place of the rows with one id, by a function that keeps
    what identifies a row. *)
Lemma update_where_id_lasts session_id (set : WarmupSession.t → WarmupSession.t) tbl :
  (∀ r, same_identity r (set r)) →
  let tbl' := snd (SessionRepo.update_where_id session_id set tbl) in
  persists tbl tbl' ∧ day_key <$> tbl' = day_key <$> tbl.
Proof.
  intros Hset. simpl. split.
  - intros i r Hr. rewrite list_lookup_fmap, Hr. simpl.
    eexists. split; [reflexivity|]. simpl. case_decide; [apply Hset|apply same_identity_refl].
  - rewrite <- list_fmap_compose. apply list_fmap_ext. intros i r _. simpl.
    case_decide; [|done]. destruct (Hset r) as (_ & Hd & Hdate & _).
    unfold day_key. by rewrite Hd, Hdate.
Qed.

Lemma lasting_tables w tbl :
  persists (warmup_sessions w) tbl →
  (one_per_day (warmup_sessions w) → one_per_day tbl) →
  lasting w (with_warmup_sessions tbl w).
Proof. intros Hp Hd. split; [unfold log_grows; reflexivity|]. split; [exact Hp|exact Hd]. Qed.

Lemma lasting_status env session_id st extras :
  keeps lasting (sessionRepo_updateStatus env session_id st extras).
Proof.
  intros w. unfold sessionRepo_updateStatus, SessionRepo.updateStatus.
  destruct (update_where_id_lasts session_id
              (SessionRepo.assign (now env) st extras) (warmup_sessions w))
    as [Hp Hk]; [intros r; by repeat split|].
  destruct (SessionRepo.update_where_id _ _ _) as [rows tbl']. simpl in *.
  apply lasting_tables; [done|]. unfold one_per_day. by rewrite Hk.
Qed.

Lemma lasting_create env d : keeps lasting (sessionRepo_create env d).
Proof.
  intros w. unfold sessionRepo_create, SessionRepo.create.
  destruct (filter _ (warmup_sessions w)) as [|existing0 rest] eqn:Hex.
  - simpl. apply lasting_tables.
    + intros i r Hr. exists r. split; [|apply same_identity_refl].
      by apply lookup_app_l_Some.
    + unfold one_per_day. rewrite fmap_app. simpl. intros Hnd.
      apply NoDup_app. split; [done|]. split; [|apply NoDup_singleton].
      intros k Hk Hk'. apply list_elem_of_singleton in Hk' as ->.
      apply list_elem_of_fmap in Hk as (r & Hkey & Hr).
      assert (Hin : r ∈ filter (λ r, WarmupSession.domain_account_id r = d
                                     ∧ WarmupSession.session_date r
                                       = CURRENT_DATE (now env)) (warmup_sessions w)).
      { apply list_elem_of_filter. split; [|done].
        unfold day_key, SessionRepo.inserted in Hkey. simpl in Hkey.
        by injection Hkey as <- <-. }
      rewrite Hex in Hin. by apply elem_of_nil in Hin.
  - destruct (update_where_id_lasts (WarmupSession.id existing0)
                (SessionRepo.reset (now env)) (warmup_sessions w))
      as [Hp Hk]; [intros r; by repeat split|].
    destruct (SessionRepo.update_where_id _ _ _) as [rows tbl']. simpl in *.
    apply lasting_tables; [done|]. unfold one_per_day. by rewrite Hk.
Qed.

Lemma lasting_log env data : keeps lasting (mailLogRepo_create env data).
Proof.
  intros w. unfold mailLogRepo_create, MailLogRepo.create. simpl.
  split; [unfold log_grows; by apply prefix_app_r|]. split; [apply persists_refl|done].
Qed.

Lemma lasting_setTimeout task delay : keeps lasting (setTimeout task delay).
Proof. intros w. by apply lasting_same. Qed.

Lemma lasting_allows_status : allows_status lasting.
Proof. intros env session_id st extras w _. apply lasting_status. Qed.

(** The facts a proof that a function keeps [lasting] starts from. *)
Ltac lasting_auto :=
  pose proof lasting_frame; pose proof lasting_status; pose proof lasting_create;
  pose proof lasting_log; pose proof lasting_setTimeout;
  pose proof lasting_allows_status;
  keeps_auto.

Lemma lasting_completeSession env d : keeps lasting (completeSession env d).
Proof. apply (keeps_completeSession lasting_frame lasting_allows_status). Qed.

Lemma lasting_failSession env d m : keeps lasting (failSession env d m).
Proof. apply (keeps_failSession lasting_frame lasting_allows_status). Qed.

Lemma lasting_processLead env d a active : keeps lasting (processLead env d a active).
Proof. unfold processLead. lasting_auto. Qed.

Lemma lasting_processNextLead env d : keeps lasting (processNextLead env d).
Proof. pose proof lasting_processLead. unfold processNextLead. lasting_auto. Qed.

Lemma lasting_skipToNextLead env d reason : keeps lasting (skipToNextLead env d reason).
Proof. unfold skipToNextLead. lasting_auto. Qed.

Lemma lasting_leadOnEmail_run env d lead original a incoming :
  keeps lasting (leadOnEmail_run env d lead original a incoming).
Proof. unfold leadOnEmail_run. lasting_auto. Qed.

Lemma lasting_domainOnEmail_run env d expected a incoming :
  keeps lasting (domainOnEmail_run env d expected a incoming).
Proof. unfold domainOnEmail_run. lasting_auto. Qed.

Lemma lasting_onTimeout_run env cb : keeps lasting (onTimeout_run env cb).
Proof. pose proof lasting_skipToNextLead. unfold onTimeout_run. lasting_auto. Qed.

Lemma lasting_sendLeadReply env d lead incoming original :
  keeps lasting (sendLeadReply env d lead incoming original).
Proof. unfold sendLeadReply. lasting_auto. Qed.

Lemma lasting_task_run env task : keeps lasting (task_run env task).
Proof.
  pose proof lasting_sendLeadReply. pose proof lasting_processNextLead.
  pose proof lasting_processLead. pose proof lasting_failSession.
  destruct task; unfold task_run; lasting_auto.
Qed.

Lemma lasting_startWarmup decrypt env d : keeps lasting (startWarmup decrypt env d).
Proof. unfold startWarmup, launch. lasting_auto. Qed.

Lemma lasting_notify_all env L ns : keeps lasting (notify_all env L ns).
Proof.
  pose proof lasting_leadOnEmail_run. pose proof lasting_domainOnEmail_run.
  pose proof lasting_onTimeout_run.
  induction ns as [|n ns IH]; simpl; [lasting_auto|].
  assert (keeps lasting (notify env L n)).
  { destruct n as [e|]; simpl; [|done]. destruct (emailCallback L); simpl; done. }
  lasting_auto.
Qed.

Lemma lasting_happen decrypt env h w : lasting w (happen decrypt env h w).
Proof.
  pose proof lasting_startWarmup. pose proof lasting_notify_all.
  pose proof lasting_task_run.
  assert (Hpause : ∀ d, keeps lasting (pauseWarmup env d))
    by (intros d; apply (keeps_pauseWarmup lasting_frame lasting_allows_status)).
  assert (Hstop : ∀ d, keeps lasting (stopWarmup env d))
    by (intros d; apply (keeps_stopWarmup lasting_frame lasting_allows_status)).
  destruct h as [[d|d|d|d]|l ev|t]; unfold happen.
  - assert (Hk : keeps lasting (serve decrypt env (Start d)))
      by (unfold serve; lasting_auto). apply Hk.
  - assert (Hk : keeps lasting (serve decrypt env (Pause d)))
      by (unfold serve; lasting_auto). apply Hk.
  - assert (Hk : keeps lasting (serve decrypt env (Resume d)))
      by (unfold serve, resumeWarmup; lasting_auto). apply Hk.
  - apply Hstop.
  - assert (Hk : keeps lasting (imap_happens env l ev))
      by (unfold imap_happens; lasting_auto). apply Hk.
  - assert (Hk : keeps lasting (timer_fires env t))
      by (unfold timer_fires; lasting_auto). apply Hk.
Qed.

Lemma lasting_history decrypt hs w : lasting w (history decrypt hs w).
Proof.
  revert w. induction hs as [|[env h] hs IH]; intros w; simpl.
  - apply (frame_refl lasting lasting_frame).
  - eapply (frame_trans lasting lasting_frame); [apply lasting_happen|apply IH].
Qed.

(** Whatever happens to the process — requests to start, pause, resume
    and stop, callbacks of the mailboxes, timers, in any order and with
    any failures — the orchestrator only adds to its records: every entry
    of the mail log stays where it is, unchanged, and every session row
    stays in the table as the same session, with its id, its domain
    account, its day and its time of creation. *)
Theorem orchestrator_never_deletes_records :
  ∀ (decrypt : string → string + string) (hs : list (Env * Happening)) (w : World),
    let w' := history decrypt hs w in
    (∀ i entry, mail_logs w !! i = Some entry → mail_logs w' !! i = Some entry)
    ∧ (∀ i r, warmup_sessions w !! i = Some r →
         ∃ r', warmup_sessions w' !! i = Some r'
               ∧ WarmupSession.id r' = WarmupSession.id r
               ∧ WarmupSession.domain_account_id r' = WarmupSession.domain_account_id r
               ∧ WarmupSession.session_date r' = WarmupSession.session_date r
               ∧ WarmupSession.created_at r' = WarmupSession.created_at r)
    ∧ (length (mail_logs w) ≤ length (mail_logs w'))%nat
    ∧ (length (warmup_sessions w) ≤ length (warmup_sessions w'))%nat.
Proof.
  intros decrypt hs w w'.
  destruct (lasting_history decrypt hs w) as (Hlog & Hrows & _). fold w' in Hlog, Hrows.
  split; [|split; [|split]].
  - intros i entry Hi. by eapply prefix_lookup_Some.
  - intros i r Hr. destruct (Hrows i r Hr) as (r' & Hr' & Hsame). by exists r'.
  - by apply prefix_length.
  - destruct (decide (length (warmup_sessions w) ≤ length (warmup_sessions w'))%nat)
      as [|Hlt]; [done|].
    destruct (warmup_sessions w) as [|r0 rest] eqn:Htbl; [simpl; lia|].
    assert (Hlast : is_Some ((r0 :: rest) !! length rest)).
    { apply lookup_lt_is_Some. simpl. lia. }
    destruct Hlast as [r Hr]. unfold sessions_persist, persists in Hrows.
    rewrite Htbl in Hrows.
    destruct (Hrows _ r Hr) as (r' & Hr' & _).
    apply lookup_lt_Some in Hr'. simpl in *. lia.
Qed.

(** Whatever happens to the process, the table of sessions keeps at most
    one row for a domain account and a day, as the schema demands: a start
    on a day that has a row for the account takes that row and never adds
    a second. *)
Theorem one_session_per_account_and_day :
  ∀ (decrypt : string → string + string) (hs : list (Env * Happening)) (w : World),
    one_per_day (warmup_sessions w) →
    one_per_day (warmup_sessions (history decrypt hs w))
    ∧ ∀ r1 r2,
        r1 ∈ warmup_sessions (history decrypt hs w) →
        r2 ∈ warmup_sessions (history decrypt hs w) →
        WarmupSession.domain_account_id r1 = WarmupSession.domain_account_id r2 →
        WarmupSession.session_date r1 = WarmupSession.session_date r2 →
        r1 = r2.
Proof.
  intros decrypt hs w Hw.
  destruct (lasting_history decrypt hs w) as (_ & _ & Hday).
  specialize (Hday Hw). split; [exact Hday|].
  intros r1 r2 H1 H2 Hd Hdate.
  apply list_elem_of_lookup in H1 as [i1 H1]. apply list_elem_of_lookup in H2 as [i2 H2].
  assert (i1 = i2) as ->.
  { eapply (NoDup_lookup _ i1 i2 (day_key r1) Hday).
    - by rewrite list_lookup_fmap, H1.
    - rewrite list_lookup_fmap, H2. simpl. unfold day_key. by rewrite Hd, Hdate. }
  congruence.
Qed.

Lemma orchestrator_never_deletes_records_witness :
  ∃ entry r r',
    mail_logs Sample.running !! 0%nat = Some entry
    ∧ mail_logs Sample.waiting !! 0%nat = Some entry
    ∧ warmup_sessions Sample.running !! 0%nat = Some r
    ∧ warmup_sessions Sample.waiting !! 0%nat = Some r'
    ∧ WarmupSession.id r' = WarmupSession.id r.
Proof.
  destruct (mail_logs Sample.running !! 0%nat) as [entry|] eqn:He;
    [|vm_compute in He; discriminate].
  destruct (warmup_sessions Sample.running !! 0%nat) as [r|] eqn:Hr;
    [|vm_compute in Hr; discriminate].
  destruct (orchestrator_never_deletes_records Sample.plain
              [(Sample.env 12 "u3", imapEvent 0 Imap.Ready);
               (Sample.env 13 "u4", imapEvent 0 (Imap.BoxOpened true))] Sample.running)
    as (Hlog & Hrows & _).
  destruct (Hrows 0%nat r Hr) as (r' & Hr' & Hid & _).
  exists entry, r, r'. split; [reflexivity|]. split; [exact (Hlog 0%nat entry He)|].
  split; [reflexivity|]. split; [exact Hr'|exact Hid].
Defined.

Lemma one_session_per_account_and_day_witness :
  one_per_day (warmup_sessions Sample.fresh_world)
  ∧ one_per_day (warmup_sessions Sample.running).
Proof.
  assert (H0 : one_per_day (warmup_sessions Sample.fresh_world)) by constructor.
  split; [exact H0|].
  exact (proj1 (one_session_per_account_and_day Sample.plain
                  [(Sample.env 10 "u1", request (Start "d1"));
                   (Sample.env 11 "u2", timerFires 0)] Sample.fresh_world H0)).
Defined.


(** ** The lead index over the life of the process *)

(** *** Changes that leave the registry, the rows and the sessions held *)

Lemma still_refl w : still w w.
Proof. by repeat split. Qed.

Lemma still_trans w1 w2 w3 : still w1 w2 → still w2 w3 → still w1 w3.
Proof.
  intros (H1 & H2 & H3) (H1' & H2' & H3'). split; [congruence|]. split; [congruence|].
  intros a. by rewrite H3', H3.
Qed.

Lemma still_calm : Calm still.
Proof. split; [apply still_refl|apply still_trans|done]. Qed.

Lemma still_imapListeners f w : still w (on_imapListeners f w).
Proof. by repeat split. Qed.

Lemma still_timeouts f w : still w (on_timeouts f w).
Proof. by repeat split. Qed.

Lemma still_domain_accounts tbl w : still w (with_domain_accounts tbl w).
Proof. by repeat split. Qed.

Lemma still_mail_logs tbl w : still w (with_mail_logs tbl w).
Proof. by repeat split. Qed.

Lemma still_alter f a w :
  (∀ o, session (f o) = session o) → still w (on_objects (alter f a) w).
Proof.
  intros Hf. split; [done|]. split; [done|]. intros a'.
  unfold on_objects. cbn [objects]. rewrite lookup_alter. case_decide; [|done].
  subst a'. destruct (objects w !! a) as [o|]; simpl; [|done]. f_equal. apply Hf.
Qed.

Section Calm.
Context {R : World → World → Prop} (HR : Calm R).

Lemma calm_ret {A} (x : A) : keeps R (ret x).
Proof. intros w. apply (calm_refl R HR). Qed.

Lemma calm_mret {A} (x : A) : keeps R (mret x).
Proof. apply calm_ret. Qed.

Lemma calm_throw {A} e : keeps R (throw (A:=A) e).
Proof. intros w. apply (calm_refl R HR). Qed.

Lemma calm_gets {A} (f : World → A) : keeps R (gets f).
Proof. intros w. apply (calm_refl R HR). Qed.

Lemma calm_lift {A} (r : Error + A) : keeps R (lift r).
Proof. intros w. apply (calm_refl R HR). Qed.

Lemma calm_deref {A} (o : option A) : keeps R (deref o).
Proof. destruct o; [apply calm_ret|apply calm_throw]. Qed.

Lemma calm_bind {A B} (m : M A) (k : A → M B) :
  keeps R m → (∀ x, keeps R (k x)) → keeps R (m ≫= k).
Proof.
  intros Hm Hk w. unfold mbind, M_bind, bind.
  specialize (Hm w). destruct (m w) as [[e|x] w1]; [exact Hm|].
  eapply (calm_trans R HR); [exact Hm|apply Hk].
Qed.

Lemma calm_catch {A} (m : M A) (h : Error → M A) :
  keeps R m → (∀ e, keeps R (h e)) → keeps R (catch m h).
Proof.
  intros Hm Hh w. unfold catch.
  specialize (Hm w). destruct (m w) as [[e|x] w1]; [|exact Hm].
  eapply (calm_trans R HR); [exact Hm|apply Hh].
Qed.

Lemma calm_modify (f : World → World) :
  (∀ w, still w (f w)) → keeps R (modify f).
Proof. intros Hf w. apply (calm_still R HR), Hf. Qed.

Lemma calm_update a f :
  (∀ o, session (f o) = session o) → keeps R (update a f).
Proof. intros Hf. apply calm_modify. intros w. by apply still_alter. Qed.

Lemma calm_log env data : keeps R (mailLogRepo_create env data).
Proof. intros w. apply (calm_still R HR), still_mail_logs. Qed.

End Calm.

Create HintDb calm discriminated.

#[export] Hint Resolve calm_ret calm_mret calm_throw calm_gets calm_lift calm_deref
  calm_update calm_log : calm.
#[export] Hint Resolve still_imapListeners still_timeouts still_domain_accounts
  still_mail_logs : calm.
#[export] Hint Extern 1 (_ = _) => reflexivity : calm.

(** One step of a proof that a computation keeps a calm relation. *)
Ltac calm_step :=
  first
    [ solve [eauto with calm]
    | lazymatch goal with
      | |- keeps _ (mbind _ _) => apply calm_bind; [assumption| |intros ?]
      | |- keeps _ (catch _ _) => apply calm_catch; [assumption| |intros ?]
      | |- keeps _ (modify _) => apply calm_modify; [assumption|intros ?; eauto with calm]
      | |- keeps _ (match ?x with _ => _ end) => destruct x
      | |- keeps _ (let _ := _ in _) => cbv zeta
      end ].

Ltac calm_auto := repeat calm_step.

Section Quiet.
Context {R : World → World → Prop} (HR : Calm R).

Lemma calm_registered d : keeps R (registered d).
Proof. unfold registered. calm_auto. Qed.

Lemma calm_read a : keeps R (read a).
Proof. unfold read. calm_auto. Qed.

Lemma calm_disconnect l : keeps R (disconnect l).
Proof. unfold disconnect. calm_auto. Qed.

Lemma calm_connect ok l : keeps R (connect ok l).
Proof. unfold connect. calm_auto. Qed.

Lemma calm_newImapListener config onE onT : keeps R (newImapListener config onE onT).
Proof. unfold newImapListener. calm_auto. Qed.

Lemma calm_clearTimeout t : keeps R (clearTimeout t).
Proof. unfold clearTimeout. calm_auto. Qed.

Lemma calm_clearTimeouts ts : keeps R (clearTimeouts ts).
Proof.
  induction ts as [|t ts IH]; simpl; [apply (calm_ret HR)|].
  apply (calm_bind HR); [apply calm_clearTimeout|done].
Qed.

Lemma calm_setTimeout task delay : keeps R (setTimeout task delay).
Proof. unfold setTimeout. calm_auto. Qed.

Lemma calm_domainAccountRepo_updateStatus env d st :
  keeps R (domainAccountRepo_updateStatus env d st).
Proof. unfold domainAccountRepo_updateStatus. calm_auto. Qed.

Lemma calm_sendEmail env config params : keeps R (sendEmail env config params).
Proof. unfold sendEmail. calm_auto. Qed.

End Quiet.

#[export] Hint Resolve calm_registered calm_read calm_disconnect calm_connect
  calm_newImapListener calm_clearTimeout calm_clearTimeouts calm_setTimeout
  calm_domainAccountRepo_updateStatus calm_sendEmail : calm.

(** The functions of the orchestrator that write no session row and
    leave the registry. *)
Section QuietHandlers.
Context {R : World → World → Prop} (HR : Calm R).

Lemma calm_dropLeadListener a : keeps R (dropLeadListener a).
Proof. unfold dropLeadListener. calm_auto. Qed.

Lemma calm_dropDomainListener a : keeps R (dropDomainListener a).
Proof. unfold dropDomainListener. calm_auto. Qed.

Lemma calm_setupLeadAutoReply env d lead mid original :
  keeps R (setupLeadAutoReply env d lead mid original).
Proof. unfold setupLeadAutoReply. pose proof calm_dropLeadListener. calm_auto. Qed.

Lemma calm_setupDomainReplyListener env d from mid :
  keeps R (setupDomainReplyListener env d from mid).
Proof. unfold setupDomainReplyListener. pose proof calm_dropDomainListener. calm_auto. Qed.

Lemma calm_sendLeadReply env d lead incoming original :
  keeps R (sendLeadReply env d lead incoming original).
Proof. unfold sendLeadReply. pose proof calm_setupDomainReplyListener. calm_auto. Qed.

Lemma calm_leadOnEmail_run env d lead original a incoming :
  keeps R (leadOnEmail_run env d lead original a incoming).
Proof. unfold leadOnEmail_run. pose proof calm_dropLeadListener. calm_auto. Qed.

End QuietHandlers.

#[export] Hint Resolve calm_dropLeadListener calm_dropDomainListener
  calm_setupLeadAutoReply calm_setupDomainReplyListener calm_sendLeadReply
  calm_leadOnEmail_run : calm.

(** *** Changes that register nothing and write no lead index *)

Lemma same_key_trans r1 r2 r3 : same_key r1 r2 → same_key r2 r3 → same_key r1 r3.
Proof. intros (? & ? & ?) (? & ? & ?). repeat split; congruence. Qed.

Lemma same_key_ids tbl tbl' :
  Forall2 same_key tbl tbl' → WarmupSession.id <$> tbl' = WarmupSession.id <$> tbl.
Proof.
  induction 1 as [|r r' tbl tbl' (Hid & _) _ IH]; [done|].
  rewrite !fmap_cons. by f_equal.
Qed.

Lemma same_key_findById sid tbl tbl' r :
  Forall2 same_key tbl tbl' →
  SessionRepo.findById sid tbl = Some r →
  ∃ r', SessionRepo.findById sid tbl' = Some r' ∧ same_key r r'.
Proof.
  unfold SessionRepo.findById, first_row.
  induction 1 as [|x x' tbl tbl' Hx _ IH]; [done|].
  rewrite !filter_cons. destruct Hx as (Hid & Hx).
  destruct (decide (WarmupSession.id x = sid)) as [Hsid|Hsid].
  - rewrite decide_True by congruence. simpl. intros [= <-]. by exists x'.
  - rewrite decide_False by congruence. exact IH.
Qed.

Lemma settles_refl w : settles w w.
Proof.
  split; [done|]. split; [by eauto|].
  apply Forall_Forall2_diag, Forall_forall. by intros r _.
Qed.

Lemma settles_trans w1 w2 w3 : settles w1 w2 → settles w2 w3 → settles w1 w3.
Proof.
  intros (H1 & H2 & H3) (H1' & H2' & H3'). split; [by etrans|]. split.
  - intros a o Ho. destruct (H2 a o Ho) as (o' & Ho' & Hs).
    destruct (H2' a o' Ho') as (o'' & Ho'' & Hs'). exists o''. split; [done|congruence].
  - eapply Forall2_trans; [|exact H3|exact H3']. apply same_key_trans.
Qed.

Lemma settles_calm : Calm settles.
Proof.
  split; [apply settles_refl|apply settles_trans|].
  intros w w' (Hreg & Htbl & Hobj). split; [by rewrite Hreg|]. split.
  - intros a o Ho. specialize (Hobj a). rewrite Ho in Hobj.
    destruct (objects w' !! a) as [o'|]; [|done]. exists o'. split; [done|].
    by injection Hobj.
  - rewrite Htbl. apply Forall_Forall2_diag, Forall_forall. by intros r _.
Qed.

Lemma settles_status env session_id st extras :
  SessionRepo.x_current_lead_index extras = None →
  keeps settles (sessionRepo_updateStatus env session_id st extras).
Proof.
  intros Hx w. rewrite sessionRepo_updateStatus_run. cbn [snd].
  split; [done|]. split; [by eauto|]. cbn [warmup_sessions with_warmup_sessions].
  rewrite updateStatus_table. apply Forall2_fmap_r, Forall_Forall2_diag, Forall_forall.
  intros r _. simpl. case_decide; [|done]. unfold same_key. simpl. by rewrite Hx.
Qed.

Lemma settles_deregister d : keeps settles (modify (on_activeSessions (delete d))).
Proof.
  intros w. split; [apply delete_subseteq|]. split; [by eauto|].
  apply Forall_Forall2_diag, Forall_forall. by intros r _.
Qed.

#[export] Hint Resolve settles_status settles_deregister : calm.

Lemma settles_cleanupSession d : keeps settles (cleanupSession d).
Proof. pose proof settles_calm. unfold cleanupSession. calm_auto. Qed.

Lemma settles_completeSession env d : keeps settles (completeSession env d).
Proof.
  pose proof settles_calm. pose proof settles_cleanupSession.
  unfold completeSession. calm_auto.
Qed.

Lemma settles_failSession env d errorMessage : keeps settles (failSession env d errorMessage).
Proof.
  pose proof settles_calm. pose proof settles_cleanupSession.
  unfold failSession. calm_auto.
Qed.

Lemma settles_pauseWarmup env d : keeps settles (pauseWarmup env d).
Proof. pose proof settles_calm. unfold pauseWarmup. calm_auto. Qed.

Lemma settles_stopWarmup env d : keeps settles (stopWarmup env d).
Proof.
  pose proof settles_calm. pose proof settles_failSession.
  unfold stopWarmup. calm_auto.
Qed.

(** *** Runs that leave a tidy memory tidy *)

Lemma grows_refl w : grows w w.
Proof. intros Htidy. split; [done|apply steady_refl]. Qed.

Lemma grows_trans w1 w2 w3 : grows w1 w2 → grows w2 w3 → grows w1 w3.
Proof.
  intros H12 H23 H1. destruct (H12 H1) as [H2 Hi]. destruct (H23 H2) as [H3 Hi'].
  split; [done|]. by eapply steady_trans.
Qed.

Lemma settles_grows w w' : settles w w' → grows w w'.
Proof.
  intros (Hreg & Hobj & Htbl) (Hkey & Hheld). split; [split|].
  - by rewrite (same_key_ids _ _ Htbl).
  - intros d a Ha. apply (lookup_weaken _ _ _ _ Ha) in Hreg.
    destruct (Hheld d a Hreg) as (o & s & r & Ho & Hs & Hr & Hd & Hle).
    destruct (Hobj a o Ho) as (o' & Ho' & Hs').
    destruct (same_key_findById _ _ _ _ Htbl Hr) as (r' & Hr' & _ & Hd' & Hi').
    exists o', s, r'. split; [done|]. split; [congruence|]. split; [done|].
    split; [congruence|lia].
  - intros sid r Hr.
    destruct (same_key_findById _ _ _ _ Htbl Hr) as (r' & Hr' & _ & Hd' & Hi').
    exists r'. split; [done|]. split; [done|lia].
Qed.

Lemma still_grows w w' : still w w' → grows w w'.
Proof. intros H. by apply settles_grows, (calm_still _ settles_calm). Qed.

(** The one way in which the orchestrator writes a lead index: the
    registered orchestrator stores an index that is not below the one it
    holds, and takes the row returned as its session. *)
Lemma advance_grows env d a o s st extras i w :
  activeSessions w !! d = Some a →
  objects w !! a = Some o →
  session o = Some s →
  SessionRepo.x_current_lead_index extras = Some i →
  (WarmupSession.current_lead_index s ≤ i)%Z →
  let U := SessionRepo.updateStatus (now env) (WarmupSession.id s) st extras
             (warmup_sessions w) in
  grows w (on_objects (alter (with_session (fst U)) a) (with_warmup_sessions (snd U) w)).
Proof.
  intros Hreg Hobj Hs Hx Hi U (Hkey & Hheld).
  destruct (Hheld d a Hreg) as (o0 & s0 & r & Ho0 & Hs0 & Hr & Hd & Hle).
  assert (o0 = o) as -> by congruence. assert (s0 = s) as -> by congruence.
  unfold stored in Hr.
  assert (HU : fst U = Some (SessionRepo.assign (now env) st extras r)).
  { unfold U. by rewrite updateStatus_row, Hr. }
  set (r' := SessionRepo.assign (now env) st extras r) in *.
  pose proof (findById_id _ _ _ Hr) as Hid.
  split; [split|].
  - cbn [warmup_sessions with_warmup_sessions on_objects]. unfold U.
    rewrite updateStatus_table, <- list_fmap_compose.
    erewrite list_fmap_ext; [exact Hkey|]. intros j x _. simpl. by case_decide.
  - intros d2 a2 Ha2. cbn [activeSessions on_objects with_warmup_sessions] in Ha2.
    destruct (Hheld d2 a2 Ha2) as (o2 & s2 & r2 & Ho2 & Hs2 & Hr2 & Hd2 & Hle2).
    unfold stored in *. cbn [objects warmup_sessions on_objects with_warmup_sessions].
    destruct (decide (a2 = a)) as [->|Hne].
    + assert (o2 = o) as -> by congruence. assert (s2 = s) as -> by congruence.
      assert (r2 = r) as -> by congruence.
      exists (with_session (Some r') o), r', r'.
      split; [by rewrite lookup_alter_eq, Hobj, HU|]. split; [done|].
      split; [|split; [done|lia]].
      unfold U. rewrite findById_updateStatus. unfold r' at 1. simpl.
      rewrite Hid, Hr. simpl. by rewrite decide_True.
    + exists o2, s2, r2. split; [by rewrite lookup_alter_ne|]. split; [done|].
      split; [|done]. unfold U. rewrite findById_updateStatus, Hr2. simpl.
      case_decide as Heq; [|done]. rewrite Heq, Hr in Hr2.
      assert (r2 = r) as -> by congruence. congruence.
  - unfold index_grows. cbn [warmup_sessions with_warmup_sessions on_objects].
    apply steady_updateStatus. intros i' r0 Hi' Hr0. rewrite Hx in Hi'. simplify_eq. lia.
Qed.

#[export] Hint Resolve still_calm settles_calm settles_cleanupSession
  settles_completeSession settles_failSession settles_pauseWarmup
  settles_stopWarmup : calm.

(** A part of a run that keeps [R], taken as a whole. *)
Ltac wp_calm R := apply (wp_keeps R); [pose proof still_calm; pose proof settles_calm; calm_auto|].

Lemma still_object w w' a o :
  still w w' → objects w !! a = Some o →
  ∃ o', objects w' !! a = Some o' ∧ session o' = session o.
Proof.
  intros (_ & _ & Hobj) Ho. specialize (Hobj a). rewrite Ho in Hobj.
  destruct (objects w' !! a) as [o'|]; [|done]. exists o'. split; [done|].
  by injection Hobj.
Qed.

(** The orchestrator registered in [w] advances after a part of its run
    that changed nothing of the sessions, and the rest of its run writes
    no lead index. *)
Lemma advance_between env d a o s st extras i w w2 w4 :
  activeSessions w !! d = Some a →
  objects w !! a = Some o →
  session o = Some s →
  still w w2 →
  SessionRepo.x_current_lead_index extras = Some i →
  (WarmupSession.current_lead_index s ≤ i)%Z →
  let U := SessionRepo.updateStatus (now env) (WarmupSession.id s) st extras
             (warmup_sessions w2) in
  settles (on_objects (alter (with_session (fst U)) a) (with_warmup_sessions (snd U) w2))
    w4 →
  grows w w4.
Proof.
  intros Hreg Hobj Hs H2 Hx Hi U H4.
  destruct (still_object _ _ _ _ H2 Hobj) as (o2 & Ho2 & Hs2).
  eapply grows_trans; [by apply still_grows|].
  eapply grows_trans; [|by apply settles_grows].
  apply (advance_grows env d a o2 s st extras i); [|done| |done..].
  - destruct H2 as (-> & _). done.
  - congruence.
Qed.

Lemma skipToNextLead_grows env d reason w :
  grows w (snd (skipToNextLead env d reason w)).
Proof.
  apply wp_snd. unfold skipToNextLead.
  do 3 wp_step. destruct (activeSessions w !! d) as [a|] eqn:Hreg; [|apply grows_refl].
  do 5 wp_step. destruct (objects w !! a) as [active|] eqn:Hobj; [|apply grows_refl].
  destruct (isPaused active); [apply grows_refl|].
  wp_step. wp_calm still. intros w1 H1. split; [intros _|by apply still_grows].
  wp_step. wp_calm still. intros w2 H2.
  assert (H12 : still w w2) by (by eapply still_trans).
  split; [intros _|by apply still_grows].
  do 2 wp_step. destruct (session active) as [s|] eqn:Hs; [|by apply still_grows].
  wp_step. apply wp_updateStatus. wp_step. unfold update. wp_step.
  wp_calm settles. intros w4 H4.
  assert (grows w w4); [|done].
  eapply (advance_between env d a active s); eauto; [reflexivity|simpl; lia].
Qed.

Lemma domainOnEmail_run_grows env d expected a incoming w :
  activeSessions w !! d = Some a →
  grows w (snd (domainOnEmail_run env d expected a incoming w)).
Proof.
  intros Hreg. apply wp_snd. unfold domainOnEmail_run. apply wp_swallow.
  do 5 wp_step. destruct (objects w !! a) as [active|] eqn:Hobj; [|apply grows_refl].
  destruct (negb _); [apply grows_refl|].
  do 2 wp_step. destruct (session active) as [s|] eqn:Hs; [|apply grows_refl].
  wp_step. wp_calm still. intros w1 H1. split; [intros _|by apply still_grows].
  wp_step. wp_calm still. intros w2 H2.
  assert (H12 : still w w2) by (by eapply still_trans).
  split; [intros _|by apply still_grows].
  wp_step. apply wp_updateStatus. wp_step. unfold update. wp_step.
  wp_calm settles. intros w4 H4.
  assert (grows w w4); [|done].
  eapply (advance_between env d a active s); eauto; [reflexivity|simpl; lia].
Qed.

Lemma domainOnEmail_run_other_sender env d expected a incoming w :
  String.eqb (normalize (Imap.from incoming)) (normalize expected) = false →
  snd (domainOnEmail_run env d expected a incoming w) = w.
Proof.
  intros H. unfold domainOnEmail_run, catch. reduce.
  destruct (objects w !! a); reduce; [|done]. by rewrite H.
Qed.

(** The cycle for a lead, run for the registered orchestrator with the
    session it holds. *)
Lemma processLead_grows env d a active o w :
  activeSessions w !! d = Some a →
  objects w !! a = Some o →
  session o = session active →
  grows w (snd (processLead env d a active w)).
Proof.
  intros Hreg Hobj Hsame. apply wp_snd. unfold processLead.
  do 2 wp_step. destruct (session active) as [s|] eqn:Hs; [|apply grows_refl].
  destruct (_ <=? _)%Z.
  { wp_calm settles. intros w1 H1. split; [intros _|]; by apply settles_grows. }
  do 2 wp_step. destruct (item _ _) as [currentLead|]; [|apply grows_refl].
  do 2 wp_step. destruct (generated env) as [e|emailContent]; [apply grows_refl|].
  wp_step. apply wp_sendEmail; [intros sendResult|apply grows_refl].
  wp_step. wp_calm still. intros w1 H1. split; [intros _|by apply still_grows].
  wp_step. apply wp_updateStatus. wp_step. unfold update. wp_step.
  wp_calm settles. intros w4 H4.
  assert (grows w w4); [|done].
  eapply (advance_between env d a o s); eauto; [reflexivity|simpl; lia].
Qed.

Lemma processNextLead_grows env d w :
  grows w (snd (processNextLead env d w)).
Proof.
  apply wp_snd. unfold processNextLead.
  do 3 wp_step. destruct (activeSessions w !! d) as [a|] eqn:Hreg; [|apply grows_refl].
  do 5 wp_step. destruct (objects w !! a) as [active|] eqn:Hobj; [|apply grows_refl].
  destruct (isPaused active); [apply grows_refl|].
  apply wp_of_snd. by apply (processLead_grows env d a active active).
Qed.

Lemma onTimeout_run_grows env cb w :
  grows w (snd (onTimeout_run env cb w)).
Proof.
  apply wp_snd. unfold onTimeout_run.
  destruct cb as [d lead a|d expected a].
  - do 5 wp_step. destruct (objects w !! a) as [active|]; [|apply grows_refl].
    do 2 wp_step. destruct (session active); [|apply grows_refl].
    apply wp_of_snd, skipToNextLead_grows.
  - do 5 wp_step. destruct (objects w !! a) as [active|]; [|apply grows_refl].
    do 2 wp_step. destruct (session active); [|apply grows_refl].
    apply wp_of_snd, skipToNextLead_grows.
Qed.

Lemma task_run_grows env task w :
  (∀ d a s, task = firstLead d a s →
            activeSessions w !! d = Some a ∧ session <$> objects w !! a = Some s) →
  grows w (snd (task_run env task w)).
Proof.
  intros Hfirst. destruct task as [d lead incoming original|d|d a s].
  - apply still_grows.
    assert (Hk : keeps still (task_run env (replyTimer d lead incoming original)))
      by (pose proof still_calm; unfold task_run; calm_auto).
    apply Hk.
  - unfold task_run. apply wp_snd, wp_catch.
    pose proof (processNextLead_grows env d w) as Hp. unfold wp.
    destruct (processNextLead env d w) as [[e|[]] w1]; simpl in *; [|done].
    intros e'. apply wp_of_snd. eapply grows_trans; [exact Hp|].
    apply settles_grows, settles_failSession.
  - destruct (Hfirst d a s eq_refl) as [Hreg Hobj].
    destruct (objects w !! a) as [o|] eqn:Ho; [|done]. injection Hobj as Hs.
    unfold task_run. apply wp_snd, wp_catch.
    set (m := active ← read a; processLead env d a (with_session s active)).
    assert (Hm : m w = processLead env d a (with_session s o) w).
    { unfold m. reduce. rewrite Ho. by reduce. }
    pose proof (processLead_grows env d a (with_session s o) o w Hreg Ho Hs) as Hp.
    unfold wp. rewrite Hm.
    destruct (processLead env d a (with_session s o) w) as [[e|[]] w1]; simpl in *;
      [|done].
    intros e'. apply wp_of_snd. eapply grows_trans; [exact Hp|].
    apply settles_grows, settles_failSession.
Qed.

Lemma notify_grows env L n w :
  (∀ d expected a,
     emailCallback L = domainOnEmail d expected a → from_expected expected n = true →
     activeSessions w !! d = Some a) →
  grows w (snd (notify env L n w)).
Proof.
  intros Hcb. destruct n as [e|]; simpl.
  - destruct (emailCallback L) as [d lead original a|d expected a] eqn:HL; simpl.
    + apply still_grows, (calm_leadOnEmail_run still_calm).
    + destruct (String.eqb (normalize (Imap.from e)) (normalize expected)) eqn:Hfrom.
      * apply domainOnEmail_run_grows. by eapply Hcb.
      * rewrite domainOnEmail_run_other_sender by done. apply grows_refl.
  - apply onTimeout_run_grows.
Qed.

Lemma imap_happens_grows env l ev w :
  outdated env (imapEvent l ev) w = false →
  grows w (snd (imap_happens env l ev w)).
Proof.
  intros Hout. apply wp_snd. unfold imap_happens. unfold outdated in Hout.
  do 2 wp_step. destruct (imapListeners w !! l) as [L|]; [|apply grows_refl].
  pose proof (step_at_most_one (now env) ev (imap L)) as Hone.
  destruct (Imap.step (now env) ev (imap L)) as [state ns]. cbn [snd] in Hone, Hout.
  do 2 wp_step. set (w1 := on_imapListeners _ w).
  assert (H1 : still w w1) by apply still_imapListeners.
  destruct ns as [|n [|n' ns]]; simpl in Hone; [by apply still_grows| |lia].
  simpl. wp_step. apply wp_swallow, wp_of_snd.
  eapply grows_trans; [by apply still_grows|]. apply notify_grows.
  intros d expected a HL Hn. rewrite HL in Hout. simpl in Hout. rewrite Hn in Hout.
  simpl in Hout. rewrite andb_true_r in Hout. apply negb_false_iff in Hout.
  by apply bool_decide_eq_true in Hout.
Qed.

Lemma timer_fires_grows env t w :
  outdated env (timerFires t) w = false →
  grows w (snd (timer_fires env t w)).
Proof.
  intros Hout. apply wp_snd. unfold timer_fires. unfold outdated in Hout.
  do 2 wp_step. destruct (timeouts w !! t) as [[delay task]|]; [|apply grows_refl].
  wp_step. unfold clearTimeout. wp_step. set (w1 := on_timeouts _ w).
  apply wp_of_snd. eapply grows_trans; [apply still_grows, still_timeouts|].
  apply task_run_grows. intros d a s ->.
  apply negb_false_iff in Hout. by apply bool_decide_eq_true in Hout.
Qed.

(** *** A start *)

Lemma create_is_Some now fresh d tbl : is_Some (fst (SessionRepo.create now fresh d tbl)).
Proof.
  unfold SessionRepo.create.
  destruct (filter _ tbl) as [|e rest] eqn:Hexisting; [by eexists|].
  assert (He : e ∈ tbl).
  { eapply (proj1 (list_elem_of_filter _ _ _)). rewrite Hexisting. left. }
  pose proof (update_where_id_rows (WarmupSession.id e) (SessionRepo.reset now) tbl
                (λ _, eq_refl)) as Hrows.
  destruct (SessionRepo.update_where_id _ _ _) as [rows tbl']. cbn [fst] in *. subst rows.
  destruct (findById_elem _ _ He) as [x Hx]. unfold SessionRepo.findById in Hx.
  destruct (filter (λ r, WarmupSession.id r = WarmupSession.id e) tbl); [done|by eexists].
Qed.

(** A start that fails has written nothing. *)
Lemma startWarmup_rejected decrypt env d w e w' :
  startWarmup decrypt env d w = (inl e, w') → w' = w.
Proof.
  unfold startWarmup. reduce.
  destruct (activeSessions w !! d); reduce; [by intros [= <- <-]|].
  destruct (findDomainById decrypt d (domain_accounts w)) as [e1|[account|]]; reduce;
    [by intros [= <- <-]| |by intros [= <- <-]].
  destruct (findAllLeads decrypt (lead_accounts w)) as [e1|leads]; reduce;
    [by intros [= <- <-]|].
  case_decide; reduce; [by intros [= <- <-]|].
  destruct (SessionRepo.findCompletedToday _ _ _) as [c|]; reduce.
  - destruct (_ <? _)%Z; reduce; [|by intros [= <- <-]].
    rewrite sessionRepo_updateStatus_run. reduce. by rewrite launch_run.
  - destruct (SessionRepo.findActiveToday _ _ _) as [s|] eqn:Hs; reduce.
    + case_decide; reduce; [|by intros [= <- <-]].
      rewrite sessionRepo_updateStatus_run. reduce.
      destruct (fst _) eqn:Hrow; reduce; [by rewrite launch_run|].
      rewrite updateStatus_row in Hrow. apply findActiveToday_elem in Hs as [Hin _].
      destruct (findById_elem _ _ Hin) as [x Hx]. by rewrite Hx in Hrow.
    + unfold sessionRepo_create.
      pose proof (create_is_Some (now env) (session_uuid env) d (warmup_sessions w)) as Hc.
      destruct (SessionRepo.create _ _ _ _) as [[row|] tbl]; reduce;
        [by rewrite launch_run|].
      by destruct Hc.
Qed.

Lemma updateStatus_ids now session_id st extras tbl :
  WarmupSession.id <$> snd (SessionRepo.updateStatus now session_id st extras tbl)
  = WarmupSession.id <$> tbl.
Proof.
  rewrite updateStatus_table, <- list_fmap_compose.
  apply list_fmap_ext. intros j x _. simpl. by case_decide.
Qed.

Lemma findById_Some_elem sid tbl r : SessionRepo.findById sid tbl = Some r → r ∈ tbl.
Proof.
  unfold SessionRepo.findById. intros Hr%first_row_elem%list_elem_of_filter. tauto.
Qed.

(** The table a start leaves: its primary key holds, and every row is
    there with its account and its lead index, or it is the row of today
    of the account, reset. *)
Lemma started_table env d n w row tbl :
  continues env d n w row tbl ∨ resumes env d w row tbl ∨ creates env d w row tbl →
  NoDup (WarmupSession.id <$> warmup_sessions w) →
  session_uuid env ∉ (WarmupSession.id <$> warmup_sessions w) →
  NoDup (WarmupSession.id <$> tbl)
  ∧ ∀ sid r,
      SessionRepo.findById sid (warmup_sessions w) = Some r →
      ∃ r', SessionRepo.findById sid tbl = Some r'
            ∧ WarmupSession.domain_account_id r' = WarmupSession.domain_account_id r
            ∧ (WarmupSession.current_lead_index r' = WarmupSession.current_lead_index r
               ∨ (WarmupSession.domain_account_id r = d
                  ∧ r' = SessionRepo.reset (now env) r)).
Proof.
  intros Hway Hkey Hfresh.
  assert (Hupdate : ∀ c extras,
            c ∈ warmup_sessions w →
            (∀ i, SessionRepo.x_current_lead_index extras = Some i →
                  i = WarmupSession.current_lead_index c) →
            SessionRepo.updateStatus (now env) (WarmupSession.id c) sending extras
              (warmup_sessions w) = (Some row, tbl) →
            NoDup (WarmupSession.id <$> tbl)
            ∧ ∀ sid r,
                SessionRepo.findById sid (warmup_sessions w) = Some r →
                ∃ r', SessionRepo.findById sid tbl = Some r'
                      ∧ WarmupSession.domain_account_id r'
                        = WarmupSession.domain_account_id r
                      ∧ (WarmupSession.current_lead_index r'
                         = WarmupSession.current_lead_index r
                         ∨ (WarmupSession.domain_account_id r = d
                            ∧ r' = SessionRepo.reset (now env) r))).
  { intros c extras Hc Hx Hupd.
    assert (Htbl : tbl = snd (SessionRepo.updateStatus (now env) (WarmupSession.id c)
                                sending extras (warmup_sessions w))) by (by rewrite Hupd).
    subst tbl. split; [by rewrite updateStatus_ids|].
    intros sid r Hr. rewrite findById_updateStatus, Hr. simpl. eexists. split; [done|].
    case_decide as Hsid; [|by split; [|left]]. simpl. split; [done|]. left.
    destruct (SessionRepo.x_current_lead_index extras) as [i|] eqn:Hi; [|done]. simpl.
    rewrite (Hx i eq_refl). subst sid.
    rewrite (findById_primary_key _ _ Hkey Hc) in Hr. by injection Hr as <-. }
  destruct Hway as [(c & Hc & _ & Hupd)|[(s & _ & Hs & _ & Hupd)|(_ & _ & Hcreate)]].
  - apply findCompletedToday_elem in Hc as (Hc & _).
    eapply (Hupdate c); [done| |exact Hupd]. by intros i [= <-].
  - apply findActiveToday_elem in Hs as (Hs & _).
    eapply (Hupdate s); [done| |exact Hupd]. by intros i [=].
  - destruct (filter (λ r, WarmupSession.domain_account_id r = d
                ∧ WarmupSession.session_date r = CURRENT_DATE (now env))
                (warmup_sessions w)) as [|e rest] eqn:Hexisting.
    + rewrite (create_inserts _ _ _ _ Hexisting) in Hcreate. injection Hcreate as _ <-.
      split.
      * rewrite fmap_app. apply NoDup_app. split; [done|]. split; [|apply NoDup_singleton].
        intros x Hx Hx'. apply list_elem_of_singleton in Hx'. simpl in Hx'. by subst x.
      * intros sid r Hr. exists r. split; [by apply findById_app|]. by split; [|left].
    + assert (He : e ∈ filter (λ r, WarmupSession.domain_account_id r = d
                ∧ WarmupSession.session_date r = CURRENT_DATE (now env))
                (warmup_sessions w)) by (rewrite Hexisting; left).
      apply list_elem_of_filter in He as [[Hd _] He].
      rewrite (create_resets _ _ _ _ e rest Hkey Hexisting) in Hcreate.
      injection Hcreate as _ <-. split.
      * rewrite <- list_fmap_compose. erewrite list_fmap_ext; [exact Hkey|].
        intros j x _. simpl. by case_decide.
      * intros sid r Hr. rewrite findById_fmap by (intros r0; by case_decide).
        rewrite Hr. simpl. eexists. split; [done|].
        case_decide as Hid; [|by split; [|left]]. split; [done|]. right. split; [|done].
        pose proof (findById_Some_elem _ _ _ Hr) as Hin.
        pose proof (findById_primary_key _ _ Hkey Hin) as H1.
        pose proof (findById_primary_key _ _ Hkey He) as H2.
        rewrite Hid, H2 in H1. by injection H1 as <-.
Qed.

(** A start leaves a tidy memory tidy, and every row with its lead index
    unless it is the row of today of the account, which the start may
    reset. *)
Lemma startWarmup_tidy decrypt env d w :
  tidy w →
  session_uuid env ∉ (WarmupSession.id <$> warmup_sessions w) →
  tidy (snd (startWarmup decrypt env d w))
  ∧ ∀ sid r,
      stored sid w = Some r →
      ∃ r', stored sid (snd (startWarmup decrypt env d w)) = Some r'
            ∧ WarmupSession.domain_account_id r' = WarmupSession.domain_account_id r
            ∧ ((WarmupSession.current_lead_index r
                ≤ WarmupSession.current_lead_index r')%Z
               ∨ (WarmupSession.domain_account_id r = d
                  ∧ r' = SessionRepo.reset (now env) r)).
Proof.
  intros Htidy Hfresh. pose proof Htidy as (Hkey & Hheld).
  destruct (startWarmup decrypt env d w) as [[e|s] w1] eqn:Hstart; cbn [snd].
  - apply startWarmup_rejected in Hstart as ->. split; [done|].
    intros sid r Hr. exists r. split; [done|]. split; [done|left; lia].
  - destruct (startWarmup_succeeds _ _ _ _ _ _ Hstart)
      as (account & found & row & tbl & Hreg & Hacc & Hleads & Hne & Hway & -> & ->).
    destruct (started_row_stored _ _ _ _ _ _ Hway) as [_ Hstored].
    destruct (Hstored Hkey Hfresh) as [Hrow Hd].
    destruct (started_table _ _ _ _ _ _ Hway Hkey Hfresh) as [Hkey' Hrows].
    rewrite launch_run. cbn [snd]. unfold stored. reduce.
    split; [split|].
    + exact Hkey'.
    + intros d2 a2. reduce. rewrite lookup_insert. case_decide as Hd2.
      * intros [= <-]. subst d2. exists (mkActive (Some row) account found None None false []), row, row.
        split; [apply lookup_insert_eq|]. split; [done|]. split; [done|]. split; [done|lia].
      * intros Ha2. destruct (Hheld d2 a2 Ha2) as (o2 & s2 & r2 & Ho2 & Hs2 & Hr2 & Hdom & Hle).
        destruct (Hrows _ _ Hr2) as (r2' & Hr2' & Hdom' & Hcase).
        exists o2, s2, r2'. split.
        { rewrite lookup_insert_ne; [done|]. intros Heq.
          pose proof (is_fresh (dom (objects w))) as Hnew. rewrite Heq in Hnew.
          apply Hnew, elem_of_dom. by eexists. }
        split; [done|]. split; [done|]. split; [congruence|].
        destruct Hcase as [Hi|[Hdd _]]; [lia|congruence].
    + intros sid r Hr. destruct (Hrows _ _ Hr) as (r' & Hr' & Hdom' & Hcase).
      exists r'. split; [done|]. split; [done|].
      destruct Hcase as [Hi|Hreset]; [left; lia|by right].
Qed.

(** *** Whatever happens *)

Lemma booted_tidy w :
  booted w → NoDup (WarmupSession.id <$> warmup_sessions w) → tidy w.
Proof. intros (Hreg & _) Hkey. split; [done|]. intros d a. by rewrite Hreg, lookup_empty. Qed.

(** One happening that is not outdated, in a tidy memory. *)
Lemma happen_tidy decrypt env h w :
  tidy w →
  outdated env h w = false →
  (begins h = true → session_uuid env ∉ (WarmupSession.id <$> warmup_sessions w)) →
  tidy (happen decrypt env h w)
  ∧ ∀ sid r,
      stored sid w = Some r →
      ∃ r', stored sid (happen decrypt env h w) = Some r'
            ∧ WarmupSession.domain_account_id r' = WarmupSession.domain_account_id r
            ∧ ((WarmupSession.current_lead_index r
                ≤ WarmupSession.current_lead_index r')%Z
               ∨ (starts (WarmupSession.domain_account_id r) h = true
                  ∧ r' = SessionRepo.reset (now env) r)).
Proof.
  intros Htidy Hout Hfresh.
  assert (Hgrows : ∀ w', grows w w' →
            tidy w'
            ∧ ∀ sid r,
                stored sid w = Some r →
                ∃ r', stored sid w' = Some r'
                      ∧ WarmupSession.domain_account_id r'
                        = WarmupSession.domain_account_id r
                      ∧ ((WarmupSession.current_lead_index r
                          ≤ WarmupSession.current_lead_index r')%Z
                         ∨ (starts (WarmupSession.domain_account_id r) h = true
                            ∧ r' = SessionRepo.reset (now env) r))).
  { intros w' Hg. destruct (Hg Htidy) as [Ht Hi]. split; [done|].
    intros sid r Hr. destruct (Hi sid r Hr) as (r' & Hr' & Hd & Hle).
    exists r'. split; [done|]. split; [done|by left]. }
  assert (Hstart : ∀ d, starts d h = true → begins h = true →
            happen decrypt env h w = snd (startWarmup decrypt env d w) →
            tidy (happen decrypt env h w)
            ∧ ∀ sid r,
                stored sid w = Some r →
                ∃ r', stored sid (happen decrypt env h w) = Some r'
                      ∧ WarmupSession.domain_account_id r'
                        = WarmupSession.domain_account_id r
                      ∧ ((WarmupSession.current_lead_index r
                          ≤ WarmupSession.current_lead_index r')%Z
                         ∨ (starts (WarmupSession.domain_account_id r) h = true
                            ∧ r' = SessionRepo.reset (now env) r))).
  { intros d Hd Hb ->.
    destruct (startWarmup_tidy decrypt env d w Htidy (Hfresh Hb)) as [Ht Hrows].
    split; [done|]. intros sid r Hr.
    destruct (Hrows sid r Hr) as (r' & Hr' & Hdom & [Hle|[Hdd Hreset]]);
      exists r'; (split; [done|]); (split; [done|]); [by left|].
    right. split; [|done]. by rewrite Hdd. }
  destruct h as [[d|d|d|d]|l ev|t].
  - apply (Hstart d); [by apply bool_decide_eq_true|done|].
    unfold happen, serve. by rewrite snd_then_ret.
  - apply Hgrows. unfold happen, serve. rewrite snd_then_ret.
    apply settles_grows, settles_pauseWarmup.
  - apply (Hstart d); [by apply bool_decide_eq_true|done|].
    unfold happen, serve, resumeWarmup. by rewrite snd_then_ret.
  - apply Hgrows. unfold happen, serve. apply settles_grows, settles_stopWarmup.
  - apply Hgrows. by apply imap_happens_grows.
  - apply Hgrows. by apply timer_fires_grows.
Qed.

Lemma history_app decrypt hs1 hs2 w :
  history decrypt (hs1 ++ hs2) w = history decrypt hs2 (history decrypt hs1 w).
Proof. revert w. induction hs1 as [|[env h] hs1 IH]; intros w; [done|]. apply IH. Qed.

Lemma orderly_cons decrypt env h hs w :
  orderly decrypt ((env, h) :: hs) w = true →
  outdated env h w = false
  ∧ (begins h = true → session_uuid env ∉ (WarmupSession.id <$> warmup_sessions w))
  ∧ orderly decrypt hs (happen decrypt env h w) = true.
Proof.
  simpl. intros [[Hout Hfresh]%andb_prop Hrest]%andb_prop.
  split; [by apply negb_true_iff|]. split; [|done].
  intros Hb. rewrite Hb in Hfresh. by apply bool_decide_eq_true in Hfresh.
Qed.

Lemma orderly_app decrypt hs1 hs2 w :
  orderly decrypt (hs1 ++ hs2) w = true →
  orderly decrypt hs1 w = true ∧ orderly decrypt hs2 (history decrypt hs1 w) = true.
Proof.
  revert w. induction hs1 as [|[env h] hs1 IH]; intros w; [done|].
  simpl. intros [Hhead Hrest]%andb_prop. destruct (IH _ Hrest) as [H1 H2].
  split; [|done]. by rewrite Hhead, H1.
Qed.

Lemma history_tidy decrypt hs w :
  tidy w → orderly decrypt hs w = true → tidy (history decrypt hs w).
Proof.
  revert w. induction hs as [|[env h] hs IH]; intros w Htidy Hord; [done|].
  apply orderly_cons in Hord as (Hout & Hfresh & Hrest).
  apply IH; [|done]. by apply happen_tidy.
Qed.

(** As long as no start is made for the account of a row, its lead index
    does not fall. *)
Lemma history_steady decrypt hs w sid r :
  tidy w → orderly decrypt hs w = true →
  without_start (WarmupSession.domain_account_id r) hs = true →
  stored sid w = Some r →
  ∃ r', stored sid (history decrypt hs w) = Some r'
        ∧ WarmupSession.domain_account_id r' = WarmupSession.domain_account_id r
        ∧ (WarmupSession.current_lead_index r ≤ WarmupSession.current_lead_index r')%Z.
Proof.
  revert w r. induction hs as [|[env h] hs IH]; intros w r Htidy Hord Hno Hr.
  { exists r. split; [done|]. split; [done|lia]. }
  apply orderly_cons in Hord as (Hout & Hfresh & Hrest).
  unfold without_start in Hno. simpl in Hno. apply andb_prop in Hno as [Hh Hno].
  apply negb_true_iff in Hh.
  destruct (happen_tidy decrypt env h w Htidy Hout Hfresh) as [Htidy' Hrows].
  destruct (Hrows sid r Hr) as (r1 & Hr1 & Hd1 & [Hle|[Hs _]]); [|congruence].
  destruct (IH (happen decrypt env h w) r1 Htidy' Hrest) as (r' & Hr' & Hd' & Hle');
    [by rewrite Hd1|done|].
  exists r'. split; [done|]. split; [congruence|lia].
Qed.





(** ** IMAP listener: reconnects, handlers, and what [disconnect] ends *)

(** The reconnects that are pending, and those [safeReconnect] would still
    schedule before it gives up. *)
Lemma safeReconnect_budget l :
  let l' := fst (Imap.safeReconnect l) in
  (Z.of_nat (Imap.reconnectTimers l')
     + Z.max 0 (Imap.MAX_RECONNECT_ATTEMPTS - Imap.reconnectAttempts l')
   ≤ Z.of_nat (Imap.reconnectTimers l)
     + Z.max 0 (Imap.MAX_RECONNECT_ATTEMPTS - Imap.reconnectAttempts l))%Z.
Proof.
  unfold Imap.safeReconnect, Imap.MAX_RECONNECT_ATTEMPTS.
  destruct (Imap.isDestroyed l); simpl; [lia|].
  destruct (5 <? Imap.reconnectAttempts l + 1)%Z eqn:Hfull; simpl.
  - lia.
  - apply Z.ltb_ge in Hfull. lia.
Qed.

Lemma fetches_keep_reconnect n l :
  Imap.reconnectTimers (Nat.iter n Imap.fetchNewMessages l) = Imap.reconnectTimers l
  ∧ Imap.reconnectAttempts (Nat.iter n Imap.fetchNewMessages l) = Imap.reconnectAttempts l.
Proof. induction n as [|n IH]; [done|]. simpl. exact IH. Qed.

Lemma act_budget now a l :
  a ≠ Imap.Does Imap.Ready →
  let l' := fst (Imap.act now a l) in
  (Z.of_nat (Imap.reconnectTimers l')
     + Z.max 0 (Imap.MAX_RECONNECT_ATTEMPTS - Imap.reconnectAttempts l')
   ≤ Z.of_nat (Imap.reconnectTimers l)
     + Z.max 0 (Imap.MAX_RECONNECT_ATTEMPTS - Imap.reconnectAttempts l))%Z.
Proof.
  intros Ha. pose proof (safeReconnect_budget l) as Hsafe.
  destruct a as [ev|ok|]; simpl.
  - destruct ev as [ | | | |ok| | | | |ok|found|i]; simpl; try done.
    + by destruct (Imap.isDestroyed l).
    + pose proof (safeReconnect_budget (Imap.set_connection false (Imap.isDestroyed l) l)).
      by destruct (Imap.isDestroyed l).
    + pose proof (safeReconnect_budget (Imap.set_connection false (Imap.isDestroyed l) l)).
      by destruct (Imap.isDestroyed l).
    + destruct (Imap.opening l); [done|]. destruct ok; simpl; [|done].
      unfold Imap.startWaitTimeout. simpl. by destruct (Imap.hasOnTimeout l).
    + by destruct (fetches_keep_reconnect (Imap.mailHandlers l) l) as [-> ->].
    + destruct (Imap.initialChecks l); [done|]. unfold Imap.guarded_fetch. simpl.
      by destruct (_ && _).
    + destruct (Imap.pollTimer l); [|done]. unfold Imap.guarded_fetch.
      by destruct (_ && _).
    + destruct (Imap.waitTimer l); [|done]. simpl. by destruct (Imap.isDestroyed l).
    + clear Hsafe. destruct (Imap.reconnectTimers l) as [|n] eqn:Hn; simpl;
        [rewrite Hn; lia|].
      destruct (Imap.isDestroyed l) eqn:Hd; simpl; [lia|].
      unfold Imap.connect. simpl. rewrite Hd.
      destruct ok; simpl; [lia|].
      pose proof (safeReconnect_budget
                    (Imap.set_reconnect (Imap.reconnectAttempts l) n l)) as Hn'.
      simpl in Hn'. lia.
    + destruct (Imap.searches l); [done|]. by destruct found.
    + by destruct (Imap.parsing l !! i).
  - unfold Imap.connect. destruct (Imap.isDestroyed l); [done|]. by destruct ok.
  - done.
Qed.

(** Until the server answers [ready], reconnecting is bounded: the
    reconnects that are pending, together with those the listener may
    still schedule before [MAX_RECONNECT_ATTEMPTS] is used up, never grow,
    whatever fails, closes, fires or is called.  A new listener therefore
    never has more than five reconnects pending or to come, and one whose
    attempts are used up schedules none and calls [onTimeout] instead. *)
Theorem reconnects_are_bounded :
  ∀ (now : Z) (acts : list Imap.Action) (l : Imap.ImapListener),
    Imap.Does Imap.Ready ∉ acts →
    let budget (l : Imap.ImapListener) :=
      (Z.of_nat (Imap.reconnectTimers l)
       + Z.max 0 (Imap.MAX_RECONNECT_ATTEMPTS - Imap.reconnectAttempts l))%Z in
    (budget (fst (Imap.run now acts l)) ≤ budget l)%Z
    ∧ (∀ config hasOnTimeout,
         l = Imap.new config hasOnTimeout →
         (Imap.reconnectTimers (fst (Imap.run now acts l)) ≤ 5)%nat)
    ∧ (Imap.isDestroyed l = false →
       (Imap.MAX_RECONNECT_ATTEMPTS ≤ Imap.reconnectAttempts l)%Z →
       Imap.reconnectTimers (fst (Imap.safeReconnect l)) = Imap.reconnectTimers l
       ∧ snd (Imap.safeReconnect l)
         = if Imap.hasOnTimeout l then [Imap.onTimeout] else []).
Proof.
  intros now acts l Hacts budget.
  assert (Hrun : (budget (fst (Imap.run now acts l)) ≤ budget l)%Z).
  { revert l. induction acts as [|a acts IH]; intros l; [simpl; lia|].
    apply not_elem_of_cons in Hacts as [Ha Hrest]. specialize (IH Hrest).
    simpl. pose proof (act_budget now a l (not_eq_sym Ha)) as H1.
    destruct (Imap.act now a l) as [l1 ns1]. specialize (IH l1).
    destruct (Imap.run now acts l1) as [l2 ns2]. simpl in *. unfold budget in *. lia. }
  split; [exact Hrun|]. split.
  - intros config hasOnTimeout ->. unfold budget in Hrun. simpl in Hrun.
    unfold Imap.MAX_RECONNECT_ATTEMPTS in Hrun. lia.
  - intros Hd Hfull. unfold Imap.safeReconnect, Imap.timeout_notification.
    rewrite Hd. simpl.
    assert ((Imap.MAX_RECONNECT_ATTEMPTS <? Imap.reconnectAttempts l + 1)%Z = true)
      as -> by (apply Z.ltb_lt; lia).
    done.
Qed.

Lemma reconnects_are_bounded_witness :
  let l := fst (Imap.run 0 Sample.unreachable (Imap.new Sample.lead_inbox true)) in
  (Imap.Does Imap.Ready ∉ Sample.unreachable)
  ∧ (Imap.reconnectTimers l ≤ 5)%nat.
Proof.
  assert (Hacts : Imap.Does Imap.Ready ∉ Sample.unreachable).
  { intros H. repeat (apply elem_of_cons in H as [H|H]; [discriminate|]).
    by apply elem_of_nil in H. }
  split; [exact Hacts|].
  destruct (reconnects_are_bounded 0 Sample.unreachable
              (Imap.new Sample.lead_inbox true) Hacts) as (_ & Hnew & _).
  exact (Hnew Sample.lead_inbox true eq_refl).
Defined.

Lemma fetches_searches n l :
  Imap.searches (Nat.iter n Imap.fetchNewMessages l) = (Imap.searches l + n)%nat
  ∧ Imap.mailHandlers (Nat.iter n Imap.fetchNewMessages l) = Imap.mailHandlers l.
Proof.
  induction n as [|n [IH1 IH2]]; [simpl; split; [lia|done]|].
  simpl. rewrite IH1. split; [lia|done].
Qed.

Lemma safeReconnect_handlers l :
  Imap.mailHandlers (fst (Imap.safeReconnect l)) = Imap.mailHandlers l.
Proof. unfold Imap.safeReconnect. by repeat case_match. Qed.

Lemma act_handlers now a l :
  (Imap.mailHandlers l ≤ Imap.mailHandlers (fst (Imap.act now a l)))%nat.
Proof.
  destruct a as [ev|ok|]; simpl.
  - destruct ev as [ | | | |ok| | | | |ok|found|i]; simpl; try lia.
    + destruct (Imap.isDestroyed l); [done|]. by rewrite safeReconnect_handlers.
    + destruct (Imap.isDestroyed l); [done|]. by rewrite safeReconnect_handlers.
    + destruct (Imap.isDestroyed l); [done|]. by rewrite safeReconnect_handlers.
    + destruct (Imap.opening l); [done|]. destruct ok; simpl; [|done].
      unfold Imap.startWaitTimeout. simpl. destruct (Imap.hasOnTimeout l); simpl; lia.
    + by destruct (fetches_searches (Imap.mailHandlers l) l) as [_ ->].
    + destruct (Imap.initialChecks l); [done|]. unfold Imap.guarded_fetch. simpl.
      by destruct (_ && _).
    + destruct (Imap.pollTimer l); [|done]. unfold Imap.guarded_fetch.
      by destruct (_ && _).
    + destruct (Imap.waitTimer l); [|done]. simpl. by destruct (Imap.isDestroyed l).
    + destruct (Imap.reconnectTimers l) as [|n]; [done|]. simpl.
      destruct (Imap.isDestroyed l) eqn:Hd; simpl; [done|].
      unfold Imap.connect. simpl. rewrite Hd.
      destruct ok; simpl; [done|]. by rewrite safeReconnect_handlers.
    + destruct (Imap.searches l); [done|]. by destruct found.
    + by destruct (Imap.parsing l !! i).
  - unfold Imap.connect. destruct (Imap.isDestroyed l); [done|].
    destruct ok; [done|]. by rewrite safeReconnect_handlers.
  - done.
Qed.

(** The handlers of [mail] add up.  Every inbox that opens registers one
    more, none is ever removed — not by a reconnect, not by [disconnect] —
    and an announcement of new mail starts one search for each of them:
    after the inbox of a listener has opened [k] times, that is after
    [k - 1] reconnects, each announcement starts [k] searches. *)
Theorem mail_handlers_add_up :
  ∀ (now : Z) (acts : list Imap.Action) (l : Imap.ImapListener),
    (Imap.mailHandlers l ≤ Imap.mailHandlers (fst (Imap.run now acts l)))%nat
    ∧ (∀ n, Imap.opening l = S n →
         Imap.mailHandlers (fst (Imap.step now (Imap.BoxOpened true) l))
         = S (Imap.mailHandlers l))
    ∧ Imap.searches (fst (Imap.step now Imap.Mail l))
      = (Imap.searches l + Imap.mailHandlers l)%nat
    ∧ snd (Imap.step now Imap.Mail l) = [].
Proof.
  intros now acts l. split; [|split; [|split]].
  - revert l. induction acts as [|a acts IH]; intros l; [done|].
    simpl. pose proof (act_handlers now a l) as H1.
    destruct (Imap.act now a l) as [l1 ns1]. specialize (IH l1).
    destruct (Imap.run now acts l1) as [l2 ns2]. simpl in *. lia.
  - intros n Hn. simpl. rewrite Hn. simpl.
    unfold Imap.startWaitTimeout. simpl. by destruct (Imap.hasOnTimeout l).
  - simpl. by destruct (fetches_searches (Imap.mailHandlers l) l) as [-> _].
  - done.
Qed.

Lemma mail_handlers_add_up_witness :
  let reconnected :=
    fst (Imap.run 0
           [Imap.CallConnect true; Imap.Does Imap.Ready; Imap.Does (Imap.BoxOpened true);
            Imap.Does Imap.Close; Imap.Does (Imap.ReconnectTimer true);
            Imap.Does Imap.Ready]
           (Imap.new Sample.lead_inbox true)) in
  Imap.opening reconnected = 1%nat
  ∧ Imap.mailHandlers reconnected = 1%nat
  ∧ Imap.mailHandlers (fst (Imap.step 0 (Imap.BoxOpened true) reconnected)) = 2%nat.
Proof.
  intros reconnected.
  destruct (mail_handlers_add_up 0 [] reconnected) as (_ & Hopen & _).
  split; [reflexivity|]. split; [reflexivity|].
  exact (Hopen 0%nat eq_refl).
Defined.

Lemma act_inert now a l :
  Imap.isDestroyed l = true →
  let l' := fst (Imap.act now a l) in
  Imap.isDestroyed l' = true
  ∧ (Imap.reconnectTimers l' ≤ Imap.reconnectTimers l)%nat
  ∧ (a ≠ Imap.Does Imap.Mail → Imap.searches l' ≤ Imap.searches l)%nat.
Proof.
  intros Hl. destruct (act_destroyed now a l Hl) as [Hd _]. simpl.
  split; [exact Hd|].
  destruct a as [ev|ok|]; simpl.
  - destruct ev as [ | | | |ok| | | | |ok|found|i]; simpl; rewrite ?Hl; simpl.
    + by repeat split.
    + by repeat split.
    + by repeat split.
    + by repeat split.
    + destruct (Imap.opening l); [by repeat split|]. destruct ok; simpl; [|by repeat split].
      unfold Imap.startWaitTimeout. simpl. destruct (Imap.hasOnTimeout l); by repeat split.
    + destruct (fetches_keep_reconnect (Imap.mailHandlers l) l) as [-> _].
      split; [done|]. by intros [].
    + destruct (Imap.initialChecks l); [by repeat split|].
      unfold Imap.guarded_fetch. simpl. rewrite ?Hl. simpl. by repeat split.
    + destruct (Imap.pollTimer l); [|by repeat split].
      unfold Imap.guarded_fetch. rewrite ?Hl. simpl. by repeat split.
    + destruct (Imap.waitTimer l); by repeat split.
    + destruct (Imap.reconnectTimers l) as [|n] eqn:Hn; simpl;
        [rewrite Hn; by repeat split|].
      rewrite ?Hl. simpl. repeat split; try done. lia.
    + destruct (Imap.searches l) as [|n] eqn:Hn; simpl; [rewrite Hn; by repeat split|].
      destruct found; simpl; repeat split; try done; lia.
    + destruct (Imap.parsing l !! i); by repeat split.
  - unfold Imap.connect. rewrite ?Hl. by repeat split.
  - by repeat split.
Qed.

(** [disconnect] is final.  Whatever happens to a listener afterwards, and
    whatever is called on it, it stays destroyed, [connect] does nothing,
    no reconnect is scheduled, and neither the poll nor the first check
    nor a reconnect starts a search; only an announcement of new mail by a
    connection that is still up does.  A message whose parsing had begun
    is still handed to [onEmail]. *)
Theorem disconnect_is_final :
  ∀ (now : Z) (acts : list Imap.Action) (l : Imap.ImapListener),
    let l0 := Imap.disconnect l in
    let l' := fst (Imap.run now acts l0) in
    Imap.isDestroyed l' = true
    ∧ Imap.pollTimer l0 = false ∧ Imap.waitTimer l0 = false
    ∧ Imap.isConnected l0 = false
    ∧ (∀ ok, Imap.connect ok l' = (l', []))
    ∧ (Imap.reconnectTimers l' ≤ Imap.reconnectTimers l)%nat
    ∧ (Imap.Does Imap.Mail ∉ acts → (Imap.searches l' ≤ Imap.searches l)%nat)
    ∧ (∀ i parsed,
         Imap.parsing l' !! i = Some (Some parsed) →
         ∃ e, snd (Imap.step now (Imap.ParseDone i) l') = [Imap.onEmail e]).
Proof.
  intros now acts l l0 l'.
  assert (H0 : Imap.isDestroyed l0 = true) by done.
  assert (Hrun : ∀ acts l1, Imap.isDestroyed l1 = true →
            Imap.isDestroyed (fst (Imap.run now acts l1)) = true
            ∧ (Imap.reconnectTimers (fst (Imap.run now acts l1))
               ≤ Imap.reconnectTimers l1)%nat
            ∧ (Imap.Does Imap.Mail ∉ acts →
               (Imap.searches (fst (Imap.run now acts l1)) ≤ Imap.searches l1)%nat)).
  { clear. intros acts. induction acts as [|a acts IH]; intros l1 Hl1; [by repeat split|].
    simpl. destruct (act_inert now a l1 Hl1) as (Hd & Hr & Hs).
    destruct (Imap.act now a l1) as [l2 ns2]. simpl in *.
    destruct (IH l2 Hd) as (Hd' & Hr' & Hs').
    destruct (Imap.run now acts l2) as [l3 ns3]. simpl in *.
    split; [done|]. split; [lia|].
    intros Hmail. apply not_elem_of_cons in Hmail as [Ha Hrest].
    specialize (Hs (not_eq_sym Ha)). specialize (Hs' Hrest). lia. }
  destruct (Hrun acts l0 H0) as (Hd & Hr & Hs). fold l' in Hd, Hr, Hs.
  split; [exact Hd|]. do 3 (split; [done|]). split.
  { intros ok. unfold Imap.connect. by rewrite Hd. }
  split; [exact Hr|]. split; [exact Hs|].
  intros i parsed Hi. simpl. rewrite Hi. simpl. by eexists.
Qed.

Lemma disconnect_is_final_witness :
  let acts := [Imap.Does Imap.End; Imap.Does Imap.Close; Imap.Does Imap.PollTick;
               Imap.Does (Imap.ParseDone 0)] in
  let l := fst (Imap.run 0
                  [Imap.CallConnect true; Imap.Does Imap.Ready;
                   Imap.Does (Imap.BoxOpened true); Imap.Does Imap.Mail;
                   Imap.Does (Imap.SearchDone
                                (Some [Sample.parsed "<u2@corp.io>" "me@corp.io";
                                       Sample.parsed "<u3@corp.io>" "me@corp.io"]))]
                  (Imap.new Sample.lead_inbox true)) in
  let l' := fst (Imap.run 0 acts (Imap.disconnect l)) in
  (Imap.Does Imap.Mail ∉ acts)
  ∧ (Imap.searches l' ≤ Imap.searches l)%nat
  ∧ ∃ parsed e, Imap.parsing l' !! 0%nat = Some (Some parsed)
                ∧ snd (Imap.step 0 (Imap.ParseDone 0) l') = [Imap.onEmail e].
Proof.
  intros acts l l'.
  assert (Hacts : Imap.Does Imap.Mail ∉ acts).
  { intros H. repeat (apply elem_of_cons in H as [H|H]; [discriminate|]).
    by apply elem_of_nil in H. }
  destruct (disconnect_is_final 0 acts l) as (_ & _ & _ & _ & _ & _ & Hs & Hp).
  split; [exact Hacts|]. split; [exact (Hs Hacts)|].
  destruct (Imap.parsing l' !! 0%nat) as [[parsed|]|] eqn:Hi;
    [|vm_compute in Hi; discriminate..].
  destruct (Hp 0%nat parsed) as [e He]; [exact Hi|].
  exists parsed, e. split; [reflexivity|exact He].
Defined.


(** ** Encryption of the stored credentials *)

Lemma length_split c s : length (split c s) = S (occurrences c s).
Proof.
  induction s as [|c' s IH]; simpl; [done|].
  destruct (Ascii.eqb c' c); simpl; [by rewrite IH|].
  destruct (split c s); simpl in *; [discriminate|done].
Qed.

Lemma hex_digit_not_colon n : Ascii.eqb (Encryption.hex_digit n) ":" = false.
Proof.
  unfold Encryption.hex_digit.
  destruct n as [|p]; [done|]. do 4 (destruct p as [p|p|]; try done).
Qed.

Lemma to_hex_free_of_colon bytes : free_of ":" (Encryption.to_hex bytes) = true.
Proof.
  induction bytes as [|b bytes IH]; simpl; [done|].
  by rewrite !hex_digit_not_colon, IH.
Qed.

Lemma from_hex_to_hex bytes : Encryption.from_hex (Encryption.to_hex bytes) = bytes.
Proof.
  induction bytes as [|b bytes IH]; [done|].
  cbn [Encryption.to_hex Encryption.from_hex]. rewrite IH.
  by destruct b.
Qed.

Lemma split_encrypted a b c :
  split ":" (Encryption.to_hex a +:+ ":" +:+ Encryption.to_hex b +:+ ":"
             +:+ Encryption.to_hex c)
  = [Encryption.to_hex a; Encryption.to_hex b; Encryption.to_hex c].
Proof.
  change (":" +:+ ?s) with (String ":"%char s).
  rewrite split_append by apply to_hex_free_of_colon.
  change (":" +:+ ?s) with (String ":"%char s).
  rewrite split_append by apply to_hex_free_of_colon.
  by rewrite split_free_of by apply to_hex_free_of_colon.
Qed.

(** What [encrypt] produces, [decrypt] reads back: the three hexadecimal
    parts hold no colon, so the text splits into exactly the initialisation
    vector, the tag and the cipher text it was made of, and when the
    cipher opens what it sealed the plain text is returned.  So the
    repository reads an account whose two passwords were stored by
    [encrypt] with its passwords in the clear and everything else as
    stored. *)
Theorem decrypt_reads_what_encrypt_wrote :
  ∀ (seal : list Byte.byte → string → list Byte.byte * list Byte.byte)
    (open : list Byte.byte → list Byte.byte → list Byte.byte → string + string)
    (iv : list Byte.byte) (plaintext : string),
    open iv (seal iv plaintext).1 (seal iv plaintext).2 = inr plaintext →
    occurrences ":" (Encryption.encrypt seal iv plaintext) = 2%nat
    ∧ Encryption.decrypt open (Encryption.encrypt seal iv plaintext) = inr plaintext
    ∧ ∀ (iv' : list Byte.byte) (imap : string) (row : DomainAccount.t) (rest : list DomainAccount.t)
        (account_id : string) (tbl : list DomainAccount.t),
        open iv' (seal iv' imap).1 (seal iv' imap).2 = inr imap →
        DomainAccount.smtp_password row = Encryption.encrypt seal iv plaintext →
        DomainAccount.imap_password row = Encryption.encrypt seal iv' imap →
        filter (λ r, DomainAccount.id r = account_id) tbl = row :: rest →
        ∃ account,
          findDomainById (Encryption.decrypt open) account_id tbl = inr (Some account)
          ∧ DomainAccount.smtp_password account = plaintext
          ∧ DomainAccount.imap_password account = imap
          ∧ DomainAccount.id account = DomainAccount.id row
          ∧ DomainAccount.email account = DomainAccount.email row
          ∧ DomainAccount.status account = DomainAccount.status row.
Proof.
  intros seal open iv plaintext Hopen.
  assert (Hround : ∀ iv p, open iv (seal iv p).1 (seal iv p).2 = inr p →
            Encryption.decrypt open (Encryption.encrypt seal iv p) = inr p).
  { intros iv0 p H0. unfold Encryption.decrypt, Encryption.encrypt.
    destruct (seal iv0 p) as [tag ct]. simpl in H0.
    rewrite split_encrypted. simpl. by rewrite !from_hex_to_hex. }
  split; [|split].
  - pose proof (length_split ":" (Encryption.encrypt seal iv plaintext)) as Hlen.
    unfold Encryption.encrypt in *. destruct (seal iv plaintext) as [tag ct].
    rewrite split_encrypted in Hlen. simpl in Hlen. lia.
  - by apply Hround.
  - intros iv' imap row rest account_id tbl Himap Hs Hi Hrow.
    unfold findDomainById, decryptDomainPasswords. rewrite Hrow, Hs, Hi.
    rewrite (Hround iv plaintext Hopen), (Hround iv' imap Himap).
    eexists. split; [reflexivity|]. by repeat split.
Qed.

Lemma decrypt_reads_what_encrypt_wrote_witness :
  let seal (iv : list Byte.byte) (plaintext : string) := ([Byte.x01], [Byte.x02; Byte.xff]) in
  let open (iv authTag ciphertext : list Byte.byte) : string + string :=
    match iv, authTag, ciphertext with
    | [a], [b], [c; d] =>
        if Byte.eqb a Byte.xab && Byte.eqb b Byte.x01 && Byte.eqb c Byte.x02
           && Byte.eqb d Byte.xff
        then inr "secret" else inl "Unsupported state or unable to authenticate data"
    | _, _, _ => inl "Unsupported state or unable to authenticate data"
    end in
  Encryption.encrypt seal [Byte.xab] "secret" = "ab:01:02ff"
  ∧ Encryption.decrypt open "ab:01:02ff" = inr "secret".
Proof.
  intros seal open. split; [reflexivity|].
  exact (proj1 (proj2 (decrypt_reads_what_encrypt_wrote seal open [Byte.xab] "secret"
                         eq_refl))).
Defined.

Lemma insert_asc_elem r r0 rows : r ∈ rows ∨ r = r0 → r ∈ insert_asc r0 rows.
Proof.
  induction rows as [|r' rows IH]; simpl.
  - intros [H| ->]; [by apply elem_of_nil in H|]. apply elem_of_cons. by left.
  - intros H. destruct (_ <? _)%Z.
    + apply elem_of_cons. destruct H as [H| ->]; [by right|by left].
    + apply elem_of_cons. destruct H as [H| ->].
      * apply elem_of_cons in H as [->|H]; [by left|]. right. apply IH. by left.
      * right. apply IH. by right.
Qed.

Lemma order_by_created_at_asc_elem r tbl : r ∈ tbl → r ∈ order_by_created_at_asc tbl.
Proof.
  induction tbl as [|r0 tbl IH]; [done|]. simpl. intros H.
  apply insert_asc_elem. apply elem_of_cons in H as [->|H]; [by right|]. left. by apply IH.
Qed.

Lemma map_decrypt_fails decrypt r rows e :
  r ∈ rows → decryptLeadPasswords decrypt r = inl e →
  ∃ e', map_decrypt decrypt rows = inl e'.
Proof.
  intros Hr He. induction rows as [|r0 rows IH]; [by apply elem_of_nil in Hr|].
  simpl. apply elem_of_cons in Hr as [<-|Hr].
  - rewrite He. by eexists.
  - destruct (decryptLeadPasswords decrypt r0); [by eexists|].
    destruct (IH Hr) as [e' ->]. by eexists.
Qed.

(** A stored text that does not consist of three parts separated by
    colons — a password written to the table in the clear, say — is
    rejected by [decrypt] before the cipher is asked, and no warm-up
    starts with it: with such an SMTP password on the domain account
    [startWarmup] throws this error, with such a password on any lead it
    throws too, and in both cases it changes nothing. *)
Theorem decrypt_rejects_other_formats :
  ∀ (open : list Byte.byte → list Byte.byte → list Byte.byte → string + string)
    (stored : string),
    occurrences ":" stored ≠ 2%nat →
    Encryption.decrypt open stored = inl "Invalid encrypted data format"
    ∧ (∀ env d w row rest,
         activeSessions w !! d = None →
         filter (λ r, DomainAccount.id r = d) (domain_accounts w) = row :: rest →
         DomainAccount.smtp_password row = stored →
         startWarmup (Encryption.decrypt open) env d w
         = (inl (External "Invalid encrypted data format"), w))
    ∧ (∀ env d w account lead,
         activeSessions w !! d = None →
         findDomainById (Encryption.decrypt open) d (domain_accounts w)
         = inr (Some account) →
         lead ∈ lead_accounts w →
         LeadAccount.smtp_password lead = stored
         ∨ LeadAccount.imap_password lead = stored →
         ∃ m, startWarmup (Encryption.decrypt open) env d w = (inl (External m), w)).
Proof.
  intros open stored Hparts.
  assert (Hbad : Encryption.decrypt open stored = inl "Invalid encrypted data format").
  { unfold Encryption.decrypt. rewrite decide_True; [done|].
    rewrite length_split. lia. }
  split; [exact Hbad|]. split.
  - intros env d w row rest Hreg Hrow Hs.
    unfold startWarmup. reduce. rewrite Hreg. reduce.
    unfold findDomainById, decryptDomainPasswords. rewrite Hrow, Hs, Hbad. by reduce.
  - intros env d w account lead Hreg Hacc Hlead Hs.
    assert (Hfail : ∃ m, decryptLeadPasswords (Encryption.decrypt open) lead
                         = inl (External m)).
    { unfold decryptLeadPasswords. destruct Hs as [-> | ->]; rewrite Hbad.
      - by eexists.
      - destruct (Encryption.decrypt open (LeadAccount.smtp_password lead));
          by eexists. }
    destruct Hfail as [m Hfail].
    assert (Hall : ∃ m', findAllLeads (Encryption.decrypt open) (lead_accounts w)
                         = inl (External m')).
    { unfold findAllLeads.
      assert (Hany : ∀ rows, (∃ e, map_decrypt (Encryption.decrypt open) rows = inl e) →
                ∃ m', map_decrypt (Encryption.decrypt open) rows = inl (External m')).
      { clear. induction rows as [|r0 rows IH]; simpl; [by intros [e He]|].
        destruct (decryptLeadPasswords _ r0) as [e|r'] eqn:Hr0.
        - intros _. unfold decryptLeadPasswords in Hr0.
          repeat case_match; simplify_eq; by eexists.
        - destruct (map_decrypt _ rows) as [e|rs] eqn:Hrows.
          + intros _. destruct IH as [m' Hm']; [by eexists|].
            injection Hm' as ->. by eexists.
          + by intros [e He]. }
      apply Hany. eapply map_decrypt_fails; [|exact Hfail].
      by apply order_by_created_at_asc_elem. }
    destruct Hall as [m' Hall]. exists m'.
    unfold startWarmup. reduce. rewrite Hreg. reduce. rewrite Hacc. reduce.
    rewrite Hall. by reduce.
Qed.

Lemma decrypt_rejects_other_formats_witness :
  let open (iv authTag ciphertext : list Byte.byte) : string + string := inr "secret" in
  let w := mkWorld ∅ ∅ ∅ ∅ [] []
             [DomainAccount.mk "d1" "Me" "me@corp.io" "smtp.corp.io" 465 true "hunter2"
                "imap.corp.io" 993 true "00:00:00" idle 1 1]
             [Sample.lea] in
  occurrences ":" "hunter2" ≠ 2%nat
  ∧ startWarmup (Encryption.decrypt open) (Sample.env 10 "u1") "d1" w
    = (inl (External "Invalid encrypted data format"), w).
Proof.
  intros open w.
  assert (Hparts : occurrences ":" "hunter2" ≠ 2%nat) by (simpl; lia).
  split; [exact Hparts|].
  destruct (decrypt_rejects_other_formats open "hunter2" Hparts) as (_ & Hstart & _).
  eapply (Hstart (Sample.env 10 "u1") "d1" w); reflexivity.
Defined.


(** ** Session repository: updates by id *)

Lemma findById_None session_id tbl :
  SessionRepo.findById session_id tbl = None →
  ∀ r, r ∈ tbl → WarmupSession.id r ≠ session_id.
Proof.
  unfold SessionRepo.findById, first_row. intros Hnone r Hr Hid.
  assert (Hin : r ∈ filter (λ r, WarmupSession.id r = session_id) tbl)
    by (by apply list_elem_of_filter).
  destruct (filter _ tbl); [by apply elem_of_nil in Hin|discriminate].
Qed.

(** [updateStatus] writes the status and the columns it is given, on the
    row with the id, and nothing else.  For an id that is not in the table
    it returns [null] and leaves the table as it is.  Otherwise it
    returns the row as stored, which [findById] then finds: with the new
    status, with the lead index and the last Message-ID of [extras] where
    these are given, with the error message and the time of completion of
    [extras] where these keys are present (so that they can be set to
    [null], which the last Message-ID cannot), and with the other columns
    as before.  Rows with another id are found as before. *)
Theorem updateStatus_writes_one_row :
  ∀ (now : Z) (session_id : string) (st : SessionStatus) (extras : SessionRepo.Extras)
    (tbl : list WarmupSession.t),
    let returned := fst (SessionRepo.updateStatus now session_id st extras tbl) in
    let tbl' := snd (SessionRepo.updateStatus now session_id st extras tbl) in
    (SessionRepo.findById session_id tbl = None → returned = None ∧ tbl' = tbl)
    ∧ (∀ r, SessionRepo.findById session_id tbl = Some r →
         ∃ r', returned = Some r'
               ∧ SessionRepo.findById session_id tbl' = Some r'
               ∧ WarmupSession.status r' = st
               ∧ WarmupSession.current_lead_index r'
                 = default (WarmupSession.current_lead_index r)
                     (SessionRepo.x_current_lead_index extras)
               ∧ WarmupSession.last_message_id r'
                 = (if SessionRepo.x_last_message_id extras is Some m then Some m
                    else WarmupSession.last_message_id r)
               ∧ WarmupSession.error_message r'
                 = default (WarmupSession.error_message r)
                     (SessionRepo.x_error_message extras)
               ∧ WarmupSession.completed_at r'
                 = default (WarmupSession.completed_at r)
                     (SessionRepo.x_completed_at extras)
               ∧ WarmupSession.updated_at r' = now
               ∧ WarmupSession.id r' = session_id
               ∧ WarmupSession.domain_account_id r' = WarmupSession.domain_account_id r
               ∧ WarmupSession.session_date r' = WarmupSession.session_date r
               ∧ WarmupSession.started_at r' = WarmupSession.started_at r
               ∧ WarmupSession.created_at r' = WarmupSession.created_at r)
    ∧ (∀ other, other ≠ session_id →
         SessionRepo.findById other tbl' = SessionRepo.findById other tbl)
    ∧ length tbl' = length tbl.
Proof.
  intros now session_id st extras tbl returned tbl'.
  unfold returned, tbl'. rewrite updateStatus_row. split; [|split; [|split]].
  - intros Hnone. rewrite Hnone. split; [done|].
    rewrite updateStatus_table.
    rewrite <- (list_fmap_id tbl) at 2. apply list_fmap_ext. intros i r Hr.
    rewrite decide_False; [done|].
    eapply findById_None; [exact Hnone|]. by eapply list_elem_of_lookup_2.
  - intros r Hr. rewrite Hr. eexists. split; [reflexivity|].
    rewrite findById_updateStatus, Hr. simpl. rewrite decide_True by done.
    split; [done|]. apply findById_id in Hr. by repeat split.
  - intros other Hother. rewrite findById_updateStatus.
    destruct (SessionRepo.findById other tbl); [|done]. simpl.
    by rewrite decide_False.
  - by rewrite updateStatus_table, length_fmap.
Qed.

Lemma updateStatus_writes_one_row_witness :
  let cleared :=
    {| SessionRepo.x_current_lead_index := None; SessionRepo.x_last_message_id := None;
       SessionRepo.x_error_message := Some None;
       SessionRepo.x_completed_at := Some None |} in
  ∃ r r',
    SessionRepo.findById "s1" Sample.sessions = Some r
    ∧ fst (SessionRepo.updateStatus 9 "s1" sending cleared Sample.sessions) = Some r'
    ∧ WarmupSession.error_message r' = None
    ∧ WarmupSession.current_lead_index r' = WarmupSession.current_lead_index r
    ∧ fst (SessionRepo.updateStatus 9 "s0" sending cleared Sample.sessions) = None.
Proof.
  intros cleared.
  destruct (SessionRepo.findById "s1" Sample.sessions) as [r|] eqn:Hr;
    [|vm_compute in Hr; discriminate].
  destruct (updateStatus_writes_one_row 9 "s1" sending cleared Sample.sessions)
    as (_ & Hsome & _).
  destruct (Hsome r Hr) as (r' & Hret & _ & _ & Hidx & _ & Herr & _).
  destruct (updateStatus_writes_one_row 9 "s0" sending cleared Sample.sessions)
    as (Hnone & _).
  exists r, r'. split; [reflexivity|]. split; [exact Hret|]. split; [exact Herr|].
  split; [exact Hidx|]. exact (proj1 (Hnone eq_refl)).
Defined.
